(** * httplog: a shallow embedding of the response-writer wrapper, the
      attribute-pair parser, client-address resolution and the log-format
      interpreter, with the properties the specification states for them.

    Go strings are byte strings: they are modelled by [string] (a list of
    8-bit [ascii]).  Indexing [text[i]] is [String.get], slicing [text[a:b]]
    is [slice], which panics out of range as Go does.  Go maps are [gmap];
    a nil map is [None].  A Go function that may panic returns an
    [outcome]. *)

From Stdlib Require Import ZArith Lia Bool List Ascii String Strings.Byte.
From stdpp Require Import gmap strings list pretty.

Open Scope string_scope.

(** ** Outcomes of Go calls *)

(** A call either returns a value or panics (run-time error). *)
Inductive outcome (A : Type) : Type :=
| Return (a : A)
| Panics.
Arguments Return {A} a.
Arguments Panics {A}.

(** Sequencing: a panic of the first call is the panic of the whole. *)
Definition bind {A B} (o : outcome A) (k : A -> outcome B) : outcome B :=
  match o with
  | Return a => k a
  | Panics => Panics
  end.

Notation "'do' x <- o ; k" := (bind o (fun x => k))
  (at level 10, x name, o at level 100, k at level 200).

(** Go's [error] built by [errors.New] / [fmt.Errorf]: its message. *)
Definition error := string.

(** ** response_writer.go *)

(** The four optional interfaces of net/http that a sink may implement. *)
Inductive Capability := CloseNotifier | Flusher | Hijacker | Pusher.

#[global] Instance Capability_eq_dec : EqDecision Capability.
Proof. solve_decision. Defined.

Definition all_capabilities : list Capability :=
  [CloseNotifier; Flusher; Hijacker; Pusher].

(** Method names that occur in the file. *)
Inductive MethodName :=
| MWrite | MWriteHeader | MHeader | MStatus | MSize | MHijacked
| MCloseNotify | MFlush | MHijack | MPush.

#[global] Instance MethodName_eq_dec : EqDecision MethodName.
Proof. solve_decision. Defined.

(** The single method of each optional interface. *)
Definition interface_method (c : Capability) : MethodName :=
  match c with
  | CloseNotifier => MCloseNotify
  | Flusher => MFlush
  | Hijacker => MHijack
  | Pusher => MPush
  end.

(** [const ( closeNotifier int = 1 << iota; flusher; hijacker; pusher )] *)
Definition closeNotifier : Z := Z.shiftl 1 0.
Definition flusher : Z := Z.shiftl 1 1.
Definition hijacker : Z := Z.shiftl 1 2.
Definition pusher : Z := Z.shiftl 1 3.

(** The sixteen wrapper types.  [ptr_responseWriter] is [*responseWriter];
    the others are the struct types of the same name, each embedding a
    [*responseWriter]. *)
Inductive Shape :=
| ptr_responseWriter
| responseWriterCloseNotifier
| responseWriterFlusher
| responseWriterCloseNotifierFlusher
| responseWriterHijacker
| responseWriterCloseNotifierHijacker
| responseWriterFlusherHijacker
| responseWriterCloseNotifierFlusherHijacker
| responseWriterPusher
| responseWriterCloseNotifierPusher
| responseWriterFlusherPusher
| responseWriterCloseNotifierFlusherPusher
| responseWriterHijackerPusher
| responseWriterCloseNotifierHijackerPusher
| responseWriterFlusherHijackerPusher
| responseWriterCloseNotifierFlusherHijackerPusher.

#[global] Instance Shape_eq_dec : EqDecision Shape.
Proof. solve_decision. Defined.

(** Methods of [*responseWriter], promoted to every type that embeds it. *)
Definition base_methods : list MethodName :=
  [MWrite; MWriteHeader; MHeader; MStatus; MSize; MHijacked].

(** Methods declared in the source with the given type as receiver, in
    source order ([func (r T) M(...)]). *)
Definition declared_methods (t : Shape) : list MethodName :=
  match t with
  | ptr_responseWriter => base_methods
  | responseWriterCloseNotifier => [MCloseNotify]
  | responseWriterFlusher => [MFlush]
  | responseWriterCloseNotifierFlusher => [MCloseNotify; MFlush]
  | responseWriterHijacker => [MHijack]
  | responseWriterCloseNotifierHijacker => [MCloseNotify; MHijack]
  | responseWriterFlusherHijacker => [MFlush; MHijack]
  | responseWriterCloseNotifierFlusherHijacker =>
      (* lines 244, 248, 252 and the [Push] of line 311 *)
      [MCloseNotify; MFlush; MHijack; MPush]
  | responseWriterPusher => [MPush]
  | responseWriterCloseNotifierPusher => [MCloseNotify; MPush]
  | responseWriterFlusherPusher => [MFlush; MPush]
  | responseWriterCloseNotifierFlusherPusher =>
      (* lines 303 and 307 only *)
      [MCloseNotify; MFlush]
  | responseWriterHijackerPusher => [MHijack; MPush]
  | responseWriterCloseNotifierHijackerPusher => [MCloseNotify; MHijack; MPush]
  | responseWriterFlusherHijackerPusher => [MFlush; MHijack; MPush]
  | responseWriterCloseNotifierFlusherHijackerPusher =>
      [MCloseNotify; MFlush; MHijack; MPush]
  end.

(** The method set of a wrapper type: its own methods and the promoted
    ones. *)
Definition method_set (t : Shape) : list MethodName :=
  match t with
  | ptr_responseWriter => base_methods
  | _ => base_methods ++ declared_methods t
  end.

Definition has_method (t : Shape) (m : MethodName) : bool :=
  bool_decide (m ∈ method_set t).

(** The underlying [http.ResponseWriter] as an interface value: the state of
    the object (of some type [U]), the behaviour of its methods, and the
    optional interfaces its dynamic type implements (what [rw.(http.X)]
    answers).  [sink_Write] returns the accepted byte count and the error,
    [sink_Hijack] the error (the connection and buffer it returns are not
    inspected by this package). *)
Record Sink (U : Type) := {
  sink_state : U;
  sink_Write : U -> list byte -> U * (Z * option error);
  sink_WriteHeader : U -> Z -> U;
  sink_Hijack : U -> U * option error;
  sink_implements : Capability -> bool
}.
Arguments sink_state {U} _.
Arguments sink_Write {U} _ _ _.
Arguments sink_WriteHeader {U} _ _ _.
Arguments sink_Hijack {U} _ _.
Arguments sink_implements {U} _ _.

(** The same object after a method changed its state. *)
Definition with_state {U} (rw : Sink U) (u : U) : Sink U :=
  {| sink_state := u;
     sink_Write := sink_Write rw;
     sink_WriteHeader := sink_WriteHeader rw;
     sink_Hijack := sink_Hijack rw;
     sink_implements := sink_implements rw |}.

(** [type responseWriter struct] *)
Record responseWriter (U : Type) := {
  rw_responseWriter : Sink U;
  status : Z;
  size : Z;
  hijacked : bool
}.
Arguments rw_responseWriter {U} _.
Arguments status {U} _.
Arguments size {U} _.
Arguments hijacked {U} _.

(** A wrapper value: its dynamic type and the [responseWriter] it points
    to. *)
Record Wrapper (U : Type) := {
  shape : Shape;
  target : responseWriter U
}.
Arguments shape {U} _.
Arguments target {U} _.

(** [&responseWriter{responseWriter: rw}] *)
Definition new_responseWriter {U} (rw : Sink U) : responseWriter U :=
  {| rw_responseWriter := rw; status := 0; size := 0; hijacked := false |}.

(** [var types = [16]func(http.ResponseWriter) ResponseWriter{...}] *)
Definition types {U} : list (Sink U -> Wrapper U) :=
  map (fun t rw => {| shape := t; target := new_responseWriter rw |})
    [ ptr_responseWriter;
      responseWriterCloseNotifier;
      responseWriterFlusher;
      responseWriterCloseNotifierFlusher;
      responseWriterHijacker;
      responseWriterCloseNotifierHijacker;
      responseWriterFlusherHijacker;
      responseWriterCloseNotifierFlusherHijacker;
      responseWriterPusher;
      responseWriterCloseNotifierPusher;
      responseWriterFlusherPusher;
      responseWriterCloseNotifierFlusherPusher;
      responseWriterHijackerPusher;
      responseWriterCloseNotifierHijackerPusher;
      responseWriterFlusherHijackerPusher;
      responseWriterCloseNotifierFlusherHijackerPusher ].

(** The index computed by [WrapResponseWriter]. *)
Definition wrap_index {U} (rw : Sink U) : Z :=
  let i := 0%Z in
  let i := if sink_implements rw CloseNotifier then Z.lor i closeNotifier else i in
  let i := if sink_implements rw Flusher then Z.lor i flusher else i in
  let i := if sink_implements rw Hijacker then Z.lor i hijacker else i in
  let i := if sink_implements rw Pusher then Z.lor i pusher else i in
  i.

(** [func WrapResponseWriter(rw http.ResponseWriter) ResponseWriter].
    [types[i]] panics out of range; [wrap_index_in_range] shows the index
    is always below 16. *)
Definition WrapResponseWriter {U} (rw : Sink U) : outcome (Wrapper U) :=
  match types !! Z.to_nat (wrap_index rw) with
  | Some mk => Return (mk rw)
  | None => Panics
  end.

(** [_, ok := w.(http.X)]: the [ok] of a type assertion on a wrapper. *)
Definition wrapper_implements {U} (w : Wrapper U) (c : Capability) : bool :=
  has_method (shape w) (interface_method c).

(** int64 wrap-around. *)
Definition wrap64 (z : Z) : Z :=
  ((z + 2 ^ 63) mod 2 ^ 64 - 2 ^ 63)%Z.

(** [func (r *responseWriter) Write(p []byte) (int, error)] *)
Definition Write {U} (r : responseWriter U) (p : list byte)
  : responseWriter U * (Z * option error) :=
  let '(u, (n, err)) :=
    sink_Write (rw_responseWriter r) (sink_state (rw_responseWriter r)) p in
  ({| rw_responseWriter := with_state (rw_responseWriter r) u;
      status := status r;
      size := wrap64 (size r + n);
      hijacked := hijacked r |},
   (n, err)).

(** [func (r *responseWriter) WriteHeader(statusCode int)] *)
Definition WriteHeader {U} (r : responseWriter U) (statusCode : Z)
  : responseWriter U :=
  {| rw_responseWriter :=
       with_state (rw_responseWriter r)
         (sink_WriteHeader (rw_responseWriter r)
            (sink_state (rw_responseWriter r)) statusCode);
     status := statusCode;
     size := size r;
     hijacked := hijacked r |}.

(** [func (r *responseWriter) Status() int] *)
Definition Status {U} (r : responseWriter U) : Z :=
  if (status r =? 0)%Z then 200%Z else status r.

(** [func (r *responseWriter) Size() int64] *)
Definition Size {U} (r : responseWriter U) : Z := size r.

(** [func (r *responseWriter) Hijacked() bool] *)
Definition Hijacked {U} (r : responseWriter U) : bool := hijacked r.

(** The body shared by the eight [Hijack] methods:
    [r.responseWriter.hijacked = true;
     return r.responseWriter.responseWriter.(http.Hijacker).Hijack()].
    The object after the call is returned also when the type assertion
    panics. *)
Definition Hijack_body {U} (r : responseWriter U)
  : responseWriter U * outcome (option error) :=
  let r1 := {| rw_responseWriter := rw_responseWriter r;
               status := status r;
               size := size r;
               hijacked := true |} in
  if sink_implements (rw_responseWriter r1) Hijacker then
    let '(u, err) :=
      sink_Hijack (rw_responseWriter r1) (sink_state (rw_responseWriter r1)) in
    ({| rw_responseWriter := with_state (rw_responseWriter r1) u;
        status := status r1;
        size := size r1;
        hijacked := hijacked r1 |},
     Return err)
  else (r1, Panics).

(** Calling [Hijack] on a wrapper: possible only when the method is in the
    method set of its type. *)
Definition Hijack {U} (w : Wrapper U)
  : option (Wrapper U * outcome (option error)) :=
  if has_method (shape w) MHijack then
    let '(r, res) := Hijack_body (target w) in
    Some ({| shape := shape w; target := r |}, res)
  else None.

(** Calls on the baseline interface, and running a sequence of them.  The
    run collects the byte count each [Write] returned, in call order. *)
Inductive Call :=
| CallWrite (p : list byte)
| CallWriteHeader (statusCode : Z).

Fixpoint run {U} (r : responseWriter U) (cs : list Call)
  : responseWriter U * list Z :=
  match cs with
  | [] => (r, [])
  | CallWrite p :: cs' =>
      let '(r1, (n, _)) := Write r p in
      let '(r2, ns) := run r1 cs' in
      (r2, n :: ns)
  | CallWriteHeader c :: cs' => run (WriteHeader r c) cs'
  end.

(** The status codes passed to [WriteHeader] in a sequence of calls. *)
Definition header_codes (cs : list Call) : list Z :=
  omap (fun c => match c with CallWriteHeader s => Some s | _ => None end) cs.

Definition sum_Z (ns : list Z) : Z := foldr Z.add 0%Z ns.

(** ** Go strings *)

(** The double-quote character, and the one-character string of it. *)
Definition dquote : ascii := "034"%char.
Definition dq : string := String dquote "".

(** [s[i]]: panics when [i] is out of range. *)
Definition index (s : string) (i : nat) : outcome ascii :=
  match String.get i s with
  | Some c => Return c
  | None => Panics
  end.

(** [s[lo:hi]]: panics unless [lo <= hi <= len(s)]. *)
Definition slice (s : string) (lo hi : nat) : outcome string :=
  if (lo <=? hi)%nat && (hi <=? String.length s)%nat
  then Return (String.substring lo (hi - lo) s)
  else Panics.

(** [s[lo:]] *)
Definition slice_from (s : string) (lo : nat) : outcome string :=
  slice s lo (String.length s).

(** The loop [for ; i < len(text) && !stop(text[i]); i++ {}]: the value of
    [i] when it ends.  The fuel is the distance to the end of the text. *)
Fixpoint scan_loop (stop : ascii -> bool) (text : string) (fuel i : nat) : nat :=
  match fuel with
  | 0 => i
  | S fuel' =>
      match String.get i text with
      | Some c => if stop c then i else scan_loop stop text fuel' (S i)
      | None => i
      end
  end.

Definition scan (stop : ascii -> bool) (text : string) (i : nat) : nat :=
  scan_loop stop text (String.length text - i) i.

(** [strings.Join(elems, sep)] *)
Fixpoint Join (elems : list string) (sep : string) : string :=
  match elems with
  | [] => ""
  | [x] => x
  | x :: rest => x +:+ sep +:+ Join rest sep
  end.

(** [strings.HasPrefix(s, prefix)] *)
Definition HasPrefix (s prefix : string) : bool := String.prefix prefix s.

(** [strings.TrimPrefix(s, prefix)] *)
Definition TrimPrefix (s prefix : string) : string :=
  if HasPrefix s prefix
  then String.substring (String.length prefix)
         (String.length s - String.length prefix) s
  else s.

(** [strings.SplitN(s, ",", 2)]: the text before the first comma, and the
    text after it when there is one. *)
Fixpoint SplitN_comma_2 (s : string) : list string :=
  match s with
  | EmptyString => [""]
  | String c rest =>
      if (c =? ",")%char then [""; rest]
      else match SplitN_comma_2 rest with
           | h :: t => String c h :: t
           | [] => []
           end
  end.

(** [strconv.FormatInt(i, 10)], and [%d] of [fmt.Errorf]. *)
Definition FormatInt (i : Z) : string := pretty i.

(** ** Library functions taken as given

    Functions of the Go standard library whose results the package passes
    through: time formatting, URL rendering, Unicode-aware string functions,
    header-key canonicalisation and the rendering of floating-point
    durations. *)
Class GoLib := {
  (** [time.Time] and [t.Format(layout)] *)
  Time : Type;
  Time_Format : Time -> string -> string;
  (** [url.URL], its fields [Path] and [RawQuery], and [u.String()] *)
  URL : Type;
  URL_Path : URL -> string;
  URL_RawQuery : URL -> string;
  URL_String : URL -> string;
  (** [strings.ToLower], [strings.TrimSpace] *)
  ToLower : string -> string;
  TrimSpace : string -> string;
  (** [http.CanonicalHeaderKey] *)
  CanonicalHeaderKey : string -> string;
  (** [strconv.FormatFloat(float64(d) / float64(unit), 'f', -1, 64)] for a
      duration [d] and a unit, both in nanoseconds *)
  FormatFloat_ratio : Z -> Z -> string;
  (** [strconv.FormatFloat(d.Seconds(), 'f', -1, 64)] *)
  FormatFloat_Seconds : Z -> string
}.

(** [time.Microsecond], [time.Millisecond] (nanoseconds) *)
Definition Microsecond : Z := 1000.
Definition Millisecond : Z := 1000000.

(** ** The request file: ParsePairs *)

(** [map[string]string]; [None] is the nil map. *)
Abbreviation pairs_map := (option (gmap string string)).

(** [m[k]] on a possibly nil map: the zero value when absent. *)
Definition map_get (m : pairs_map) (k : string) : string :=
  match m with
  | Some g => default "" (g !! k)
  | None => ""
  end.

(** What one iteration of the loop of [ParsePairs] does: go on with a new
    [s] and map, or return from the function. *)
Inductive iteration :=
| Next (s : nat) (pairs : pairs_map)
| Done (ret : pairs_map * option error).

Definition is_eq_or_semi (c : ascii) : bool := (c =? "=")%char || (c =? ";")%char.
Definition is_semi (c : ascii) : bool := (c =? ";")%char.
Definition is_quote (c : ascii) : bool := (c =? dquote)%char.

(** The condition [i < len(text) && p(text[i])]. *)
Definition in_range_and (p : ascii -> bool) (text : string) (i : nat)
  : outcome bool :=
  if (i <? String.length text)%nat
  then do c <- index text i; Return (p c)
  else Return false.

(** Lines 119 to 133, common to both branches. *)
Definition ParsePairs_store `{GoLib} (text : string) (ci : bool)
    (ns ne vs ve s : nat) (pairs : pairs_map) : outcome iteration :=
  let e := String.length text in
  if (vs =? ve)%nat then
    Return (Done (None, Some ("empty attribute value at " +:+ FormatInt (Z.of_nat vs))))
  else if (s =? e)%nat then
    Return (Done (None, Some ("trailing ';' at " +:+ FormatInt (Z.of_nat s))))
  else
    let pairs := match pairs with None => ∅ | Some g => g end in
    do name <- slice text ns ne;
    do value <- slice text vs ve;
    if ci then Return (Next s (Some (<[ToLower name := value]> pairs)))
    else Return (Next s (Some (<[name := value]> pairs))).

(** The body of [for s < e { ... }], lines 91 to 133. *)
Definition ParsePairs_iter `{GoLib} (text : string) (ci : bool)
    (s : nat) (pairs : pairs_map) : outcome iteration :=
  let e := String.length text in
  let ns := s in
  let ne := scan is_eq_or_semi text s in
  if (ne =? ns)%nat then
    Return (Done (None, Some ("empty attribute name at " +:+ FormatInt (Z.of_nat ns))))
  else if (ne =? e)%nat then
    Return (Done (None, Some "no '=' before end of string"))
  else
    do c <- index text ne;
    if is_semi c then
      Return (Done (None, Some ("found unexpected ';' at " +:+ FormatInt (Z.of_nat ne))))
    else
      let vs := ne + 1 in
      do quoted <- in_range_and is_quote text vs;
      if quoted then
        (* vs, ve = vs+1, vs+2 *)
        let ve := scan is_quote text (vs + 2) in
        let vs := vs + 1 in
        let s := ve + 1 in
        do trailing <- in_range_and (fun c => negb (is_semi c)) text s;
        if trailing then
          Return (Done (None, Some ("trailing data after quoted string at "
                                    +:+ FormatInt (Z.of_nat s))))
        else
          let s := s + 1 in
          ParsePairs_store text ci ns ne vs ve s pairs
      else
        let ve := scan is_semi text vs in
        let s := ve + 1 in
        ParsePairs_store text ci ns ne vs ve s pairs.

(** The loop [for s < e].  Every iteration that goes on advances [s], so a
    fuel of [e - s] is never used up ([ParsePairs_loop_fuel]): at fuel 0 the
    condition [s < e] is false. *)
Fixpoint ParsePairs_loop `{GoLib} (fuel : nat) (text : string) (ci : bool)
    (s : nat) (pairs : pairs_map) : outcome (pairs_map * option error) :=
  match fuel with
  | 0 => Return (pairs, None)
  | S fuel' =>
      if (s <? String.length text)%nat then
        do it <- ParsePairs_iter text ci s pairs;
        match it with
        | Done ret => Return ret
        | Next s' pairs' => ParsePairs_loop fuel' text ci s' pairs'
        end
      else Return (pairs, None)
  end.

(** [func ParsePairs(text string, ci bool) (map[string]string, error)] *)
Definition ParsePairs `{GoLib} (text : string) (ci : bool)
  : outcome (pairs_map * option error) :=
  ParsePairs_loop (String.length text) text ci 0 None.

(** ** The request file: Request, FirstForwardedFor, ClientAddr *)

(** [http.Header], a [map[string][]string]. *)
Abbreviation Header := (gmap string (list string)).

(** [h[k]]: the nil slice when absent. *)
Definition header_values (h : Header) (k : string) : list string :=
  default [] (h !! k).

(** [h.Get(key)]: the first value under the canonical form of the key. *)
Definition Header_Get `{GoLib} (h : Header) (key : string) : string :=
  match header_values h (CanonicalHeaderKey key) with
  | v :: _ => v
  | [] => ""
  end.

(** [type Request struct]; [URL] is a pointer, [None] when nil. *)
Record Request `{GoLib} := {
  Method : string;
  URI : string;
  Request_URL : option URL;
  Proto : string;
  Request_Header : Header;
  ContentLength : Z;
  Host : string;
  RemoteAddr : string;
  User : string
}.

(** The first loop of [FirstForwardedFor], over [r.Header["Forwarded"]]:
    the error of [ParsePairs] is dropped, a panic is not. *)
Fixpoint forwarded_for `{GoLib} (forwardHeaders : list string)
  : outcome (option string) :=
  match forwardHeaders with
  | [] => Return None
  | v :: rest =>
      do ret <- ParsePairs v true;
      let f := map_get (fst ret) "for" in
      if negb (f =? "") then Return (Some f) else forwarded_for rest
  end.

(** The second loop, over [r.Header["X-Forwarded-For"]]. *)
Fixpoint first_hop `{GoLib} (forwardHeaders : list string) : option string :=
  match forwardHeaders with
  | [] => None
  | v :: rest =>
      match SplitN_comma_2 v with
      | hop :: _ => Some (TrimSpace hop)
      | [] => first_hop rest
      end
  end.

(** [func (r *Request) FirstForwardedFor() string] *)
Definition FirstForwardedFor `{GoLib} (r : Request) : outcome string :=
  do found <- forwarded_for (header_values (Request_Header r) "Forwarded");
  match found with
  | Some f => Return f
  | None =>
      match first_hop (header_values (Request_Header r) "X-Forwarded-For") with
      | Some hop => Return hop
      | None => Return ""
      end
  end.

(** [func (r *Request) ClientAddr() string] *)
Definition ClientAddr `{GoLib} (r : Request) : outcome string :=
  do f <- FirstForwardedFor r;
  if negb (f =? "") then Return f else Return (RemoteAddr r).

(** ** The response file and record.go *)

(** [type Response struct] *)
Record Response := {
  Response_Status : Z;
  Response_Size : Z;
  Response_Hijacked : bool;
  Response_Header : Header
}.

(** [type Record struct] *)
Record LogRecord `{GoLib} := {
  Record_Request : Request;
  Record_Response : Response;
  StartTime : Time;
  EndTime : Time;
  Duration : Z
}.

Definition SimpleLogFormat : string :=
  "%a " +:+ dq +:+ "%r" +:+ dq +:+ " %s %B".
Definition BasicLogFormat : string :=
  "%a %v %u " +:+ dq +:+ "%r" +:+ dq +:+ " %s %T %B "
  +:+ dq +:+ "%{User-Agent}i" +:+ dq.
Definition CommonLogFormat : string :=
  "%a - %u %t " +:+ dq +:+ "%r" +:+ dq +:+ " %s %B".
Definition NCSALogFormat : string :=
  "%a - %u %t " +:+ dq +:+ "%r" +:+ dq +:+ " %s %B "
  +:+ dq +:+ "%{Referer}i" +:+ dq +:+ " " +:+ dq +:+ "%{User-Agent}i" +:+ dq.

(** [r.URL.f]: a nil pointer dereference panics. *)
Definition deref_URL `{GoLib} (r : LogRecord) : outcome URL :=
  match Request_URL (Record_Request r) with
  | Some u => Return u
  | None => Panics
  end.

(** What one iteration of the loop of [Format] does: go on after index [i]
    with builder contents [b], or return from the function. *)
Inductive format_step :=
| Continue (i : nat) (b : string)
| Finished (s : string).

Definition is_close_brace (c : ascii) : bool := (c =? "}")%char.

(** [case '{':], lines 136 to 190; [i] is the index of the brace. *)
Definition Format_brace `{GoLib} (r : LogRecord) (format : string)
    (i : nat) (b : string) : outcome format_step :=
  let l := String.length format in
  let j := scan is_close_brace format (i + 1) in
  if (j =? l)%nat then
    do rest <- slice_from format i;
    Return (Finished (b +:+ "%" +:+ rest))
  else
    do key <- slice format (i + 1) j;
    let j := j + 1 in
    if (j =? l)%nat then
      do rest <- slice_from format i;
      Return (Finished (b +:+ "%" +:+ rest))
    else
      let i := j in
      do d <- index format j;
      match d with
      | "C"%char =>
          do ret <- ParsePairs
                      (Header_Get (Request_Header (Record_Request r)) "Cookie")
                      false;
          Return (Continue i (b +:+ map_get (fst ret) key))
      | "T"%char =>
          if key =? "ms" then
            Return (Continue i (b +:+ FormatFloat_ratio (Duration r) Millisecond))
          else if key =? "us" then
            Return (Continue i (b +:+ FormatFloat_ratio (Duration r) Microsecond))
          else if key =? "s" then
            Return (Continue i (b +:+ FormatFloat_Seconds (Duration r)))
          else
            Return (Continue i (b +:+ "%{" +:+ key +:+ "}T"))
      | "i"%char =>
          let headers := header_values (Request_Header (Record_Request r))
                           (CanonicalHeaderKey key) in
          Return (Continue i (b +:+ Join headers ","))
      | "o"%char =>
          let headers := header_values (Response_Header (Record_Response r))
                           (CanonicalHeaderKey key) in
          Return (Continue i (b +:+ Join headers ","))
      | "t"%char =>
          if HasPrefix key "end:" then
            Return (Continue i (b +:+ Time_Format (EndTime r) (TrimPrefix key "end:")))
          else
            Return (Continue i (b +:+ Time_Format (StartTime r) (TrimPrefix key "begin:")))
      | _ =>
          Return (Continue i (b +:+ "%{" +:+ key +:+ "}" +:+ String d ""))
      end.

(** The body of the loop of [Format], lines 88 to 197. *)
Definition Format_iter `{GoLib} (r : LogRecord) (format : string)
    (i : nat) (b : string) : outcome format_step :=
  let l := String.length format in
  do c <- index format i;
  match c with
  | "%"%char =>
      let i := i + 1 in
      if (i =? l)%nat then Return (Finished (b +:+ "%"))
      else
        do d <- index format i;
        match d with
        | "%"%char => Return (Continue i (b +:+ "%"))
        | "B"%char =>
            Return (Continue i (b +:+ FormatInt (Response_Size (Record_Response r))))
        | "D"%char =>
            Return (Continue i (b +:+ FormatFloat_ratio (Duration r) Microsecond))
        | "H"%char => Return (Continue i (b +:+ Proto (Record_Request r)))
        | "T"%char => Return (Continue i (b +:+ FormatFloat_Seconds (Duration r)))
        | "U"%char =>
            do u <- deref_URL r;
            Return (Continue i (b +:+ URL_Path u))
        | "a"%char =>
            do a <- ClientAddr (Record_Request r);
            Return (Continue i (b +:+ a))
        | "m"%char => Return (Continue i (b +:+ Method (Record_Request r)))
        | "q"%char =>
            do u <- deref_URL r;
            if negb (URL_RawQuery u =? "")
            then Return (Continue i (b +:+ "?" +:+ URL_RawQuery u))
            else Return (Continue i b)
        | "r"%char =>
            let b := b +:+ Method (Record_Request r) in
            let b := b +:+ " " in
            let b := b +:+ Proto (Record_Request r) in
            let b := b +:+ " " in
            do u <- deref_URL r;
            Return (Continue i (b +:+ URL_String u))
        | "s"%char =>
            Return (Continue i (b +:+ FormatInt (Response_Status (Record_Response r))))
        | "t"%char =>
            Return (Continue i
                      (b +:+ Time_Format (StartTime r) "[02/Jan/2006:15:04:05 -0700]"))
        | "u"%char =>
            if negb (User (Record_Request r) =? "")
            then Return (Continue i (b +:+ User (Record_Request r)))
            else Return (Continue i (b +:+ "-"))
        | "v"%char => Return (Continue i (b +:+ Host (Record_Request r)))
        | "{"%char => Format_brace r format i b
        | _ => Return (Continue i (b +:+ "%" +:+ String d ""))
        end
  | _ => Return (Continue i (b +:+ String c ""))
  end.

(** The loop [for i, l := 0, len(format); i < l; i++].  An iteration never
    moves [i] back, so a fuel of [l - i] is never used up
    ([Format_loop_fuel]): at fuel 0 the condition [i < l] is false. *)
Fixpoint Format_loop `{GoLib} (fuel : nat) (r : LogRecord) (format : string)
    (i : nat) (b : string) : outcome string :=
  match fuel with
  | 0 => Return b
  | S fuel' =>
      if (i <? String.length format)%nat then
        do st <- Format_iter r format i b;
        match st with
        | Finished s => Return s
        | Continue i' b' => Format_loop fuel' r format (i' + 1) b'
        end
      else Return b
  end.

(** [func (r *Record) Format(format string) string] *)
Definition Format `{GoLib} (r : LogRecord) (format : string) : outcome string :=
  Format_loop (String.length format) r format 0 "".

(** * Vocabulary of the statements, and examples *)

(** A set of capabilities as the answer to type assertions. *)
Definition caps_of (l : list Capability) : Capability -> bool :=
  fun c => bool_decide (c ∈ l).

(** The given sink, with another dynamic type. *)
Definition with_caps {U} (rw : Sink U) (caps : Capability -> bool) : Sink U :=
  {| sink_state := sink_state rw;
     sink_Write := sink_Write rw;
     sink_WriteHeader := sink_WriteHeader rw;
     sink_Hijack := sink_Hijack rw;
     sink_implements := caps |}.

(** A sink that accepts every byte and fails to hijack, for the concrete
    examples. *)
Definition plain_sink (caps : list Capability) : Sink unit :=
  {| sink_state := tt;
     sink_Write := fun u p => (u, (Z.of_nat (length p), None));
     sink_WriteHeader := fun u _ => u;
     sink_Hijack := fun u => (u, Some "hijack failed");
     sink_implements := caps_of caps |}.

(** The type chosen by [WrapResponseWriter], by the four type assertions. *)
Definition chosen_shape (cn fl hj pu : bool) : Shape :=
  match cn, fl, hj, pu with
  | false, false, false, false => ptr_responseWriter
  | true, false, false, false => responseWriterCloseNotifier
  | false, true, false, false => responseWriterFlusher
  | true, true, false, false => responseWriterCloseNotifierFlusher
  | false, false, true, false => responseWriterHijacker
  | true, false, true, false => responseWriterCloseNotifierHijacker
  | false, true, true, false => responseWriterFlusherHijacker
  | true, true, true, false => responseWriterCloseNotifierFlusherHijacker
  | false, false, false, true => responseWriterPusher
  | true, false, false, true => responseWriterCloseNotifierPusher
  | false, true, false, true => responseWriterFlusherPusher
  | true, true, false, true => responseWriterCloseNotifierFlusherPusher
  | false, false, true, true => responseWriterHijackerPusher
  | true, false, true, true => responseWriterCloseNotifierHijackerPusher
  | false, true, true, true => responseWriterFlusherHijackerPusher
  | true, true, true, true => responseWriterCloseNotifierFlusherHijackerPusher
  end.

(** The two capability sets on which the wrapper's answer for [Pusher] is
    wrong. *)
Definition pusher_mismatch (caps : Capability -> bool) : bool :=
  caps CloseNotifier && caps Flusher && xorb (caps Hijacker) (caps Pusher).

(** The byte counts the sink itself reports when it receives the calls. *)
Fixpoint sink_counts {U} (rw : Sink U) (cs : list Call) : list Z :=
  match cs with
  | [] => []
  | CallWrite p :: cs' =>
      let '(u, (n, _)) := sink_Write rw (sink_state rw) p in
      n :: sink_counts (with_state rw u) cs'
  | CallWriteHeader c :: cs' =>
      sink_counts (with_state rw (sink_WriteHeader rw (sink_state rw) c)) cs'
  end.

(** A sink that accepts at most three bytes of each write and reports an
    error when it drops some. *)
Definition short_sink : Sink unit :=
  {| sink_state := tt;
     sink_Write := fun u p =>
       (u, (Z.of_nat (Nat.min 3 (length p)),
            if (3 <? length p)%nat then Some "short write" else None));
     sink_WriteHeader := fun u _ => u;
     sink_Hijack := fun u => (u, None);
     sink_implements := caps_of [] |}.

(** Every character of the string satisfies [p]. *)
Fixpoint string_forall (p : ascii -> bool) (s : string) : bool :=
  match s with
  | EmptyString => true
  | String c s' => p c && string_forall p s'
  end.

(** A name as the parser accepts it: not empty, without ['='] and [';']. *)
Definition plain_name (k : string) : bool :=
  negb (k =? "") && string_forall (fun c => negb (is_eq_or_semi c)) k.

(** An unquoted value: not empty, not opening with a double quote, without
    [';']. *)
Definition plain_value (v : string) : bool :=
  match v with
  | EmptyString => false
  | String c _ => negb (is_quote c)
  end && string_forall (fun c => negb (is_semi c)) v.

(** The key under which a name is stored. *)
Definition key_of `{GoLib} (ci : bool) (name : string) : string :=
  if ci then ToLower name else name.

(** ['name=value'] *)
Definition render_pair (kv : string * string) : string :=
  fst kv +:+ "=" +:+ snd kv.

Definition plain_pair (kv : string * string) : bool :=
  plain_name (fst kv) && plain_value (snd kv).

(** The map after storing the pairs in order, as [pairs[name] = value]
    does. *)
Definition store_all `{GoLib} (ci : bool) (m : gmap string string)
    (kvs : list (string * string)) : gmap string string :=
  foldl (fun m kv => <[key_of ci (fst kv) := snd kv]> m) m kvs.

Definition ascii_lower (c : ascii) : ascii :=
  let n := nat_of_ascii c in
  if (65 <=? n)%nat && (n <=? 90)%nat then ascii_of_nat (n + 32) else c.

Fixpoint map_string (f : ascii -> ascii) (s : string) : string :=
  match s with
  | EmptyString => EmptyString
  | String c s' => String (f c) (map_string f s')
  end.

Definition is_ascii_space (c : ascii) : bool :=
  let n := nat_of_ascii c in
  ((9 <=? n)%nat && (n <=? 13)%nat) || (n =? 32)%nat.

Fixpoint trim_left (s : string) : string :=
  match s with
  | EmptyString => EmptyString
  | String c s' => if is_ascii_space c then trim_left s' else s
  end.

Fixpoint trim_right (s : string) : string :=
  match s with
  | EmptyString => EmptyString
  | String c s' =>
      match trim_right s' with
      | EmptyString => if is_ascii_space c then EmptyString else String c EmptyString
      | t => String c t
      end
  end.

(** A URL with a path and a query only. *)
Record simple_url := { su_path : string; su_query : string }.

(** An instance of the library for ASCII text, canonical header keys, URLs
    made of a path and a query, and durations that are a whole number of
    the unit; times are shown as their number and the layout. *)
Definition example_lib : GoLib :=
  {| Time := Z;
     Time_Format := fun t layout => pretty t +:+ "@" +:+ layout;
     URL := simple_url;
     URL_Path := su_path;
     URL_RawQuery := su_query;
     URL_String := fun u =>
       if su_query u =? "" then su_path u else su_path u +:+ "?" +:+ su_query u;
     ToLower := map_string ascii_lower;
     TrimSpace := fun s => trim_right (trim_left s);
     CanonicalHeaderKey := fun k => k;
     FormatFloat_ratio := fun d u => pretty (d / u)%Z;
     FormatFloat_Seconds := fun d => pretty (d / 1000000000)%Z |}.

(** The six error messages of [ParsePairs], at position [n]. *)
Definition ParsePairs_errors (n : Z) : list error :=
  [ "empty attribute name at " +:+ FormatInt n;
    "no '=' before end of string";
    "found unexpected ';' at " +:+ FormatInt n;
    "trailing data after quoted string at " +:+ FormatInt n;
    "empty attribute value at " +:+ FormatInt n;
    "trailing ';' at " +:+ FormatInt n ].

(** The record of the examples: GET /x over HTTP/1.1, status 200, 34 bytes,
    no user, with the given request headers. *)
Definition example_request (h : Header) : Request (H := example_lib) :=
  let _ : GoLib := example_lib in
  {| Method := "GET";
     URI := "/x";
     Request_URL := Some {| su_path := "/x"; su_query := "" |};
     Proto := "HTTP/1.1";
     Request_Header := h;
     ContentLength := 0;
     Host := "example.org";
     RemoteAddr := "192.0.2.1:4711";
     User := "" |}.

Definition example_record (h : Header) : LogRecord (H := example_lib) :=
  let _ : GoLib := example_lib in
  {| Record_Request := example_request h;
     Record_Response :=
       {| Response_Status := 200; Response_Size := 34;
          Response_Hijacked := false; Response_Header := ∅ |};
     StartTime := 0%Z;
     EndTime := 1%Z;
     Duration := 1000000000 |}.

(** The [for] attribute a Forwarded value contributes: that of a value
    which parses without error to a map with a non-empty [for]. *)
Definition for_attribute `{GoLib} (v : string) : option string :=
  match ParsePairs v true with
  | Return (Some m, None) =>
      match m !! "for" with
      | Some f => if f =? "" then None else Some f
      | None => None
      end
  | _ => None
  end.

(** The first element of the list on which [f] answers. *)
Fixpoint first_answer {A B} (f : A -> option B) (l : list A) : option B :=
  match l with
  | [] => None
  | x :: l' => match f x with Some y => Some y | None => first_answer f l' end
  end.

(** The text before the first comma. *)
Fixpoint before_comma (s : string) : string :=
  match s with
  | EmptyString => EmptyString
  | String c rest => if (c =? ",")%char then EmptyString else String c (before_comma rest)
  end.

(** Client-address resolution as the specification words it, with an empty
    identifier counting as none. *)
Definition resolve_client `{GoLib} (r : Request) : string :=
  match first_answer for_attribute (header_values (Request_Header r) "Forwarded") with
  | Some f => f
  | None =>
      match header_values (Request_Header r) "X-Forwarded-For" with
      | v :: _ =>
          if TrimSpace (before_comma v) =? "" then RemoteAddr r
          else TrimSpace (before_comma v)
      | [] => RemoteAddr r
      end
  end.

(** The lookups of a record that [Format] relies on: the URL is set,
    [ClientAddr] returns, and the Cookie header does not make [ParsePairs]
    panic. *)
Definition lookups_return `{GoLib} (r : LogRecord) : Prop :=
  (exists u, Request_URL (Record_Request r) = Some u)
  /\ (exists a, ClientAddr (Record_Request r) = Return a)
  /\ (exists ret,
        ParsePairs (Header_Get (Request_Header (Record_Request r)) "Cookie") false
        = Return ret).

(** The plain pairs, each followed by [';']. *)
Fixpoint render_prefix (kvs : list (string * string)) : string :=
  match kvs with
  | [] => ""
  | kv :: rest => render_pair kv +:+ ";" +:+ render_prefix rest
  end.

(** The map after the pairs of a prefix: still nil when there are none. *)
Definition store_prefix `{GoLib} (ci : bool) (pairs : pairs_map)
    (kvs : list (string * string)) : pairs_map :=
  match kvs with
  | [] => pairs
  | _ => Some (store_all ci (default ∅ pairs) kvs)
  end.

(** The characters that select a directive after ['%']. *)
Definition known_directive (d : ascii) : bool :=
  existsb (Ascii.eqb d)
    ["%"; "B"; "D"; "H"; "T"; "U"; "a"; "m"; "q"; "r"; "s"; "t"; "u"; "v"; "{"]%char.

(** The duration units of [%{UNIT}T]. *)
Definition known_unit (key : string) : bool :=
  (key =? "ms") || (key =? "us") || (key =? "s").

(** * More of the package *)

(** ** The wrapper: [Flush], [Push] and the calls as the sink sees them *)

(** The body shared by the eight [Flush] methods:
    [r.responseWriter.responseWriter.(http.Flusher).Flush()].  [flush] is
    the behaviour of the sink's own [Flush]. *)
Definition Flush_body {U} (flush : U -> U) (r : responseWriter U)
  : responseWriter U * outcome unit :=
  if sink_implements (rw_responseWriter r) Flusher then
    ({| rw_responseWriter :=
          with_state (rw_responseWriter r)
            (flush (sink_state (rw_responseWriter r)));
        status := status r;
        size := size r;
        hijacked := hijacked r |},
     Return tt)
  else (r, Panics).

(** The body shared by the eight [Push] methods:
    [return r.responseWriter.responseWriter.(http.Pusher).Push(target, opts)].
    [push] is the behaviour of the sink's own [Push] with the given
    options. *)
Definition Push_body {U} (push : U -> string -> U * option error)
    (r : responseWriter U) (target : string)
  : responseWriter U * outcome (option error) :=
  if sink_implements (rw_responseWriter r) Pusher then
    let '(u, err) := push (sink_state (rw_responseWriter r)) target in
    ({| rw_responseWriter := with_state (rw_responseWriter r) u;
        status := status r;
        size := size r;
        hijacked := hijacked r |},
     Return err)
  else (r, Panics).

(** Calling [Flush] or [Push] on a wrapper: possible only when the method is
    in the method set of its type. *)
Definition Flush {U} (flush : U -> U) (w : Wrapper U)
  : option (Wrapper U * outcome unit) :=
  if has_method (shape w) MFlush then
    let '(r, res) := Flush_body flush (target w) in
    Some ({| shape := shape w; target := r |}, res)
  else None.

Definition Push {U} (push : U -> string -> U * option error)
    (w : Wrapper U) (target_url : string)
  : option (Wrapper U * outcome (option error)) :=
  if has_method (shape w) MPush then
    let '(r, res) := Push_body push (target w) target_url in
    Some ({| shape := shape w; target := r |}, res)
  else None.

(** Running a sequence of calls on the wrapper, collecting what each
    [Write] returned to its caller. *)
Fixpoint run_results {U} (r : responseWriter U) (cs : list Call)
  : responseWriter U * list (Z * option error) :=
  match cs with
  | [] => (r, [])
  | CallWrite p :: cs' =>
      let '(r1, res) := Write r p in
      let '(r2, rs) := run_results r1 cs' in
      (r2, res :: rs)
  | CallWriteHeader c :: cs' => run_results (WriteHeader r c) cs'
  end.

(** The same calls made on the sink itself, without a wrapper. *)
Fixpoint sink_run {U} (rw : Sink U) (cs : list Call)
  : Sink U * list (Z * option error) :=
  match cs with
  | [] => (rw, [])
  | CallWrite p :: cs' =>
      let '(u, res) := sink_Write rw (sink_state rw) p in
      let '(rw2, rs) := sink_run (with_state rw u) cs' in
      (rw2, res :: rs)
  | CallWriteHeader c :: cs' =>
      sink_run (with_state rw (sink_WriteHeader rw (sink_state rw) c)) cs'
  end.

(** A sink with all four optional interfaces but [Pusher], as the response
    writer of an HTTP/1.x server has. *)
Definition http1_sink : Sink unit :=
  plain_sink [CloseNotifier; Flusher; Hijacker].

(** ** ParsePairs: texts made of pairs *)

(** A pair as it is written: its name, its value, and whether the value
    stands between double quotes. *)
Record item := { item_name : string; item_value : string; item_quoted : bool }.

(** The value of a quoted pair that the parser reads back: at least one
    character, and no double quote after the first. *)
Definition quoted_value (v : string) : bool :=
  match v with
  | EmptyString => false
  | String _ rest => string_forall (fun c => negb (is_quote c)) rest
  end.

Definition item_ok (it : item) : bool :=
  plain_name (item_name it)
  && (if item_quoted it then quoted_value (item_value it)
      else plain_value (item_value it)).

(** ['name=value'] or ['name="value"'] *)
Definition render_item (it : item) : string :=
  item_name it +:+ "="
  +:+ (if item_quoted it then dq +:+ item_value it +:+ dq else item_value it).

(** The items, each followed by [';']. *)
Fixpoint render_items (its : list item) : string :=
  match its with
  | [] => ""
  | it :: rest => render_item it +:+ ";" +:+ render_items rest
  end.

(** The map after storing the items in order. *)
Definition store_items `{GoLib} (ci : bool) (m : gmap string string)
    (its : list item) : gmap string string :=
  foldl (fun m it => <[key_of ci (item_name it) := item_value it]> m) m its.

(** The map after the items of a prefix: still nil when there are none. *)
Definition store_items_prefix `{GoLib} (ci : bool) (pairs : pairs_map)
    (its : list item) : pairs_map :=
  match its with
  | [] => pairs
  | _ => Some (store_items ci (default ∅ pairs) its)
  end.

(** The error of a call, or its panic, without the map. *)
Definition error_of {A} (o : outcome (A * option error)) : outcome (option error) :=
  match o with
  | Return (_, err) => Return err
  | Panics => Panics
  end.

(** The keys of a possibly nil map. *)
Definition keys_of (m : pairs_map) : gset string :=
  match m with
  | Some g => dom g
  | None => ∅
  end.

(** The tail after a pair: the end of the text, or [';'] and more text. *)
Definition more_follows (tail : string) : Prop :=
  tail = "" \/ exists t, tail = String ";" t /\ t <> "".

(** What holds of the entries of a map: values are not empty, and without
    case folding names are as the parser reads them. *)
Definition entries_ok (ci : bool) (m : pairs_map) : Prop :=
  forall g k v, m = Some g -> g !! k = Some v ->
                v <> "" /\ (ci = false -> plain_name k = true).

(** A map that is not nil and holds an entry. *)
Definition nonempty_map (m : pairs_map) : Prop :=
  exists g, m = Some g /\ g <> ∅.

(** Two outcomes of the loop body, with and without case folding, on maps
    whose keys are related by [ToLower]. *)
Definition same_step `{GoLib} (o1 o2 : outcome iteration) : Prop :=
  match o1, o2 with
  | Return (Next s1 q1), Return (Next s2 q2) =>
      s1 = s2 /\ keys_of q1 = set_map ToLower (keys_of q2)
  | Return (Done r1), Return (Done r2) => r1 = r2 /\ fst r1 = None
  | Panics, Panics => True
  | _, _ => False
  end.

(** Two outcomes of [ParsePairs], with and without case folding. *)
Definition same_result `{GoLib} (o1 o2 : outcome (pairs_map * option error))
  : Prop :=
  match o1, o2 with
  | Return (m1, e1), Return (m2, e2) =>
      e1 = e2 /\ (e1 = None -> keys_of m1 = set_map ToLower (keys_of m2))
  | Panics, Panics => True
  | _, _ => False
  end.

(** ** Format: templates *)

(** A step of [Format] seen from a template that has [n] more characters
    in front. *)
Definition step_shift (n : nat) (st : format_step) : format_step :=
  match st with
  | Continue i b => Continue (n + i) b
  | Finished s => Finished s
  end.

(** A step of [Format] started with [b0] already in the builder. *)
Definition step_prepend (b0 : string) (st : format_step) : format_step :=
  match st with
  | Continue i b => Continue i (b0 +:+ b)
  | Finished s => Finished (b0 +:+ s)
  end.

(** The rendering of two templates, one after the other. *)
Definition render_then (o1 o2 : outcome string) : outcome string :=
  do x <- o1; do y <- o2; Return (x +:+ y).

(** Templates made of whole tokens: literal characters other than ['%'],
    directives of one character, and directives with a key in braces.  A
    lone ['%'] at the end and a brace that is not closed or has no letter
    after it are left out. *)
Inductive complete : string -> Prop :=
| complete_end : complete ""
| complete_literal (c : ascii) (s : string) :
    c <> "%"%char -> complete s -> complete (String c s)
| complete_directive (d : ascii) (s : string) :
    d <> "{"%char -> complete s -> complete ("%" +:+ String d s)
| complete_braces (key : string) (d : ascii) (s : string) :
    string_forall (fun c => negb (is_close_brace c)) key = true ->
    complete s -> complete ("%{" +:+ key +:+ "}" +:+ String d s).

(** The text with every ['%'] doubled. *)
Fixpoint escape (t : string) : string :=
  match t with
  | EmptyString => EmptyString
  | String c t' =>
      if (c =? "%")%char then String c (String c (escape t'))
      else String c (escape t')
  end.

(** Where a reader of a template stands: in literal text, behind a ['%'],
    inside the braces of a key, or behind the closing brace. *)
Inductive template_state := InText | AfterPercent | InKey | AfterKey.

Definition template_next (st : template_state) (c : ascii) : template_state :=
  match st with
  | InText => if (c =? "%")%char then AfterPercent else InText
  | AfterPercent => if (c =? "{")%char then InKey else InText
  | InKey => if is_close_brace c then AfterKey else InKey
  | AfterKey => InText
  end.

Fixpoint template_run (st : template_state) (s : string) : template_state :=
  match s with
  | EmptyString => st
  | String c s' => template_run (template_next st c) s'
  end.

(** The template ends outside of a directive: it is made of whole tokens. *)
Definition whole_tokens (s : string) : bool :=
  match template_run InText s with
  | InText => true
  | _ => false
  end.

(** The letters of the directives with a key in braces. *)
Definition known_key_directive (d : ascii) : bool :=
  existsb (Ascii.eqb d) ["C"; "T"; "i"; "o"; "t"]%char.

(** A key as the scan for the closing brace delimits it. *)
Definition brace_free (key : string) : bool :=
  string_forall (fun c => negb (is_close_brace c)) key.

(** * Properties *)

(** ** The wrapper: capabilities *)

Lemma wrap_index_in_range {U} (rw : Sink U) :
  (0 <= wrap_index rw < 16)%Z.
Proof.
  unfold wrap_index.
  destruct (sink_implements rw CloseNotifier), (sink_implements rw Flusher),
    (sink_implements rw Hijacker), (sink_implements rw Pusher);
    vm_compute; split; congruence.
Qed.

(** [WrapResponseWriter] never panics; it returns a fresh [responseWriter]
    under the type that carries the names of the sink's interfaces. *)
Lemma WrapResponseWriter_returns {U} (rw : Sink U) :
  WrapResponseWriter rw =
  Return {| shape := chosen_shape (sink_implements rw CloseNotifier)
                       (sink_implements rw Flusher)
                       (sink_implements rw Hijacker)
                       (sink_implements rw Pusher);
            target := new_responseWriter rw |}.
Proof.
  unfold WrapResponseWriter, wrap_index.
  destruct (sink_implements rw CloseNotifier), (sink_implements rw Flusher),
    (sink_implements rw Hijacker), (sink_implements rw Pusher); reflexivity.
Qed.

(** Outside the [Pusher] assertion on those two sets, the wrapper answers
    every type assertion as the sink does. *)
Lemma WrapResponseWriter_fidelity_elsewhere {U} (rw : Sink U) (c : Capability) :
  c <> Pusher \/ pusher_mismatch (sink_implements rw) = false ->
  (do w <- WrapResponseWriter rw; Return (wrapper_implements w c))
  = Return (sink_implements rw c).
Proof.
  rewrite WrapResponseWriter_returns. unfold pusher_mismatch, wrapper_implements.
  cbn [bind shape].
  intros Hc.
  destruct (sink_implements rw CloseNotifier) eqn:E1,
    (sink_implements rw Flusher) eqn:E2,
    (sink_implements rw Hijacker) eqn:E3,
    (sink_implements rw Pusher) eqn:E4;
    destruct c; rewrite ?E1, ?E2, ?E3, ?E4; try reflexivity;
    destruct Hc as [Hc | Hc]; try congruence; discriminate Hc.
Qed.

(** C1: the wrapper does not expose exactly the capabilities of the sink
    on two of the sixteen sets.  Over a sink that implements CloseNotifier,
    Flusher and Pusher the wrapper does not implement Pusher, and over a
    sink that implements CloseNotifier, Flusher and Hijacker but not Pusher
    the wrapper does implement Pusher: the [Push] method of lines 311-315 is
    declared on [responseWriterCloseNotifierFlusherHijacker] instead of
    [responseWriterCloseNotifierFlusherPusher]. *)
Theorem WrapResponseWriter_Pusher_misadvertised {U} (rw : Sink U) :
  let under := with_caps rw (caps_of [CloseNotifier; Flusher; Pusher]) in
  let over := with_caps rw (caps_of [CloseNotifier; Flusher; Hijacker]) in
  sink_implements under Pusher = true /\
  (do w <- WrapResponseWriter under; Return (wrapper_implements w Pusher))
  = Return false /\
  sink_implements over Pusher = false /\
  (do w <- WrapResponseWriter over; Return (wrapper_implements w Pusher))
  = Return true.
Proof.
  cbv zeta. rewrite !WrapResponseWriter_returns. repeat split.
Qed.

(** ** The wrapper: status, size, hijacked *)

Lemma default_last_cons {A} (d x : A) (l : list A) :
  default d (last (x :: l)) = default x (last l).
Proof. rewrite last_cons. destruct (last l); reflexivity. Qed.

Lemma status_run {U} (cs : list Call) : forall r : responseWriter U,
  status (fst (run r cs)) = default (status r) (last (header_codes cs)).
Proof.
  induction cs as [|c cs IH]; intros r; [reflexivity|].
  destruct c as [p|s]; cbn [run].
  - unfold Write. destruct (sink_Write _ _ _) as [u [n err]].
    specialize (IH {| rw_responseWriter := with_state (rw_responseWriter r) u;
                      status := status r;
                      size := wrap64 (size r + n);
                      hijacked := hijacked r |}).
    destruct (run _ cs) as [r2 ns]. exact IH.
  - rewrite IH. cbn [WriteHeader status].
    change (header_codes (CallWriteHeader s :: cs)) with (s :: header_codes cs).
    symmetry. apply default_last_cons.
Qed.

(** C2, amended to what the code does: after any sequence of calls on a
    fresh wrapper, [Status()] is 200 if [WriteHeader] was never called, and
    otherwise it is the code passed to the most recent [WriteHeader] call
    (200 when that code is 0): a later call replaces the recorded value. *)
Theorem Status_is_last_WriteHeader {U} (rw : Sink U) (cs : list Call) :
  (do w <- WrapResponseWriter rw; Return (Status (fst (run (target w) cs))))
  = Return (match last (header_codes cs) with
            | None => 200%Z
            | Some c => if (c =? 0)%Z then 200%Z else c
            end).
Proof.
  rewrite WrapResponseWriter_returns. cbn [bind target]. f_equal.
  unfold Status. rewrite status_run.
  destruct (last (header_codes cs)); reflexivity.
Qed.

(** C2, as stated, fails: after [WriteHeader(404)] then [WriteHeader(500)]
    the recorded status is 500, not the first code 404. *)
Lemma Status_first_WriteHeader_not_kept :
  let observed :=
    do w <- WrapResponseWriter (plain_sink []);
    Return (Status (fst (run (target w)
                           [CallWriteHeader 404; CallWriteHeader 500]))) in
  observed = Return 500%Z /\ observed <> Return 404%Z.
Proof. split; [reflexivity | discriminate]. Qed.

Lemma wrap64_add_l (a b : Z) : wrap64 (wrap64 a + b) = wrap64 (a + b).
Proof.
  unfold wrap64. f_equal.
  replace ((a + 2 ^ 63) mod 2 ^ 64 - 2 ^ 63 + b + 2 ^ 63)%Z
    with ((a + 2 ^ 63) mod 2 ^ 64 + b)%Z by lia.
  rewrite Zplus_mod_idemp_l. f_equal. lia.
Qed.

Lemma wrap64_small (a : Z) : (- 2 ^ 63 <= a < 2 ^ 63)%Z -> wrap64 a = a.
Proof. intros Ha. unfold wrap64. rewrite Z.mod_small; lia. Qed.

Lemma wrap64_idemp (a : Z) : wrap64 (wrap64 a) = wrap64 a.
Proof.
  unfold wrap64. f_equal.
  replace ((a + 2 ^ 63) mod 2 ^ 64 - 2 ^ 63 + 2 ^ 63)%Z
    with ((a + 2 ^ 63) mod 2 ^ 64)%Z by lia.
  apply Zmod_mod.
Qed.

Lemma run_counts {U} (cs : list Call) : forall r : responseWriter U,
  snd (run r cs) = sink_counts (rw_responseWriter r) cs.
Proof.
  induction cs as [|c cs IH]; intros r; [reflexivity|].
  destruct c as [p|s]; cbn [run sink_counts].
  - unfold Write. destruct (sink_Write _ _ _) as [u [n err]].
    specialize (IH {| rw_responseWriter := with_state (rw_responseWriter r) u;
                      status := status r;
                      size := wrap64 (size r + n);
                      hijacked := hijacked r |}).
    destruct (run _ cs) as [r2 ns]. cbn in *. by rewrite IH.
  - apply IH.
Qed.

Lemma size_run {U} (cs : list Call) : forall r : responseWriter U,
  wrap64 (size r) = size r ->
  size (fst (run r cs)) = wrap64 (size r + sum_Z (snd (run r cs))).
Proof.
  induction cs as [|c cs IH]; intros r Hr.
  - cbn. by rewrite Z.add_0_r.
  - destruct c as [p|s]; cbn [run].
    + unfold Write. destruct (sink_Write _ _ _) as [u [n err]].
      specialize (IH {| rw_responseWriter := with_state (rw_responseWriter r) u;
                        status := status r;
                        size := wrap64 (size r + n);
                        hijacked := hijacked r |}).
      destruct (run _ cs) as [r2 ns]. cbn in *.
      rewrite IH by apply wrap64_idemp.
      rewrite wrap64_add_l. f_equal. lia.
    + apply (IH (WriteHeader r s)). exact Hr.
Qed.

(** C3: after any sequence of calls on a fresh wrapper, [Size()] is the
    sum of the byte counts the underlying sink returned from its [Write]
    calls, whatever was requested and whatever errors came with them: the
    sum in int64 arithmetic, which is the exact sum whenever that fits an
    int64. *)
Theorem Size_is_sum_of_accepted {U} (rw : Sink U) (cs : list Call) :
  (do w <- WrapResponseWriter rw; Return (Size (fst (run (target w) cs))))
  = Return (wrap64 (sum_Z (sink_counts rw cs)))
  /\ ((- 2 ^ 63 <= sum_Z (sink_counts rw cs) < 2 ^ 63)%Z ->
      (do w <- WrapResponseWriter rw; Return (Size (fst (run (target w) cs))))
      = Return (sum_Z (sink_counts rw cs))).
Proof.
  rewrite WrapResponseWriter_returns. cbn [bind target]. unfold Size.
  rewrite size_run by reflexivity. rewrite run_counts.
  cbn [new_responseWriter rw_responseWriter size]. rewrite Z.add_0_l.
  split; [reflexivity|]. intros Hs. by rewrite wrap64_small.
Qed.

Lemma Size_is_sum_of_accepted_witness :
  let cs := [CallWrite [x01; x02; x03; x04; x05]%byte; CallWriteHeader 200;
             CallWrite [x01]%byte] in
  sink_counts short_sink cs = [3; 1]%Z /\
  (do w <- WrapResponseWriter short_sink;
   Return (Size (fst (run (target w) cs))))
  = Return 4%Z.
Proof.
  split; [reflexivity|].
  apply (Size_is_sum_of_accepted short_sink). vm_compute. split; congruence.
Defined.

(** C4: on every wrapper whose type has the [Hijack] method, the call
    leaves [Hijacked()] true whatever the underlying call does: when the
    sink implements Hijacker its result, error included, is passed on, and
    when the type assertion panics the flag is set all the same. *)
Theorem Hijack_sets_hijacked {U} (w : Wrapper U) :
  has_method (shape w) MHijack = true ->
  exists w' res,
    Hijack w = Some (w', res) /\
    Hijacked (target w') = true /\
    res = (if sink_implements (rw_responseWriter (target w)) Hijacker
           then Return (snd (sink_Hijack (rw_responseWriter (target w))
                               (sink_state (rw_responseWriter (target w)))))
           else Panics).
Proof.
  intros Hm. unfold Hijack, Hijack_body. rewrite Hm. cbn.
  destruct (sink_implements _ Hijacker).
  - destruct (sink_Hijack _ _) as [u err]. eexists _, _. repeat split.
  - eexists _, _. repeat split.
Qed.

Lemma Hijack_sets_hijacked_witness :
  exists w w',
    WrapResponseWriter (plain_sink [Hijacker]) = Return w /\
    Hijack w = Some (w', Return (Some "hijack failed")) /\
    Hijacked (target w') = true.
Proof.
  eexists _.
  destruct (Hijack_sets_hijacked
              {| shape := responseWriterHijacker;
                 target := new_responseWriter (plain_sink [Hijacker]) |}
              eq_refl) as (w' & res & H1 & H2 & H3).
  exists w'. split; [reflexivity|]. split; [|exact H2].
  rewrite H1, H3. reflexivity.
Defined.

(** ** Go strings: indexing and slicing of concatenations *)

Lemma app_cons (c : ascii) (a b : string) :
  String c a +:+ b = String c (a +:+ b).
Proof. reflexivity. Qed.

Lemma length_cons (c : ascii) (a : string) :
  String.length (String c a) = S (String.length a).
Proof. reflexivity. Qed.

Lemma length_app (a b : string) :
  String.length (a +:+ b) = String.length a + String.length b.
Proof.
  induction a as [|c a IH]; [reflexivity|].
  rewrite app_cons, !length_cons, IH. reflexivity.
Qed.

Lemma app_assoc_s (a b c : string) : (a +:+ b) +:+ c = a +:+ b +:+ c.
Proof.
  induction a as [|x a IH]; [reflexivity|]. rewrite !app_cons. by f_equal.
Qed.

Lemma app_empty_r (a : string) : a +:+ "" = a.
Proof.
  induction a as [|x a IH]; [reflexivity|]. rewrite app_cons. by f_equal.
Qed.

Lemma get_app_l (a b : string) (i : nat) :
  i < String.length a -> String.get i (a +:+ b) = String.get i a.
Proof. intros Hi. symmetry. by apply append_correct1. Qed.

Lemma get_app_r (a b : string) (i : nat) :
  String.get (String.length a + i) (a +:+ b) = String.get i b.
Proof. rewrite Nat.add_comm. symmetry. apply append_correct2. Qed.

Lemma get_lt_length (s : string) (i : nat) :
  i < String.length s <-> is_Some (String.get i s).
Proof.
  revert i. induction s as [|c s IH]; intros i.
  - split; [cbn; lia | intros [? ?]; discriminate].
  - rewrite length_cons. destruct i as [|i].
    + split; [intros _; by exists c | lia].
    + change (String.get (S i) (String c s)) with (String.get i s).
      rewrite <- IH. lia.
Qed.

Lemma get_ge_length (s : string) (i : nat) :
  String.length s <= i -> String.get i s = None.
Proof.
  intros Hi. destruct (String.get i s) eqn:E; [|reflexivity].
  assert (i < String.length s) by (apply get_lt_length; eauto). lia.
Qed.

Lemma substring_0_app (a b : string) :
  String.substring 0 (String.length a) (a +:+ b) = a.
Proof.
  induction a as [|c a IH]; [by destruct b|].
  rewrite app_cons, length_cons.
  change (String.substring 0 (S (String.length a)) (String c (a +:+ b)))
    with (String c (String.substring 0 (String.length a) (a +:+ b))).
  by f_equal.
Qed.

Lemma substring_skip (a b : string) (n : nat) :
  String.substring (String.length a) n (a +:+ b) = String.substring 0 n b.
Proof. induction a as [|c a IH]; [reflexivity | exact IH]. Qed.

(** The slice of the middle part of a concatenation. *)
Lemma slice_middle (a m b : string) :
  slice (a +:+ m +:+ b) (String.length a) (String.length a + String.length m)
  = Return m.
Proof.
  unfold slice. rewrite !length_app.
  replace (String.length a + String.length m - String.length a)
    with (String.length m) by lia.
  rewrite substring_skip, substring_0_app.
  destruct (Nat.leb_spec (String.length a) (String.length a + String.length m));
    [|lia].
  destruct (Nat.leb_spec (String.length a + String.length m)
              (String.length a + (String.length m + String.length b)));
    [reflexivity | lia].
Qed.

Lemma string_forall_get (p : ascii -> bool) (s : string) (i : nat) (c : ascii) :
  string_forall p s = true -> String.get i s = Some c -> p c = true.
Proof.
  revert i. induction s as [|x s IH]; intros i Hall Hget; [discriminate|].
  apply andb_true_iff in Hall as [Hx Hs].
  destruct i as [|i]; [by inversion Hget; subst | exact (IH i Hs Hget)].
Qed.

(** ** The scanning loop *)

Lemma scan_loop_spec (stop : ascii -> bool) (text : string) (j : nat) :
  forall fuel i,
    i <= j -> j <= i + fuel ->
    (forall k c, i <= k < j -> String.get k text = Some c -> stop c = false) ->
    j <= String.length text ->
    (j = i + fuel \/ exists c, String.get j text = Some c /\ stop c = true) ->
    scan_loop stop text fuel i = j.
Proof.
  induction fuel as [|fuel IH]; intros i Hij Hfuel Hbefore Hlen Hstop.
  - cbn. lia.
  - cbn. destruct (String.get i text) as [c|] eqn:Hget.
    + destruct (stop c) eqn:Hc.
      * destruct (decide (i = j)) as [|Hne]; [done|].
        rewrite (Hbefore i c) in Hc; [discriminate | lia | done].
      * destruct (decide (i = j)) as [->|Hne].
        { destruct Hstop as [? | (c' & Hc' & Hs)]; [lia|]. congruence. }
        apply IH; [lia | lia | | done | ].
        -- intros k c' Hk. apply Hbefore. lia.
        -- destruct Hstop as [? | ?]; [left; lia | by right].
    + assert (String.length text <= i).
      { destruct (Nat.le_gt_cases (String.length text) i) as [|Hlt]; [done|].
        apply get_lt_length in Hlt as [? ?]. congruence. }
      lia.
Qed.

(** The scanning loop ends only where its condition is false: at the end
    of the text or on a stop character. *)
Lemma scan_loop_exit (stop : ascii -> bool) (text : string) :
  forall fuel i,
    String.length text - i <= fuel ->
    String.length text <= scan_loop stop text fuel i
    \/ exists c, String.get (scan_loop stop text fuel i) text = Some c
                 /\ stop c = true.
Proof.
  induction fuel as [|fuel IH]; intros i Hfuel; cbn [scan_loop].
  - left. lia.
  - destruct (String.get i text) as [c|] eqn:Hget.
    + destruct (stop c) eqn:Hc; [right; by exists c|].
      apply IH. lia.
    + left. destruct (Nat.le_gt_cases (String.length text) i) as [|Hlt]; [done|].
      apply get_lt_length in Hlt as [? ?]. congruence.
Qed.

Lemma scan_exit (stop : ascii -> bool) (text : string) (i : nat) :
  String.length text <= scan stop text i
  \/ exists c, String.get (scan stop text i) text = Some c /\ stop c = true.
Proof. apply scan_loop_exit. lia. Qed.

Lemma scan_app (stop : ascii -> bool) (a m b : string) :
  string_forall (fun c => negb (stop c)) m = true ->
  (b = "" \/ exists c b', b = String c b' /\ stop c = true) ->
  scan stop (a +:+ m +:+ b) (String.length a)
  = String.length a + String.length m.
Proof.
  intros Hm Hb. unfold scan. apply scan_loop_spec.
  - lia.
  - rewrite !length_app. lia.
  - intros k c Hk Hget.
    replace k with (String.length a + (k - String.length a)) in Hget by lia.
    rewrite get_app_r, get_app_l in Hget by lia.
    apply (string_forall_get _ _ _ _ Hm) in Hget.
    by apply negb_true_iff in Hget.
  - rewrite !length_app. lia.
  - destruct Hb as [-> | (c & b' & -> & Hc)].
    + left. rewrite !length_app. cbn. lia.
    + right. exists c. split; [|done].
      rewrite <- app_assoc_s, <- length_app.
      rewrite <- (Nat.add_0_r (String.length (a +:+ m))).
      by rewrite get_app_r.
Qed.

Lemma index_app (a : string) (c : ascii) (b : string) :
  index (a +:+ String c b) (String.length a) = Return c.
Proof.
  unfold index. rewrite <- (Nat.add_0_r (String.length a)).
  by rewrite get_app_r.
Qed.

Lemma in_range_and_app (p : ascii -> bool) (a : string) (c : ascii) (b : string) :
  in_range_and p (a +:+ String c b) (String.length a) = Return (p c).
Proof.
  unfold in_range_and. rewrite index_app, length_app, length_cons.
  destruct (Nat.ltb_spec (String.length a) (String.length a + S (String.length b)));
    [reflexivity | lia].
Qed.

(** ** ParsePairs on plain (unquoted) pairs *)

Ltac string_lengths :=
  repeat rewrite length_app in *;
  repeat rewrite length_cons in *;
  change (String.length "") with 0 in *.

Lemma length_pos (s : string) : s <> "" -> 0 < String.length s.
Proof. destruct s; [congruence | rewrite length_cons; lia]. Qed.

Lemma ParsePairs_iter_plain `{GoLib} (pre k v tail : string) (ci : bool)
    (pairs : pairs_map) :
  plain_name k = true -> plain_value v = true ->
  (tail = "" \/ exists t, tail = String ";" t /\ t <> "") ->
  ParsePairs_iter (pre +:+ k +:+ "=" +:+ v +:+ tail) ci (String.length pre) pairs
  = Return (Next (String.length pre + String.length k + 1 + String.length v + 1)
              (Some (<[key_of ci k := v]> (default ∅ pairs)))).
Proof.
  intros Hk Hv Htail.
  apply andb_true_iff in Hk as [Hk0 Hk]. apply negb_true_iff in Hk0.
  apply String.eqb_neq, length_pos in Hk0.
  apply andb_true_iff in Hv as [Hv0 Hv].
  destruct v as [|v0 v']; [discriminate|]. apply negb_true_iff in Hv0.
  set (text := pre +:+ k +:+ "=" +:+ String v0 v' +:+ tail).
  assert (Hlen : String.length text
                 = String.length pre + String.length k + 1
                   + S (String.length v') + String.length tail).
  { unfold text. rewrite !length_app, !length_cons. cbn. lia. }
  assert (Htl : String.length tail <> 1).
  { destruct Htail as [-> | (t & -> & Ht)]; [cbn; lia|].
    apply length_pos in Ht. rewrite length_cons. lia. }
  assert (Hne : scan is_eq_or_semi text (String.length pre)
                = String.length pre + String.length k).
  { unfold text. apply scan_app; [done|]. right. by eexists _, _. }
  assert (Htext2 : text = (pre +:+ k) +:+ String "=" (String v0 v' +:+ tail)).
  { unfold text. by rewrite app_assoc_s. }
  assert (Htext3 : text = (pre +:+ k +:+ "=") +:+ String v0 (v' +:+ tail)).
  { unfold text. by rewrite !app_assoc_s. }
  assert (Htext4 : text = (pre +:+ k +:+ "=") +:+ String v0 v' +:+ tail).
  { unfold text. by rewrite !app_assoc_s. }
  assert (Hl2 : String.length (pre +:+ k) = String.length pre + String.length k)
    by apply length_app.
  assert (Hl3 : String.length (pre +:+ k +:+ "=")
                = String.length pre + String.length k + 1).
  { rewrite !length_app. cbn. lia. }
  assert (Hve : scan is_semi text (String.length pre + String.length k + 1)
                = String.length pre + String.length k + 1 + S (String.length v')).
  { rewrite <- Hl3, Htext4. rewrite scan_app; [by rewrite length_cons | done |].
    destruct Htail as [-> | (t & -> & Ht)]; [by left | right; by eexists _, _]. }
  unfold ParsePairs_iter. fold text. rewrite Hne.
  destruct (Nat.eqb_spec (String.length pre + String.length k) (String.length pre));
    [lia|].
  destruct (Nat.eqb_spec (String.length pre + String.length k) (String.length text));
    [lia|].
  rewrite <- Hl2 at 1. rewrite Htext2 at 1. rewrite index_app. cbn [bind].
  change (is_semi "=") with false. cbv iota.
  rewrite <- Hl3 at 1. rewrite Htext3 at 1. rewrite in_range_and_app.
  cbn [bind]. rewrite Hv0. rewrite Hve.
  unfold ParsePairs_store.
  destruct (Nat.eqb_spec (String.length pre + String.length k + 1)
              (String.length pre + String.length k + 1 + S (String.length v')));
    [lia|].
  destruct (Nat.eqb_spec
              (String.length pre + String.length k + 1 + S (String.length v') + 1)
              (String.length text)); [lia|].
  assert (Hname : slice text (String.length pre)
                    (String.length pre + String.length k) = Return k).
  { unfold text. apply slice_middle. }
  assert (Hval : slice text (String.length pre + String.length k + 1)
                   (String.length pre + String.length k + 1 + S (String.length v'))
                 = Return (String v0 v')).
  { rewrite <- Hl3, Htext4. apply (slice_middle _ (String v0 v')). }
  rewrite Hname, Hval. cbn [bind]. rewrite length_cons.
  unfold key_of. destruct pairs, ci; reflexivity.
Qed.

Lemma scan_loop_ge (stop : ascii -> bool) (text : string) :
  forall fuel i, i <= scan_loop stop text fuel i.
Proof.
  induction fuel as [|fuel IH]; intros i; cbn; [lia|].
  destruct (String.get i text) as [c|]; [|lia].
  destruct (stop c); [lia|]. specialize (IH (S i)). lia.
Qed.

Lemma scan_ge (stop : ascii -> bool) (text : string) (i : nat) :
  i <= scan stop text i.
Proof. apply scan_loop_ge. Qed.

(** An iteration that goes on has advanced [s]. *)
Lemma ParsePairs_iter_advances `{GoLib} (text : string) (ci : bool) (s s' : nat)
    (pairs pairs' : pairs_map) :
  ParsePairs_iter text ci s pairs = Return (Next s' pairs') -> s < s'.
Proof.
  unfold ParsePairs_iter, ParsePairs_store, bind.
  pose proof (scan_ge is_eq_or_semi text s).
  pose proof (scan_ge is_semi text (scan is_eq_or_semi text s + 1)).
  pose proof (scan_ge is_quote text (scan is_eq_or_semi text s + 1 + 2)).
  intros Hit.
  repeat match type of Hit with
         | context [match ?x with _ => _ end] => destruct x eqn:?
         end; try discriminate; inversion Hit; subst; lia.
Qed.

Lemma ParsePairs_loop_S `{GoLib} (fuel : nat) (text : string) (ci : bool)
    (s : nat) (pairs : pairs_map) :
  ParsePairs_loop (S fuel) text ci s pairs =
  if (s <? String.length text)%nat then
    do it <- ParsePairs_iter text ci s pairs;
    match it with
    | Done ret => Return ret
    | Next s' pairs' => ParsePairs_loop fuel text ci s' pairs'
    end
  else Return (pairs, None).
Proof. reflexivity. Qed.

Lemma ParsePairs_loop_end `{GoLib} (fuel : nat) (text : string) (ci : bool)
    (s : nat) (pairs : pairs_map) :
  String.length text <= s ->
  ParsePairs_loop fuel text ci s pairs = Return (pairs, None).
Proof.
  intros Hs. destruct fuel as [|fuel]; [reflexivity|].
  rewrite ParsePairs_loop_S.
  destruct (Nat.ltb_spec s (String.length text)); [lia | reflexivity].
Qed.

(** The fuel of the loop does not matter once it covers the rest of the
    text. *)
Lemma ParsePairs_loop_fuel `{GoLib} (text : string) (ci : bool) :
  forall f1 f2 s pairs,
    String.length text - s <= f1 -> String.length text - s <= f2 ->
    ParsePairs_loop f1 text ci s pairs = ParsePairs_loop f2 text ci s pairs.
Proof.
  induction f1 as [|f1 IH]; intros f2 s pairs H1 H2.
  - rewrite !ParsePairs_loop_end by lia. reflexivity.
  - destruct (Nat.le_gt_cases (String.length text) s) as [Hge|Hlt].
    + rewrite !ParsePairs_loop_end by lia. reflexivity.
    + destruct f2 as [|f2]; [lia|]. rewrite !ParsePairs_loop_S.
      destruct (Nat.ltb_spec s (String.length text)); [|lia].
      destruct (ParsePairs_iter text ci s pairs) as [[s' pairs'|ret]|] eqn:Hit;
        cbn [bind]; try reflexivity.
      apply ParsePairs_iter_advances in Hit. apply IH; lia.
Qed.

Lemma render_pair_length (kv : string * string) :
  plain_pair kv = true -> 0 < String.length (render_pair kv).
Proof.
  intros Hkv. apply andb_true_iff in Hkv as [Hk _].
  apply andb_true_iff in Hk as [Hk _]. apply negb_true_iff in Hk.
  apply String.eqb_neq, length_pos in Hk.
  unfold render_pair. rewrite length_app. lia.
Qed.

Lemma Join_cons_cons (x y : string) (l : list string) (sep : string) :
  Join (x :: y :: l) sep = x +:+ sep +:+ Join (y :: l) sep.
Proof. reflexivity. Qed.

Lemma Join_pairs_nonempty (kv : string * string) (kvs : list (string * string)) :
  plain_pair kv = true -> Join (map render_pair (kv :: kvs)) ";" <> "".
Proof.
  intros Hkv Hj. apply render_pair_length in Hkv.
  assert (Hl : String.length (Join (map render_pair (kv :: kvs)) ";") = 0)
    by (by rewrite Hj).
  destruct kvs as [|kv2 kvs]; cbn [map] in Hl.
  - cbn [Join] in Hl. lia.
  - rewrite Join_cons_cons, length_app in Hl. lia.
Qed.

(** The loop over a text that continues, at [s], with plain pairs up to
    its end. *)
Lemma ParsePairs_loop_plain `{GoLib} (ci : bool) (kvs : list (string * string)) :
  forall pre pairs fuel,
    kvs <> [] -> forallb plain_pair kvs = true ->
    String.length (Join (map render_pair kvs) ";") <= fuel ->
    ParsePairs_loop fuel (pre +:+ Join (map render_pair kvs) ";") ci
      (String.length pre) pairs
    = Return (Some (store_all ci (default ∅ pairs) kvs), None).
Proof.
  induction kvs as [|[k v] rest IH]; intros pre pairs fuel Hne Hall Hfuel;
    [done|].
  cbn [forallb] in Hall. apply andb_true_iff in Hall as [Hkv Hrest].
  pose proof (render_pair_length _ Hkv) as Hpos.
  pose proof Hkv as Hkv'. apply andb_true_iff in Hkv' as [Hk Hv].
  cbn [fst snd] in Hk, Hv.
  destruct rest as [|kv2 rest].
  - cbn [map Join] in *. unfold render_pair in *. cbn [fst snd] in *.
    string_lengths.
    destruct fuel as [|fuel]; [lia|]. rewrite ParsePairs_loop_S.
    destruct (Nat.ltb_spec (String.length pre)
                (String.length (pre +:+ k +:+ "=" +:+ v))) as [_|Hge];
      [|string_lengths; lia].
    rewrite <- (app_empty_r v) at 1.
    rewrite ParsePairs_iter_plain by (done || by left). cbn [bind].
    apply ParsePairs_loop_end.
    string_lengths. lia.
  - cbn [map]. rewrite Join_cons_cons. cbn [map] in Hfuel.
    rewrite Join_cons_cons in Hfuel.
    set (J := Join (render_pair kv2 :: map render_pair rest) ";") in *.
    assert (HJ : J <> "").
    { cbn [forallb] in Hrest. apply andb_true_iff in Hrest as [Hkv2 _].
      apply (Join_pairs_nonempty kv2 rest Hkv2). }
    unfold render_pair in *. cbn [fst snd] in *.
    string_lengths.
    destruct fuel as [|fuel]; [lia|]. rewrite ParsePairs_loop_S.
    rewrite !app_assoc_s.
    destruct (Nat.ltb_spec (String.length pre)
                (String.length (pre +:+ k +:+ "=" +:+ v +:+ ";" +:+ J)))
      as [_|Hge]; [|string_lengths; lia].
    change (";" +:+ J) with (String ";" J).
    rewrite ParsePairs_iter_plain by (done || (right; by exists J)).
    cbn [bind].
    replace (pre +:+ k +:+ "=" +:+ v +:+ String ";" J)
      with ((pre +:+ k +:+ "=" +:+ v +:+ ";") +:+ J)
      by (by rewrite !app_assoc_s).
    replace (String.length pre + String.length k + 1 + String.length v + 1)
      with (String.length (pre +:+ k +:+ "=" +:+ v +:+ ";"))
      by (string_lengths; lia).
    unfold J. rewrite (IH _ _ fuel); [reflexivity | done | done |].
    change (String.length J <= fuel). lia.
Qed.

(** ** ParsePairs: duplicate names *)

Lemma store_all_app `{GoLib} (ci : bool) (m : gmap string string)
    (a b : list (string * string)) :
  store_all ci m (a ++ b)%list = store_all ci (store_all ci m a) b.
Proof. apply foldl_app. Qed.

Lemma store_all_lookup_other `{GoLib} (ci : bool) (key : string)
    (kvs : list (string * string)) :
  forall m,
    Forall (fun kv => key_of ci (fst kv) <> key) kvs ->
    store_all ci m kvs !! key = m !! key.
Proof.
  induction kvs as [|[k v] kvs IH]; intros m Hall; [reflexivity|].
  inversion Hall as [|? ? Hk Hrest]; subst. cbn [store_all foldl fst snd].
  change (store_all ci (<[key_of ci k:=v]> m) kvs !! key = m !! key).
  rewrite IH by done. by apply lookup_insert_ne.
Qed.

(** C7, amended to what the code does: on every input made of plain pairs
    separated by [';'], names repeated or not, [ParsePairs] returns a map and no
    error; the pairs are stored in input order, so for a repeated name the
    value of its last pair is kept. *)
Theorem ParsePairs_last_pair_wins `{GoLib} (ci : bool)
    (kvs : list (string * string)) :
  kvs <> [] -> forallb plain_pair kvs = true ->
  ParsePairs (Join (map render_pair kvs) ";") ci
  = Return (Some (store_all ci ∅ kvs), None)
  /\ forall before k v after,
       kvs = (before ++ (k, v) :: after)%list ->
       Forall (fun kv => key_of ci (fst kv) <> key_of ci k) after ->
       store_all ci ∅ kvs !! key_of ci k = Some v.
Proof.
  intros Hne Hall. split.
  - unfold ParsePairs.
    apply (ParsePairs_loop_plain ci kvs "" None); [done | done | lia].
  - intros before k v after -> Hafter.
    rewrite store_all_app. cbn [store_all foldl fst snd].
    change (store_all ci (<[key_of ci k:=v]> (store_all ci ∅ before)) after
              !! key_of ci k = Some v).
    rewrite store_all_lookup_other by done. apply lookup_insert_eq.
Qed.

Lemma ParsePairs_last_pair_wins_witness :
  ParsePairs (H := example_lib) "a=1;a=2" false
  = Return (Some (store_all (H := example_lib) false ∅ [("a", "1"); ("a", "2")]), None)
  /\ store_all (H := example_lib) false ∅ [("a", "1"); ("a", "2")] !! "a" = Some "2".
Proof.
  destruct (ParsePairs_last_pair_wins (H := example_lib) false
              [("a", "1"); ("a", "2")]) as [Hret Hlast];
    [discriminate | reflexivity |].
  split; [exact Hret|].
  apply (Hlast [("a", "1")] "a" "2" []); [reflexivity | constructor].
Defined.

(** C7, as stated, fails: ["a=1;a=2"] is not a parse error, the second
    value overwrites the first. *)
Lemma ParsePairs_duplicate_name_accepted :
  ParsePairs (H := example_lib) "a=1;a=2" false
  = Return (Some {[ "a" := "2" ]}, None).
Proof. vm_compute. reflexivity. Qed.

(** ** ParsePairs: the specified results and errors *)

Lemma ParsePairs_iter_errors `{GoLib} (text : string) (ci : bool) (s : nat)
    (pairs : pairs_map) (ret : pairs_map * option error) :
  ParsePairs_iter text ci s pairs = Return (Done ret) ->
  exists n err, ret = (None, Some err) /\ err ∈ ParsePairs_errors n.
Proof.
  unfold ParsePairs_iter, ParsePairs_store, bind. intros Hit.
  repeat match type of Hit with
         | context [match ?x with _ => _ end] => destruct x eqn:?
         end; try discriminate; inversion Hit; subst;
    eexists _, _; (split; [reflexivity|]); unfold ParsePairs_errors;
    solve [repeat first [apply list_elem_of_here | apply list_elem_of_further]].
  Unshelve. all: exact 0%Z.
Qed.

Lemma ParsePairs_loop_errors `{GoLib} (text : string) (ci : bool) :
  forall fuel s pairs m err,
    ParsePairs_loop fuel text ci s pairs = Return (m, Some err) ->
    m = None /\ exists n, err ∈ ParsePairs_errors n.
Proof.
  induction fuel as [|fuel IH]; intros s pairs m err Hl; [discriminate|].
  rewrite ParsePairs_loop_S in Hl.
  destruct (s <? String.length text)%nat; [|discriminate].
  destruct (ParsePairs_iter text ci s pairs) as [[s' pairs'|ret]|] eqn:Hit;
    cbn [bind] in Hl; [by eapply IH | | discriminate].
  apply ParsePairs_iter_errors in Hit as (n & e & -> & He).
  inversion Hl; subst. split; [reflexivity | by exists n].
Qed.

(** C8: the three specified results, and every error [ParsePairs] returns
    comes with a nil map and is one of the six specified messages. *)
Theorem ParsePairs_specified_results `{GoLib} :
  ParsePairs "a=1;b=2" false
  = Return (Some (<[ "b" := "2" ]> (<[ "a" := "1" ]> ∅)), None)
  /\ ParsePairs "a=" false = Return (None, Some "empty attribute value at 2")
  /\ ParsePairs "" false = Return (None, None)
  /\ forall text ci m err,
       ParsePairs text ci = Return (m, Some err) ->
       m = None /\ exists n, err ∈ ParsePairs_errors n.
Proof.
  split; [reflexivity|]. split; [reflexivity|]. split; [reflexivity|].
  intros text ci m err. apply ParsePairs_loop_errors.
Qed.

Lemma ParsePairs_specified_results_witness :
  exists n, "empty attribute value at 2" ∈ ParsePairs_errors n.
Proof.
  destruct (ParsePairs_specified_results (H := example_lib))
    as (_ & Hempty & _ & Herr).
  destruct (Herr "a=" false None "empty attribute value at 2" Hempty)
    as [_ Hn].
  exact Hn.
Defined.

(** ** ParsePairs: quoted values without a closing quote *)

(** The loop runs through a prefix of plain pairs, whatever follows. *)
Lemma ParsePairs_loop_prefix `{GoLib} (ci : bool) (kvs : list (string * string)) :
  forall pre tail pairs fuel,
    forallb plain_pair kvs = true -> tail <> "" ->
    String.length (render_prefix kvs +:+ tail) <= fuel ->
    ParsePairs_loop fuel (pre +:+ render_prefix kvs +:+ tail) ci
      (String.length pre) pairs
    = ParsePairs_loop (String.length tail)
        (pre +:+ render_prefix kvs +:+ tail) ci
        (String.length pre + String.length (render_prefix kvs))
        (store_prefix ci pairs kvs).
Proof.
  induction kvs as [|[k v] rest IH]; intros pre tail pairs fuel Hall Htail Hfuel.
  - cbn [render_prefix store_prefix] in *. change ("" +:+ tail) with tail in *.
    rewrite Nat.add_0_r. apply ParsePairs_loop_fuel; string_lengths; lia.
  - cbn [forallb] in Hall. apply andb_true_iff in Hall as [Hkv Hrest].
    pose proof Hkv as Hkv'. apply andb_true_iff in Hkv' as [Hk Hv].
    cbn [fst snd] in Hk, Hv.
    cbn [render_prefix] in *. unfold render_pair in *. cbn [fst snd] in *.
    set (P := render_prefix rest) in *.
    assert (HPt : P +:+ tail <> "").
    { intros Hx. apply length_pos in Htail.
      assert (String.length (P +:+ tail) = 0) by (by rewrite Hx).
      string_lengths. lia. }
    replace (pre +:+ ((k +:+ "=" +:+ v) +:+ ";" +:+ P) +:+ tail)
      with (pre +:+ k +:+ "=" +:+ v +:+ String ";" (P +:+ tail))
      by (rewrite !app_assoc_s; reflexivity).
    destruct fuel as [|fuel]; [string_lengths; lia|].
    rewrite ParsePairs_loop_S.
    destruct (Nat.ltb_spec (String.length pre)
                (String.length (pre +:+ k +:+ "=" +:+ v +:+ String ";" (P +:+ tail))))
      as [_|Hge]; [|string_lengths; lia].
    rewrite ParsePairs_iter_plain by (done || (right; by eexists)).
    cbn [bind].
    replace (pre +:+ k +:+ "=" +:+ v +:+ String ";" (P +:+ tail))
      with ((pre +:+ k +:+ "=" +:+ v +:+ ";") +:+ P +:+ tail)
      by (rewrite !app_assoc_s; reflexivity).
    replace (String.length pre + String.length k + 1 + String.length v + 1)
      with (String.length (pre +:+ k +:+ "=" +:+ v +:+ ";"))
      by (string_lengths; lia).
    unfold P. rewrite (IH _ tail _ fuel); [| done | done | fold P; string_lengths; lia].
    fold P. f_equal; [string_lengths; lia|].
    destruct rest; reflexivity.
Qed.

(** One iteration on a name, ['='], an opening quote and at least one more
    character, with no quote after that character up to the end of the
    text. *)
Lemma ParsePairs_iter_open_quote `{GoLib} (pre k : string) (c : ascii)
    (rest : string) (ci : bool) (pairs : pairs_map) :
  plain_name k = true ->
  string_forall (fun c => negb (is_quote c)) rest = true ->
  ParsePairs_iter (pre +:+ k +:+ "=" +:+ dq +:+ String c rest) ci
    (String.length pre) pairs
  = Return (Next (String.length (pre +:+ k +:+ "=" +:+ dq +:+ String c rest) + 2)
              (Some (<[key_of ci k := String c rest]> (default ∅ pairs)))).
Proof.
  intros Hk Hrest.
  apply andb_true_iff in Hk as [Hk0 Hk]. apply negb_true_iff in Hk0.
  apply String.eqb_neq, length_pos in Hk0.
  set (text := pre +:+ k +:+ "=" +:+ dq +:+ String c rest).
  assert (Hlen : String.length text
                 = String.length pre + String.length k + 3 + String.length rest).
  { unfold text, dq. string_lengths. lia. }
  assert (Hne : scan is_eq_or_semi text (String.length pre)
                = String.length pre + String.length k).
  { unfold text. apply scan_app; [done|]. right. by eexists _, _. }
  assert (Htext2 : text = (pre +:+ k) +:+ String "=" (dq +:+ String c rest)).
  { unfold text. by rewrite app_assoc_s. }
  assert (Htext3 : text = (pre +:+ k +:+ "=") +:+ String dquote (String c rest)).
  { unfold text. by rewrite !app_assoc_s. }
  assert (Htext4 : text = (pre +:+ k +:+ "=" +:+ dq +:+ String c "") +:+ rest +:+ "").
  { unfold text. rewrite !app_assoc_s, app_empty_r. reflexivity. }
  assert (Htext5 : text = (pre +:+ k +:+ "=" +:+ dq) +:+ String c rest +:+ "").
  { unfold text. rewrite !app_assoc_s, app_empty_r. reflexivity. }
  assert (Hl2 : String.length (pre +:+ k) = String.length pre + String.length k)
    by apply length_app.
  assert (Hl3 : String.length (pre +:+ k +:+ "=")
                = String.length pre + String.length k + 1).
  { string_lengths. lia. }
  assert (Hl4 : String.length (pre +:+ k +:+ "=" +:+ dq +:+ String c "")
                = String.length pre + String.length k + 1 + 2).
  { unfold dq. string_lengths. lia. }
  assert (Hl5 : String.length (pre +:+ k +:+ "=" +:+ dq)
                = String.length pre + String.length k + 1 + 1).
  { unfold dq. string_lengths. lia. }
  assert (Hve : scan is_quote text (String.length pre + String.length k + 1 + 2)
                = String.length text).
  { rewrite <- Hl4. rewrite Htext4 at 1. rewrite scan_app; [| done | by left].
    rewrite Hl4, Hlen. lia. }
  unfold ParsePairs_iter. fold text. rewrite Hne.
  destruct (Nat.eqb_spec (String.length pre + String.length k) (String.length pre));
    [lia|].
  destruct (Nat.eqb_spec (String.length pre + String.length k) (String.length text));
    [lia|].
  rewrite <- Hl2 at 1. rewrite Htext2 at 1. rewrite index_app. cbn [bind].
  change (is_semi "=") with false. cbv iota.
  rewrite <- Hl3 at 1. rewrite Htext3 at 1. rewrite in_range_and_app.
  cbn [bind]. change (is_quote dquote) with true. cbv iota.
  rewrite Hve. unfold in_range_and.
  destruct (Nat.ltb_spec (String.length text + 1) (String.length text)); [lia|].
  cbn [bind]. unfold ParsePairs_store.
  destruct (Nat.eqb_spec (String.length pre + String.length k + 1 + 1)
              (String.length text)); [lia|].
  destruct (Nat.eqb_spec (String.length text + 1 + 1) (String.length text));
    [lia|].
  assert (Hname : slice text (String.length pre)
                    (String.length pre + String.length k) = Return k).
  { unfold text. apply slice_middle. }
  assert (Hval : slice text (String.length pre + String.length k + 1 + 1)
                   (String.length text) = Return (String c rest)).
  { rewrite <- Hl5. rewrite Htext5 at 1.
    replace (String.length text)
      with (String.length (pre +:+ k +:+ "=" +:+ dq) + String.length (String c rest))
      by (rewrite Hl5, Hlen; string_lengths; lia).
    apply slice_middle. }
  rewrite Hname, Hval. cbn [bind].
  replace (String.length text + 1 + 1) with (String.length text + 2) by lia.
  unfold key_of. destruct pairs, ci; reflexivity.
Qed.

(** One iteration on a name, ['='] and an opening quote that is the last
    character of the text. *)
Lemma ParsePairs_iter_quote_at_end `{GoLib} (pre k : string) (ci : bool)
    (pairs : pairs_map) :
  plain_name k = true ->
  ParsePairs_iter (pre +:+ k +:+ "=" +:+ dq) ci (String.length pre) pairs
  = Panics.
Proof.
  intros Hk.
  apply andb_true_iff in Hk as [Hk0 Hk]. apply negb_true_iff in Hk0.
  apply String.eqb_neq, length_pos in Hk0.
  set (text := pre +:+ k +:+ "=" +:+ dq).
  assert (Hlen : String.length text = String.length pre + String.length k + 2).
  { unfold text, dq. string_lengths. lia. }
  assert (Hne : scan is_eq_or_semi text (String.length pre)
                = String.length pre + String.length k).
  { unfold text. apply scan_app; [done|]. right. by eexists _, _. }
  assert (Htext2 : text = (pre +:+ k) +:+ String "=" dq).
  { unfold text. by rewrite app_assoc_s. }
  assert (Htext3 : text = (pre +:+ k +:+ "=") +:+ String dquote "").
  { unfold text. by rewrite !app_assoc_s. }
  assert (Hl2 : String.length (pre +:+ k) = String.length pre + String.length k)
    by apply length_app.
  assert (Hl3 : String.length (pre +:+ k +:+ "=")
                = String.length pre + String.length k + 1).
  { string_lengths. lia. }
  assert (Hve : scan is_quote text (String.length pre + String.length k + 1 + 2)
                = String.length pre + String.length k + 1 + 2).
  { unfold scan. rewrite Hlen.
    replace (String.length pre + String.length k + 2
             - (String.length pre + String.length k + 1 + 2)) with 0 by lia.
    reflexivity. }
  unfold ParsePairs_iter. fold text. rewrite Hne.
  destruct (Nat.eqb_spec (String.length pre + String.length k) (String.length pre));
    [lia|].
  destruct (Nat.eqb_spec (String.length pre + String.length k) (String.length text));
    [lia|].
  rewrite <- Hl2 at 1. rewrite Htext2 at 1. rewrite index_app. cbn [bind].
  change (is_semi "=") with false. cbv iota.
  rewrite <- Hl3 at 1. rewrite Htext3 at 1. rewrite in_range_and_app.
  cbn [bind]. change (is_quote dquote) with true. cbv iota.
  rewrite Hve. unfold in_range_and.
  destruct (Nat.ltb_spec (String.length pre + String.length k + 1 + 2 + 1)
              (String.length text)); [lia|].
  cbn [bind]. unfold ParsePairs_store.
  destruct (Nat.eqb_spec (String.length pre + String.length k + 1 + 1)
              (String.length pre + String.length k + 1 + 2)); [lia|].
  destruct (Nat.eqb_spec (String.length pre + String.length k + 1 + 2 + 1 + 1)
              (String.length text)); [lia|].
  assert (Hname : slice text (String.length pre)
                    (String.length pre + String.length k) = Return k).
  { unfold text. apply slice_middle. }
  rewrite Hname. cbn [bind]. unfold slice.
  destruct (Nat.leb_spec (String.length pre + String.length k + 1 + 2)
              (String.length text)); [lia|].
  rewrite andb_false_r. reflexivity.
Qed.

Lemma nonempty_of_length (s : string) : 0 < String.length s -> s <> "".
Proof. intros Hs ->. cbn in Hs. lia. Qed.

Lemma store_prefix_None `{GoLib} (ci : bool) (kvs : list (string * string)) :
  default ∅ (store_prefix ci None kvs) = store_all ci ∅ kvs.
Proof. destruct kvs; reflexivity. Qed.

(** X13: after any plain pairs, a quoted value that
    has at least one character after the opening quote and no quote after
    that character up to the end of the text is accepted, and the name maps
    to everything after the opening quote. *)
Lemma ParsePairs_unterminated_quote_accepted `{GoLib} (ci : bool)
    (kvs : list (string * string)) (k : string) (c : ascii) (rest : string) :
  forallb plain_pair kvs = true -> plain_name k = true ->
  string_forall (fun c => negb (is_quote c)) rest = true ->
  ParsePairs (render_prefix kvs +:+ k +:+ "=" +:+ dq +:+ String c rest) ci
  = Return (Some (<[key_of ci k := String c rest]> (store_all ci ∅ kvs)), None).
Proof.
  intros Hall Hk Hrest. unfold ParsePairs.
  set (tail := k +:+ "=" +:+ dq +:+ String c rest).
  assert (Htail : 0 < String.length tail).
  { unfold tail, dq. string_lengths. lia. }
  rewrite (ParsePairs_loop_prefix ci kvs "" tail None);
    [| done | by apply nonempty_of_length | lia].
  change ("" +:+ render_prefix kvs +:+ tail) with (render_prefix kvs +:+ tail).
  change (String.length "" + String.length (render_prefix kvs))
    with (String.length (render_prefix kvs)).
  destruct (String.length tail) as [|fuel] eqn:Hfuel; [lia|].
  rewrite ParsePairs_loop_S.
  destruct (Nat.ltb_spec (String.length (render_prefix kvs))
              (String.length (render_prefix kvs +:+ tail))) as [_|Hge];
    [|rewrite length_app in Hge; lia].
  unfold tail. rewrite ParsePairs_iter_open_quote by done. cbn [bind].
  rewrite ParsePairs_loop_end by lia. by rewrite store_prefix_None.
Qed.

(** C10: an unterminated quoted value is not always accepted.  After any
    plain pairs, a value that is an opening quote at the very end of the
    text makes [ParsePairs] panic: [ve] starts at [vs+2], one past the
    character after the quote, so the empty-value check is passed and the
    value slice ends beyond the text. *)
Theorem ParsePairs_quote_at_end_panics `{GoLib} (ci : bool)
    (kvs : list (string * string)) (k : string) :
  forallb plain_pair kvs = true -> plain_name k = true ->
  ParsePairs (render_prefix kvs +:+ k +:+ "=" +:+ dq) ci = Panics.
Proof.
  intros Hall Hk. unfold ParsePairs.
  set (tail := k +:+ "=" +:+ dq).
  assert (Htail : 0 < String.length tail).
  { unfold tail, dq. string_lengths. lia. }
  rewrite (ParsePairs_loop_prefix ci kvs "" tail None);
    [| done | by apply nonempty_of_length | lia].
  change ("" +:+ render_prefix kvs +:+ tail) with (render_prefix kvs +:+ tail).
  change (String.length "" + String.length (render_prefix kvs))
    with (String.length (render_prefix kvs)).
  destruct (String.length tail) as [|fuel] eqn:Hfuel; [lia|].
  rewrite ParsePairs_loop_S.
  destruct (Nat.ltb_spec (String.length (render_prefix kvs))
              (String.length (render_prefix kvs +:+ tail))) as [_|Hge];
    [|rewrite length_app in Hge; lia].
  unfold tail. by rewrite ParsePairs_iter_quote_at_end.
Qed.

Lemma ParsePairs_quote_at_end_panics_witness :
  ParsePairs (H := example_lib) ("a=" +:+ dq) false = Panics
  /\ ParsePairs (H := example_lib) ("x=1;for=" +:+ dq) true = Panics.
Proof.
  split.
  - apply (ParsePairs_quote_at_end_panics (H := example_lib) false [] "a");
      reflexivity.
  - apply (ParsePairs_quote_at_end_panics (H := example_lib) true
             [("x", "1")] "for"); reflexivity.
Defined.

(** ** ClientAddr *)

Lemma forwarded_for_panics `{GoLib} (before : list string) (v : string)
    (after : list string) :
  Forall (fun w => ParsePairs w true <> Panics /\ for_attribute w = None) before ->
  ParsePairs v true = Panics ->
  forwarded_for (before ++ v :: after)%list = Panics.
Proof.
  intros Hbefore Hv. induction Hbefore as [|w before [Hw Hnone] _ IH].
  - cbn [app forwarded_for]. by rewrite Hv.
  - change (forwarded_for (w :: (before ++ v :: after)%list) = Panics).
    cbn [forwarded_for]. unfold for_attribute in Hnone.
    destruct (ParsePairs w true) as [[m err]|] eqn:Hp; [|done]. cbn [bind fst].
    destruct err as [err|].
    + apply ParsePairs_loop_errors in Hp as [-> _]. exact IH.
    + destruct m as [m|]; cbn [map_get]; [|exact IH].
      destruct (m !! "for") as [f|]; cbn [default from_option id]; [|exact IH].
      destruct (f =? ""); [exact IH | discriminate].
Qed.

(** C9: a malformed Forwarded header can abort the resolution.  When
    [ParsePairs] panics on a Forwarded value and none of the values before
    it has a [for] attribute, [ClientAddr] panics, whatever X-Forwarded-For
    and the remote address are; a value that ends with [for=] and a double
    quote is such a value. *)
Theorem ClientAddr_panics_on_Forwarded `{GoLib} (r : Request)
    (before : list string) (v : string) (after : list string) :
  header_values (Request_Header r) "Forwarded" = (before ++ v :: after)%list ->
  Forall (fun w => ParsePairs w true <> Panics /\ for_attribute w = None) before ->
  ParsePairs v true = Panics ->
  ClientAddr r = Panics.
Proof.
  intros Hf Hbefore Hv. unfold ClientAddr, FirstForwardedFor.
  rewrite Hf, forwarded_for_panics by done. reflexivity.
Qed.

Lemma ClientAddr_panics_on_Forwarded_witness :
  ClientAddr (example_request
                {[ "Forwarded" := ["by=203.0.113.43"; "for=" +:+ dq];
                   "X-Forwarded-For" := ["203.0.113.5, 198.51.100.7"] ]})
  = Panics.
Proof.
  apply (ClientAddr_panics_on_Forwarded (H := example_lib) _
           ["by=203.0.113.43"] ("for=" +:+ dq) []).
  - reflexivity.
  - constructor; [|constructor]. split; [discriminate | reflexivity].
  - reflexivity.
Defined.

Lemma SplitN_comma_2_head (s : string) :
  exists t, SplitN_comma_2 s = before_comma s :: t.
Proof.
  induction s as [|c s [t IH]]; [by exists []|].
  cbn [SplitN_comma_2 before_comma]. destruct (c =? ",")%char; [by eexists|].
  rewrite IH. by eexists.
Qed.

Lemma forwarded_for_spec `{GoLib} (vs : list string) :
  Forall (fun v => ParsePairs v true <> Panics) vs ->
  forwarded_for vs = Return (first_answer for_attribute vs).
Proof.
  induction 1 as [|v vs Hv Hvs IH]; [reflexivity|].
  cbn [forwarded_for first_answer]. unfold for_attribute.
  destruct (ParsePairs v true) as [[m err]|] eqn:Hp; [|done]. cbn [bind fst].
  destruct err as [err|].
  - apply ParsePairs_loop_errors in Hp as [-> _]. exact IH.
  - destruct m as [m|]; cbn [map_get]; [|exact IH].
    destruct (m !! "for") as [f|]; cbn [default from_option id]; [|exact IH].
    destruct (f =? ""); [exact IH | reflexivity].
Qed.

(** X14: when [ParsePairs] panics on none of the Forwarded values,
    [ClientAddr] returns the identifier of the first strategy that finds
    one: Forwarded, X-Forwarded-For, remote address. *)
Lemma ClientAddr_priority `{GoLib} (r : Request) :
  Forall (fun v => ParsePairs v true <> Panics)
    (header_values (Request_Header r) "Forwarded") ->
  ClientAddr r = Return (resolve_client r).
Proof.
  intros Hf. unfold ClientAddr, FirstForwardedFor, resolve_client.
  rewrite forwarded_for_spec by done. cbn [bind].
  destruct (first_answer _ _) as [f|] eqn:Hfa.
  - cbn [bind].
    assert (f <> "") as Hne%String.eqb_neq.
    { clear Hf. induction (header_values (Request_Header r) "Forwarded")
        as [|v vs IH]; [discriminate|].
      cbn [first_answer] in Hfa. destruct (for_attribute v) as [g|] eqn:Hg;
        [|by apply IH].
      inversion Hfa; subst. unfold for_attribute in Hg.
      repeat match type of Hg with
             | context [match ?x with _ => _ end] => destruct x eqn:?
             end; try discriminate.
      inversion Hg; subst. by apply String.eqb_neq. }
    by rewrite Hne.
  - destruct (header_values (Request_Header r) "X-Forwarded-For") as [|v vs].
    + reflexivity.
    + cbn [first_hop]. destruct (SplitN_comma_2_head v) as [t ->].
      cbn [bind]. by destruct (TrimSpace (before_comma v) =? "").
Qed.

(** ** Format: the loop and totality *)

Lemma Format_loop_S `{GoLib} (fuel : nat) (r : LogRecord) (format : string)
    (i : nat) (b : string) :
  Format_loop (S fuel) r format i b =
  if (i <? String.length format)%nat then
    do st <- Format_iter r format i b;
    match st with
    | Finished s => Return s
    | Continue i' b' => Format_loop fuel r format (i' + 1) b'
    end
  else Return b.
Proof. reflexivity. Qed.

Lemma scan_loop_le (stop : ascii -> bool) (text : string) :
  forall fuel i, i <= String.length text ->
                 scan_loop stop text fuel i <= String.length text.
Proof.
  induction fuel as [|fuel IH]; intros i Hi; cbn [scan_loop]; [done|].
  destruct (String.get i text) as [c|] eqn:Hget; [|done].
  destruct (stop c); [done|]. apply IH.
  assert (i < String.length text) by (apply get_lt_length; eauto). lia.
Qed.

Lemma scan_le (stop : ascii -> bool) (text : string) (i : nat) :
  i <= String.length text -> scan stop text i <= String.length text.
Proof. apply scan_loop_le. Qed.

Lemma index_lt (s : string) (i : nat) :
  i < String.length s -> exists c, index s i = Return c.
Proof.
  intros [c Hc]%get_lt_length. exists c. unfold index. by rewrite Hc.
Qed.

Lemma slice_in_range (s : string) (lo hi : nat) :
  lo <= hi -> hi <= String.length s -> exists t, slice s lo hi = Return t.
Proof.
  intros H1 H2. unfold slice.
  destruct (Nat.leb_spec lo hi); [|lia].
  destruct (Nat.leb_spec hi (String.length s)); [|lia]. by eexists.
Qed.

Ltac case_split_in H :=
  repeat match type of H with
         | context [match ?x with _ => _ end] => destruct x eqn:?
         end.

Ltac case_split :=
  repeat match goal with
         | |- context [match ?x with _ => _ end] => destruct x eqn:?
         end.

(** An iteration of [Format] never moves [i] back. *)
Lemma Format_iter_advances `{GoLib} (r : LogRecord) (format : string)
    (i i' : nat) (b b' : string) :
  Format_iter r format i b = Return (Continue i' b') -> i <= i'.
Proof.
  unfold Format_iter, Format_brace, slice_from, deref_URL, bind.
  pose proof (scan_ge is_close_brace format (i + 1 + 1)).
  intros Hit. case_split_in Hit; try discriminate; inversion Hit; subst; lia.
Qed.

Lemma Format_loop_end `{GoLib} (fuel : nat) (r : LogRecord) (format : string)
    (i : nat) (b : string) :
  String.length format <= i -> Format_loop fuel r format i b = Return b.
Proof.
  intros Hi. destruct fuel as [|fuel]; [reflexivity|]. rewrite Format_loop_S.
  destruct (Nat.ltb_spec i (String.length format)); [lia | reflexivity].
Qed.

(** The fuel of the loop does not matter once it covers the rest of the
    template. *)
Lemma Format_loop_fuel `{GoLib} (r : LogRecord) (format : string) :
  forall f1 f2 i b,
    String.length format - i <= f1 -> String.length format - i <= f2 ->
    Format_loop f1 r format i b = Format_loop f2 r format i b.
Proof.
  induction f1 as [|f1 IH]; intros f2 i b H1 H2.
  - rewrite !Format_loop_end by lia. reflexivity.
  - destruct (Nat.le_gt_cases (String.length format) i) as [Hge|Hlt].
    + rewrite !Format_loop_end by lia. reflexivity.
    + destruct f2 as [|f2]; [lia|]. rewrite !Format_loop_S.
      destruct (Nat.ltb_spec i (String.length format)); [|lia].
      destruct (Format_iter r format i b) as [[i' b'|s]|] eqn:Hit;
        cbn [bind]; try reflexivity.
      apply Format_iter_advances in Hit. apply IH; lia.
Qed.

Lemma Format_iter_returns `{GoLib} (r : LogRecord) (format : string)
    (i : nat) (b : string) :
  lookups_return r -> i < String.length format ->
  exists st, Format_iter r format i b = Return st.
Proof.
  intros ((u & Hu) & (a & Ha) & (ret & Hret)) Hi.
  unfold Format_iter, Format_brace, slice_from, deref_URL.
  rewrite Hu, Ha, Hret.
  destruct (index_lt format i Hi) as [c ->]. cbn [bind].
  destruct (Nat.eqb_spec (i + 1) (String.length format)) as [|Hi1].
  { case_split; by eexists. }
  destruct (index_lt format (i + 1)) as [d ->]; [lia|]. cbn [bind].
  pose proof (scan_ge is_close_brace format (i + 1 + 1)) as Hj1.
  pose proof (scan_le is_close_brace format (i + 1 + 1)) as Hj2.
  set (j := scan is_close_brace format (i + 1 + 1)) in *.
  destruct (slice_in_range format (i + 1) (String.length format)) as [rest ->];
    [lia | lia |].
  destruct (Nat.eqb_spec j (String.length format)) as [|Hj].
  { case_split; by eexists. }
  destruct (slice_in_range format (i + 1 + 1) j) as [key ->]; [lia | lia |].
  destruct (Nat.eqb_spec (j + 1) (String.length format)) as [|Hj'].
  { case_split; by eexists. }
  destruct (index_lt format (j + 1)) as [e ->]; [lia|]. cbn [bind].
  case_split; by eexists.
Qed.

(** X15: on a record whose lookups return, [Format] returns a string for every
    template. *)
Lemma Format_total `{GoLib} (r : LogRecord) (format : string) :
  lookups_return r -> exists s, Format r format = Return s.
Proof.
  intros Hr. unfold Format. generalize (String.length format) at 1 as fuel.
  generalize 0 as i. generalize "" as b.
  intros b i fuel. revert i b.
  induction fuel as [|fuel IH]; intros i b; [by eexists|].
  rewrite Format_loop_S.
  destruct (Nat.ltb_spec i (String.length format)) as [Hi|]; [|by eexists].
  destruct (Format_iter_returns r format i b Hr Hi) as [[i' b'|s] ->];
    cbn [bind]; [apply IH | by eexists].
Qed.

(** ** Format: renderings on given templates *)

(** The three specified renderings of malformed templates, on every
    record. *)
Lemma Format_specified_passthrough `{GoLib} (r : LogRecord) :
  Format r "%%" = Return "%"
  /\ Format r "%Z" = Return "%Z"
  /\ Format r "%{bad" = Return "%{bad".
Proof. repeat split. Qed.

Ltac format_step :=
  rewrite Format_loop_S; unfold Format_iter;
  cbn [String.length Nat.ltb Nat.leb index String.get bind Nat.add Nat.eqb].

(** C6: on the record of the claim, [Format(CommonLogFormat)] renders the
    client address, the two dashes (the second for the absent user), the
    start time, the request line, the status and the size; the request line
    is method, protocol, URL, where the documentation of [%r] and the claim
    have method, URL, protocol. *)
Theorem Format_CommonLogFormat_request_line `{GoLib} (r : LogRecord)
    (u : URL) (addr : string) :
  ClientAddr (Record_Request r) = Return addr ->
  Request_URL (Record_Request r) = Some u ->
  Method (Record_Request r) = "GET" ->
  URL_String u = "/x" ->
  Proto (Record_Request r) = "HTTP/1.1" ->
  Response_Status (Record_Response r) = 200%Z ->
  Response_Size (Record_Response r) = 34%Z ->
  User (Record_Request r) = "" ->
  Format r CommonLogFormat
  = Return (addr +:+ " - - "
            +:+ Time_Format (StartTime r) "[02/Jan/2006:15:04:05 -0700]"
            +:+ " " +:+ dq +:+ "GET HTTP/1.1 /x" +:+ dq +:+ " 200 34").
Proof.
  intros Ha Hu Hm Hs Hp Hst Hsz Huser.
  unfold Format.
  let s := eval vm_compute in CommonLogFormat in change CommonLogFormat with s.
  cbn [String.length].
  repeat (format_step;
         rewrite ?Ha; unfold deref_URL; rewrite ?Hu, ?Hm, ?Hs, ?Hp, ?Hst, ?Hsz, ?Huser;
         cbn [bind negb String.eqb]).
  f_equal. rewrite !app_assoc_s. reflexivity.
Qed.

Lemma Format_CommonLogFormat_request_line_witness :
  Format (example_record ∅) CommonLogFormat
  = Return ("192.0.2.1:4711 - - 0@[02/Jan/2006:15:04:05 -0700] "
            +:+ dq +:+ "GET HTTP/1.1 /x" +:+ dq +:+ " 200 34").
Proof.
  apply (Format_CommonLogFormat_request_line (H := example_lib)
           (example_record ∅) {| su_path := "/x"; su_query := "" |}
           "192.0.2.1:4711"); reflexivity.
Defined.

(** ** Format: malformed and unknown directives *)

(** Pass-through, one iteration: a ['%'] that is the last character
    is written as it is and ends the rendering. *)
Lemma Format_iter_lone_percent `{GoLib} (r : LogRecord) (format : string)
    (i : nat) (b : string) :
  index format i = Return "%"%char -> i + 1 = String.length format ->
  Format_iter r format i b = Return (Finished (b +:+ "%")).
Proof.
  intros Hc Hl. unfold Format_iter. rewrite Hc. cbn [bind].
  by rewrite <- Hl, Nat.eqb_refl.
Qed.

(** Pass-through, one iteration: an unknown directive character is
    written after the ['%'], and the rendering goes on behind it. *)
Lemma Format_iter_unknown_directive `{GoLib} (r : LogRecord) (format : string)
    (i : nat) (b : string) (d : ascii) :
  index format i = Return "%"%char ->
  index format (i + 1) = Return d ->
  known_directive d = false ->
  Format_iter r format i b = Return (Continue (i + 1) (b +:+ "%" +:+ String d "")).
Proof.
  intros Hc Hd Hk. unfold Format_iter. rewrite Hc. cbn [bind].
  destruct (Nat.eqb_spec (i + 1) (String.length format)) as [Hl|_].
  { unfold index in Hd. rewrite get_ge_length in Hd by lia. discriminate. }
  rewrite Hd. cbn [bind].
  destruct d as [[] [] [] [] [] [] [] []]; try discriminate Hk; reflexivity.
Qed.

(** Pass-through, one iteration: when no ['}'] follows the brace, or
    it is the last character, the rest of the template from the ['%'] on is
    written as it is and ends the rendering. *)
Lemma Format_iter_unterminated_brace `{GoLib} (r : LogRecord) (format : string)
    (i : nat) (b : string) :
  index format i = Return "%"%char ->
  index format (i + 1) = Return "{"%char ->
  scan is_close_brace format (i + 1 + 1) = String.length format
  \/ scan is_close_brace format (i + 1 + 1) + 1 = String.length format ->
  exists rest,
    slice_from format (i + 1) = Return rest /\
    Format_iter r format i b = Return (Finished (b +:+ "%" +:+ rest)).
Proof.
  intros Hc Hd Hj. unfold Format_iter. rewrite Hc. cbn [bind].
  assert (Hi : i + 1 < String.length format).
  { destruct (Nat.lt_ge_cases (i + 1) (String.length format)); [done|].
    unfold index in Hd. rewrite get_ge_length in Hd by lia. discriminate. }
  destruct (Nat.eqb_spec (i + 1) (String.length format)); [lia|].
  rewrite Hd. cbn [bind]. unfold Format_brace.
  pose proof (scan_ge is_close_brace format (i + 1 + 1)) as Hge.
  destruct (slice_in_range format (i + 1) (String.length format)) as [rest Hrest];
    [lia | lia |].
  exists rest. split; [exact Hrest|]. unfold slice_from. rewrite Hrest.
  destruct Hj as [Hj | Hj].
  - by rewrite Hj, Nat.eqb_refl.
  - destruct (Nat.eqb_spec (scan is_close_brace format (i + 1 + 1))
                (String.length format)); [lia|].
    destruct (slice_in_range format (i + 1 + 1)
                (scan is_close_brace format (i + 1 + 1))) as [key ->];
      [lia | lia |].
    cbn [bind]. by rewrite Hj, Nat.eqb_refl.
Qed.

(** Pass-through, one iteration: a duration directive with an unknown
    unit is written as it is, and the rendering goes on behind it. *)
Lemma Format_iter_unknown_unit `{GoLib} (r : LogRecord) (format : string)
    (i j : nat) (b key : string) :
  index format i = Return "%"%char ->
  index format (i + 1) = Return "{"%char ->
  scan is_close_brace format (i + 1 + 1) = j ->
  slice format (i + 1 + 1) j = Return key ->
  index format (j + 1) = Return "T"%char ->
  known_unit key = false ->
  Format_iter r format i b
  = Return (Continue (j + 1) (b +:+ "%{" +:+ key +:+ "}T")).
Proof.
  intros Hc Hd Hj Hkey HT Hu. unfold Format_iter. rewrite Hc. cbn [bind].
  assert (Hj1 : j + 1 < String.length format).
  { destruct (Nat.lt_ge_cases (j + 1) (String.length format)); [done|].
    unfold index in HT. rewrite get_ge_length in HT by lia. discriminate. }
  pose proof (scan_ge is_close_brace format (i + 1 + 1)) as Hge.
  destruct (Nat.eqb_spec (i + 1) (String.length format)); [lia|].
  rewrite Hd. cbn [bind]. unfold Format_brace. rewrite Hj.
  destruct (Nat.eqb_spec j (String.length format)); [lia|].
  rewrite Hkey. cbn [bind].
  destruct (Nat.eqb_spec (j + 1) (String.length format)); [lia|].
  rewrite HT. cbn [bind].
  apply orb_false_iff in Hu as [Hu Hs]. apply orb_false_iff in Hu as [Hms Hus].
  by rewrite Hms, Hus, Hs.
Qed.

(** ** Format: the cookie directive *)

(** C5: [Format] is not total.  For every cookie name, the well-formed
    directive [%{NAME}C] makes [Format] panic on a record on whose Cookie
    header [ParsePairs] panics; the header made of a, = and a double quote
    is one. *)
Theorem Format_cookie_directive_panics `{GoLib} (r : LogRecord) (name : string) :
  string_forall (fun c => negb (is_close_brace c)) name = true ->
  ParsePairs (Header_Get (Request_Header (Record_Request r)) "Cookie") false
  = Panics ->
  Format r ("%{" +:+ name +:+ "}C") = Panics.
Proof.
  intros Hname Hcookie. unfold Format.
  set (format := "%{" +:+ name +:+ "}C").
  assert (Hlen : String.length format = String.length name + 4).
  { unfold format. string_lengths. lia. }
  assert (Hj : scan is_close_brace format 2 = 2 + String.length name).
  { unfold format. apply (scan_app is_close_brace "%{" name "}C"); [done|].
    right. by eexists _, _. }
  assert (Hkey : slice format 2 (2 + String.length name) = Return name).
  { unfold format. apply (slice_middle "%{" name "}C"). }
  assert (HC : index format (2 + String.length name + 1) = Return "C"%char).
  { unfold format.
    replace ("%{" +:+ name +:+ "}C") with (("%{" +:+ name +:+ "}") +:+ "C")
      by (by rewrite !app_assoc_s).
    replace (2 + String.length name + 1)
      with (String.length ("%{" +:+ name +:+ "}")) by (string_lengths; lia).
    apply index_app. }
  rewrite Hlen, Nat.add_comm. cbn [Nat.add]. rewrite Format_loop_S.
  destruct (Nat.ltb_spec 0 (String.length format)); [|lia].
  assert (Hit : Format_iter r format 0 "" = Panics); [|by rewrite Hit].
  unfold Format_iter. change (index format 0) with (Return "%"%char).
  cbn [bind Nat.add].
  destruct (Nat.eqb_spec 1 (String.length format)); [lia|].
  change (index format 1) with (Return "{"%char). cbn [bind].
  unfold Format_brace. cbn [Nat.add]. rewrite Hj.
  destruct (Nat.eqb_spec (2 + String.length name) (String.length format)); [lia|].
  rewrite Hkey. cbn [bind].
  destruct (Nat.eqb_spec (2 + String.length name + 1) (String.length format));
    [lia|].
  rewrite HC. cbn [bind]. by rewrite Hcookie.
Qed.

Lemma Format_cookie_directive_panics_witness :
  Format (example_record {[ "Cookie" := ["a=" +:+ dq] ]}) "%{session}C" = Panics.
Proof.
  apply (Format_cookie_directive_panics (H := example_lib) _ "session");
    reflexivity.
Defined.

(** * Further properties *)

(** ** The wrapper: further properties *)

(** X1: outside the [Pusher] assertion on the two sets with CloseNotifier,
    Flusher and exactly one of Hijacker and Pusher, the wrapper answers
    every type assertion as the sink does. *)
Theorem WrapResponseWriter_exposes_sink_capabilities {U} (rw : Sink U)
    (c : Capability) :
  c <> Pusher \/ pusher_mismatch (sink_implements rw) = false ->
  exists w, WrapResponseWriter rw = Return w
            /\ wrapper_implements w c = sink_implements rw c.
Proof.
  intros Hc. eexists. split; [apply WrapResponseWriter_returns|].
  pose proof (WrapResponseWriter_fidelity_elsewhere rw c Hc) as Hf.
  rewrite WrapResponseWriter_returns in Hf. cbn [bind] in Hf.
  by inversion Hf.
Qed.

Lemma WrapResponseWriter_exposes_sink_capabilities_witness :
  exists w, WrapResponseWriter (plain_sink [Flusher; Pusher]) = Return w
            /\ wrapper_implements w Pusher = true
            /\ wrapper_implements w Hijacker = false.
Proof.
  destruct (WrapResponseWriter_exposes_sink_capabilities
              (plain_sink [Flusher; Pusher]) Pusher) as (w & Hw & Hp);
    [right; reflexivity|].
  destruct (WrapResponseWriter_exposes_sink_capabilities
              (plain_sink [Flusher; Pusher]) Hijacker) as (w2 & Hw2 & Hh);
    [left; discriminate|].
  exists w. split; [exact Hw|]. split; [exact Hp|].
  rewrite Hw in Hw2. inversion Hw2; subst. exact Hh.
Defined.

(** X2: the wrapper is transparent to the sink and to the caller.  Through
    any sequence of [Write] and [WriteHeader] calls the sink goes through
    the states, and the caller gets the byte counts and errors, of the same
    calls made on the sink directly. *)
Theorem run_is_transparent {U} (cs : list Call) : forall r : responseWriter U,
  (let '(r', rs) := run_results r cs in (rw_responseWriter r', rs))
  = sink_run (rw_responseWriter r) cs.
Proof.
  induction cs as [|c cs IH]; intros r; [reflexivity|].
  destruct c as [p|s]; cbn [run_results sink_run].
  - unfold Write. destruct (sink_Write _ _ _) as [u [n err]].
    specialize (IH {| rw_responseWriter := with_state (rw_responseWriter r) u;
                      status := status r;
                      size := wrap64 (size r + n);
                      hijacked := hijacked r |}).
    cbn [rw_responseWriter] in IH. rewrite <- IH.
    by destruct (run_results _ cs) as [r2 rs].
  - apply (IH (WriteHeader r s)).
Qed.

Lemma hijacked_run {U} (cs : list Call) : forall r : responseWriter U,
  hijacked (fst (run r cs)) = hijacked r.
Proof.
  induction cs as [|c cs IH]; intros r; [reflexivity|].
  destruct c as [p|s]; cbn [run].
  - unfold Write. destruct (sink_Write _ _ _) as [u [n err]].
    specialize (IH {| rw_responseWriter := with_state (rw_responseWriter r) u;
                      status := status r;
                      size := wrap64 (size r + n);
                      hijacked := hijacked r |}).
    destruct (run _ cs) as [r2 ns]. exact IH.
  - apply (IH (WriteHeader r s)).
Qed.

(** X3: only [Hijack] changes the hijacked flag, and nothing else.  After
    any sequence of [Write] and [WriteHeader] calls on a fresh wrapper
    [Hijacked()] is false; a [Hijack] call leaves [Status()] and [Size()]
    as they were. *)
Theorem Hijacked_only_by_Hijack {U} (rw : Sink U) (cs : list Call) :
  (do w <- WrapResponseWriter rw; Return (Hijacked (fst (run (target w) cs))))
  = Return false
  /\ forall (w w' : Wrapper U) res,
       Hijack w = Some (w', res) ->
       Status (target w') = Status (target w)
       /\ Size (target w') = Size (target w)
       /\ shape w' = shape w.
Proof.
  split.
  - rewrite WrapResponseWriter_returns. cbn [bind target]. unfold Hijacked.
    by rewrite hijacked_run.
  - intros w w' res. unfold Hijack, Hijack_body.
    destruct (has_method (shape w) MHijack); [|discriminate].
    cbn [rw_responseWriter]. destruct (sink_implements _ Hijacker).
    + destruct (sink_Hijack _ _) as [u err]. intros [= <- _]. by repeat split.
    + intros [= <- _]. by repeat split.
Qed.

Lemma Hijacked_only_by_Hijack_witness :
  exists w w' res,
    WrapResponseWriter http1_sink = Return w
    /\ Hijack w = Some (w', res)
    /\ Status (target w') = 200%Z /\ Size (target w') = 0%Z.
Proof.
  destruct (Hijack_body (new_responseWriter http1_sink)) as [r res] eqn:Hb.
  eexists _, {| shape := responseWriterCloseNotifierFlusherHijacker; target := r |}, res.
  split; [reflexivity|].
  assert (Hh : Hijack {| shape := responseWriterCloseNotifierFlusherHijacker;
                         target := new_responseWriter http1_sink |}
               = Some ({| shape := responseWriterCloseNotifierFlusherHijacker;
                          target := r |}, res)).
  { unfold Hijack. cbn [shape target]. rewrite Hb. reflexivity. }
  split; [exact Hh|].
  destruct (proj2 (Hijacked_only_by_Hijack http1_sink []) _ _ _ Hh)
    as (Hs & Hz & _).
  split; [rewrite Hs | rewrite Hz]; reflexivity.
Defined.

Lemma has_method_chosen_shape (cn fl hj pu : bool) :
  has_method (chosen_shape cn fl hj pu) MHijack = hj
  /\ has_method (chosen_shape cn fl hj pu) MFlush = fl
  /\ has_method (chosen_shape cn fl hj pu) MPush = (if cn && fl then hj else pu).
Proof. by destruct cn, fl, hj, pu. Qed.

(** X4: on a wrapper returned by [WrapResponseWriter], [Flush] and [Hijack]
    never panic at their type assertion, and [Push] does exactly when the
    sink implements CloseNotifier, Flusher and Hijacker but not Pusher: the
    wrapper then has a [Push] method that asserts an interface the sink
    lacks. *)
Theorem optional_calls_on_wrapped {U} (rw : Sink U) (w : Wrapper U)
    (flush : U -> U) (push : U -> string -> U * option error) :
  WrapResponseWriter rw = Return w ->
  (forall w' res, Hijack w = Some (w', res) -> res <> Panics)
  /\ (forall w' res, Flush flush w = Some (w', res) -> res <> Panics)
  /\ (forall url w' res,
        Push push w url = Some (w', res) ->
        (res = Panics <->
         sink_implements rw CloseNotifier && sink_implements rw Flusher
         && sink_implements rw Hijacker && negb (sink_implements rw Pusher)
         = true)).
Proof.
  rewrite WrapResponseWriter_returns. intros [= <-].
  destruct (has_method_chosen_shape (sink_implements rw CloseNotifier)
              (sink_implements rw Flusher) (sink_implements rw Hijacker)
              (sink_implements rw Pusher)) as (Hh & Hf & Hp).
  unfold Hijack, Flush, Push, Hijack_body, Flush_body, Push_body.
  cbn [shape target new_responseWriter rw_responseWriter].
  rewrite Hh, Hf, Hp. split; [|split].
  - intros w' res. destruct (sink_implements rw Hijacker); [|discriminate].
    destruct (sink_Hijack _ _). by intros [= _ <-].
  - intros w' res. destruct (sink_implements rw Flusher); [|discriminate].
    by intros [= _ <-].
  - intros url w' res.
    destruct (sink_implements rw CloseNotifier), (sink_implements rw Flusher),
      (sink_implements rw Hijacker), (sink_implements rw Pusher);
      cbn [andb negb]; try discriminate;
      try destruct (push _ _); intros [= _ <-]; split; (done || discriminate).
Qed.

Lemma optional_calls_on_wrapped_witness :
  exists w w' res,
    WrapResponseWriter http1_sink = Return w
    /\ wrapper_implements w Pusher = true
    /\ Push (fun u _ => (u, None)) w "/style.css" = Some (w', res)
    /\ res = Panics.
Proof.
  eexists _, _, _. split; [reflexivity|]. split; [reflexivity|].
  split; [reflexivity|].
  destruct (optional_calls_on_wrapped http1_sink _ (fun u => u)
              (fun u _ => (u, None)) eq_refl) as (_ & _ & Hp).
  apply (Hp "/style.css" _ _ eq_refl). reflexivity.
Defined.

Lemma sink_counts_app {U} (cs1 cs2 : list Call) : forall rw : Sink U,
  sink_counts rw (cs1 ++ cs2)%list
  = (sink_counts rw cs1 ++ sink_counts (fst (sink_run rw cs1)) cs2)%list.
Proof.
  induction cs1 as [|c cs1 IH]; intros rw; [reflexivity|].
  destruct c as [p|s]; cbn [app sink_counts sink_run].
  - destruct (sink_Write rw (sink_state rw) p) as [u [n err]].
    rewrite IH. by destruct (sink_run (with_state rw u) cs1).
  - apply IH.
Qed.

Lemma sum_Z_app (a b : list Z) : sum_Z (a ++ b)%list = (sum_Z a + sum_Z b)%Z.
Proof.
  induction a as [|x a IH]; cbn [app sum_Z foldr]; [reflexivity|].
  fold (sum_Z (a ++ b)%list). fold (sum_Z a). rewrite IH. lia.
Qed.

Lemma sum_Z_nonneg (a : list Z) : Forall (fun n => 0 <= n)%Z a -> (0 <= sum_Z a)%Z.
Proof.
  induction 1 as [|x a Hx _ IH]; cbn [sum_Z foldr]; [lia|].
  fold (sum_Z a). lia.
Qed.

(** X5: [Size()] never goes down while the sink reports non-negative byte
    counts whose total fits an int64: after a prefix of the calls it is at
    most what it is after all of them. *)
Theorem Size_monotone {U} (rw : Sink U) (cs1 cs2 : list Call) :
  Forall (fun n => 0 <= n)%Z (sink_counts rw (cs1 ++ cs2)%list) ->
  (sum_Z (sink_counts rw (cs1 ++ cs2)%list) < 2 ^ 63)%Z ->
  (Size (fst (run (new_responseWriter rw) cs1))
   <= Size (fst (run (new_responseWriter rw) (cs1 ++ cs2)%list)))%Z.
Proof.
  intros Hpos Hsum. unfold Size.
  rewrite !size_run by reflexivity. rewrite !run_counts.
  cbn [new_responseWriter rw_responseWriter size]. rewrite !Z.add_0_l.
  rewrite sink_counts_app in *. rewrite sum_Z_app in *.
  apply Forall_app in Hpos as [H1 H2].
  apply sum_Z_nonneg in H1, H2.
  rewrite !wrap64_small by lia. lia.
Qed.

Lemma Size_monotone_witness :
  (Size (fst (run (new_responseWriter short_sink)
            [CallWrite [x01; x02; x03; x04]%byte]))
   <= Size (fst (run (new_responseWriter short_sink)
               [CallWrite [x01; x02; x03; x04]%byte; CallWrite [x05]%byte])))%Z.
Proof.
  apply (Size_monotone short_sink [CallWrite [x01; x02; x03; x04]%byte]
           [CallWrite [x05]%byte]).
  - repeat constructor; discriminate.
  - reflexivity.
Defined.

(** ** Go strings: probes into a text given as a concatenation *)

Lemma length_dq : String.length dq = 1.
Proof. reflexivity. Qed.

Ltac text_len :=
  repeat rewrite length_app; repeat rewrite length_cons;
  repeat rewrite length_dq; change (String.length "") with 0; lia.

Ltac text_eq := rewrite ?app_assoc_s; reflexivity.

Lemma index_at (text a : string) (c : ascii) (b : string) (n : nat) :
  text = a +:+ String c b -> n = String.length a -> index text n = Return c.
Proof. intros -> ->. apply index_app. Qed.

Lemma in_range_and_at (p : ascii -> bool) (text a : string) (c : ascii)
    (b : string) (n : nat) :
  text = a +:+ String c b -> n = String.length a ->
  in_range_and p text n = Return (p c).
Proof. intros -> ->. apply in_range_and_app. Qed.

Lemma in_range_and_end (p : ascii -> bool) (text : string) (n : nat) :
  String.length text <= n -> in_range_and p text n = Return false.
Proof.
  intros Hn. unfold in_range_and.
  destruct (Nat.ltb_spec n (String.length text)); [lia | reflexivity].
Qed.

Lemma scan_at (stop : ascii -> bool) (text a m b : string) (n : nat) :
  text = a +:+ m +:+ b -> n = String.length a ->
  string_forall (fun c => negb (stop c)) m = true ->
  (b = "" \/ exists c b', b = String c b' /\ stop c = true) ->
  scan stop text n = String.length a + String.length m.
Proof. intros -> ->. apply scan_app. Qed.

Lemma slice_at (text a m b : string) (lo hi : nat) :
  text = a +:+ m +:+ b -> lo = String.length a ->
  hi = String.length a + String.length m ->
  slice text lo hi = Return m.
Proof. intros -> -> ->. apply slice_middle. Qed.

Lemma scan_past_end (stop : ascii -> bool) (text : string) (n : nat) :
  String.length text <= n -> scan stop text n = n.
Proof.
  intros Hn. unfold scan.
  replace (String.length text - n) with 0 by lia. reflexivity.
Qed.

Lemma eqb_false (a b : nat) : a <> b -> (a =? b)%nat = false.
Proof. apply Nat.eqb_neq. Qed.

(** ** ParsePairs: one iteration on each shape of text *)

Section Iterations.
Context `{GoLib}.
Variables (pre : string) (ci : bool) (pairs : pairs_map).

Lemma more_follows_length (tail : string) :
  more_follows tail -> String.length tail <> 1.
Proof.
  intros [-> | (t & -> & Ht)]; [cbn; lia|].
  apply length_pos in Ht. rewrite length_cons. lia.
Qed.

Lemma more_follows_stop (tail : string) :
  more_follows tail ->
  tail = "" \/ exists c b', tail = String c b' /\ is_semi c = true.
Proof. intros [-> | (t & -> & _)]; [by left | right; by eexists _, _]. Qed.

Lemma plain_name_inv (k : string) :
  plain_name k = true ->
  0 < String.length k
  /\ string_forall (fun c => negb (is_eq_or_semi c)) k = true.
Proof.
  intros Hk. apply andb_true_iff in Hk as [Hk0 Hk]. apply negb_true_iff in Hk0.
  apply String.eqb_neq, length_pos in Hk0. by split.
Qed.

(** A quoted value that is closed, before the end of the text or a [';']
    with more text. *)
Lemma ParsePairs_iter_quoted (k : string) (c : ascii) (rest tail : string) :
  plain_name k = true ->
  string_forall (fun c => negb (is_quote c)) rest = true ->
  more_follows tail ->
  ParsePairs_iter (pre +:+ k +:+ "=" +:+ dq +:+ String c rest +:+ dq +:+ tail)
    ci (String.length pre) pairs
  = Return (Next (String.length pre + String.length k + String.length rest + 5)
              (Some (<[key_of ci k := String c rest]> (default ∅ pairs)))).
Proof.
  intros [Hk0 Hk]%plain_name_inv Hrest Htail.
  pose proof (more_follows_length _ Htail) as Htl.
  set (text := pre +:+ k +:+ "=" +:+ dq +:+ String c rest +:+ dq +:+ tail).
  set (P := String.length pre). set (K := String.length k).
  set (R := String.length rest).
  assert (Hlen : String.length text = P + K + R + 4 + String.length tail)
    by (unfold text, P, K, R; text_len).
  unfold ParsePairs_iter. fold text.
  rewrite (scan_at is_eq_or_semi text pre k ("=" +:+ dq +:+ String c rest +:+ dq +:+ tail))
    by (text_eq || done || (right; by eexists _, _)).
  fold P K. rewrite !eqb_false by lia.
  rewrite (index_at text (pre +:+ k) "=" (dq +:+ String c rest +:+ dq +:+ tail))
    by (unfold text; text_eq || (unfold P, K; text_len)).
  cbn [bind]. change (is_semi "=") with false. cbv iota.
  rewrite (in_range_and_at is_quote text (pre +:+ k +:+ "=") dquote
             (String c rest +:+ dq +:+ tail))
    by (unfold text; text_eq || (unfold P, K; text_len)).
  cbn [bind]. change (is_quote dquote) with true. cbv iota.
  rewrite (scan_at is_quote text (pre +:+ k +:+ "=" +:+ dq +:+ String c "") rest
             (dq +:+ tail))
    by (unfold text; text_eq || (unfold P, K; text_len) || done
        || (right; by eexists _, _)).
  replace (String.length (pre +:+ k +:+ "=" +:+ dq +:+ String c "") + String.length rest)
    with (P + K + R + 3) by (unfold P, K, R; text_len).
  assert (Htr : in_range_and (fun c => negb (is_semi c)) text (P + K + R + 3 + 1)
                = Return false).
  { destruct Htail as [-> | (t & -> & Ht)].
    - apply in_range_and_end. rewrite Hlen. cbn. lia.
    - rewrite (in_range_and_at _ text
                 (pre +:+ k +:+ "=" +:+ dq +:+ String c rest +:+ dq) ";" t)
        by (unfold text; text_eq || (unfold P, K, R; text_len)).
      reflexivity. }
  rewrite Htr. cbn [bind]. unfold ParsePairs_store.
  rewrite !eqb_false by lia.
  rewrite (slice_at text pre k ("=" +:+ dq +:+ String c rest +:+ dq +:+ tail))
    by (text_eq || reflexivity).
  rewrite (slice_at text (pre +:+ k +:+ "=" +:+ dq) (String c rest) (dq +:+ tail))
    by (unfold text; text_eq || (unfold P, K, R; text_len)).
  cbn [bind].
  replace (P + K + R + 3 + 1 + 1) with (P + K + R + 5) by lia.
  unfold key_of. destruct pairs, ci; reflexivity.
Qed.

(** The text goes on, at [s], with ['='] or [';']. *)
Lemma ParsePairs_iter_empty_name (c : ascii) (t : string) :
  is_eq_or_semi c = true ->
  ParsePairs_iter (pre +:+ String c t) ci (String.length pre) pairs
  = Return (Done (None, Some ("empty attribute name at "
                              +:+ FormatInt (Z.of_nat (String.length pre))))).
Proof.
  intros Hc. unfold ParsePairs_iter.
  rewrite (scan_at is_eq_or_semi (pre +:+ String c t) pre "" (String c t))
    by (reflexivity || (right; by eexists _, _)).
  change (String.length "") with 0. rewrite Nat.add_0_r.
  by rewrite Nat.eqb_refl.
Qed.

(** The text ends, from [s] on, with a name and no ['=']. *)
Lemma ParsePairs_iter_no_equals (k : string) :
  plain_name k = true ->
  ParsePairs_iter (pre +:+ k) ci (String.length pre) pairs
  = Return (Done (None, Some "no '=' before end of string")).
Proof.
  intros [Hk0 Hk]%plain_name_inv. unfold ParsePairs_iter.
  rewrite (scan_at is_eq_or_semi (pre +:+ k) pre k "")
    by ((by rewrite ?app_empty_r) || by left).
  rewrite eqb_false by lia. rewrite length_app. by rewrite Nat.eqb_refl.
Qed.

(** A name is followed by [';'] instead of ['=']. *)
Lemma ParsePairs_iter_unexpected_semi (k t : string) :
  plain_name k = true ->
  ParsePairs_iter (pre +:+ k +:+ String ";" t) ci (String.length pre) pairs
  = Return (Done (None, Some ("found unexpected ';' at "
                              +:+ FormatInt (Z.of_nat (String.length pre
                                                       + String.length k))))).
Proof.
  intros [Hk0 Hk]%plain_name_inv. unfold ParsePairs_iter.
  set (text := pre +:+ k +:+ String ";" t).
  assert (Hlen : String.length text
                 = String.length pre + String.length k + 1 + String.length t)
    by (unfold text; text_len).
  rewrite (scan_at is_eq_or_semi text pre k (String ";" t))
    by (reflexivity || done || (right; by eexists _, _)).
  rewrite !eqb_false by lia.
  rewrite (index_at text (pre +:+ k) ";" t) by (unfold text; text_eq || text_len).
  reflexivity.
Qed.

(** A name and ['='] are followed by the end of the text or by [';']. *)
Lemma ParsePairs_iter_empty_value (k tail : string) :
  plain_name k = true ->
  (tail = "" \/ exists t, tail = String ";" t) ->
  ParsePairs_iter (pre +:+ k +:+ "=" +:+ tail) ci (String.length pre) pairs
  = Return (Done (None, Some ("empty attribute value at "
                              +:+ FormatInt (Z.of_nat (String.length pre
                                                       + String.length k + 1))))).
Proof.
  intros [Hk0 Hk]%plain_name_inv Htail. unfold ParsePairs_iter.
  set (text := pre +:+ k +:+ "=" +:+ tail).
  set (P := String.length pre). set (K := String.length k).
  assert (Hlen : String.length text = P + K + 1 + String.length tail)
    by (unfold text, P, K; text_len).
  rewrite (scan_at is_eq_or_semi text pre k ("=" +:+ tail))
    by (reflexivity || done || (right; by eexists _, _)).
  fold P K. rewrite !eqb_false by lia.
  rewrite (index_at text (pre +:+ k) "=" tail)
    by (unfold text; text_eq || (unfold P, K; text_len)).
  cbn [bind]. change (is_semi "=") with false. cbv iota.
  destruct Htail as [-> | (t & ->)].
  - rewrite in_range_and_end by (rewrite Hlen; cbn; lia). cbn [bind].
    rewrite scan_past_end by (rewrite Hlen; cbn; lia).
    unfold ParsePairs_store. by rewrite Nat.eqb_refl.
  - rewrite (in_range_and_at is_quote text (pre +:+ k +:+ "=") ";" t)
      by (unfold text; text_eq || (unfold P, K; text_len)).
    cbn [bind]. change (is_quote ";") with false. cbv iota.
    rewrite (scan_at is_semi text (pre +:+ k +:+ "=") "" (String ";" t))
      by (unfold text; text_eq || (unfold P, K; text_len) || reflexivity
          || (right; by eexists _, _)).
    replace (String.length (pre +:+ k +:+ "=") + String.length "")
      with (P + K + 1) by (unfold P, K; text_len).
    unfold ParsePairs_store. by rewrite Nat.eqb_refl.
Qed.

(** A closed quoted value is followed by a character other than [';']. *)
Lemma ParsePairs_iter_trailing_data (k : string) (c : ascii) (rest : string)
    (x : ascii) (t : string) :
  plain_name k = true ->
  string_forall (fun c => negb (is_quote c)) rest = true ->
  is_semi x = false ->
  ParsePairs_iter
    (pre +:+ k +:+ "=" +:+ dq +:+ String c rest +:+ dq +:+ String x t)
    ci (String.length pre) pairs
  = Return (Done (None, Some ("trailing data after quoted string at "
                              +:+ FormatInt (Z.of_nat (String.length pre
                                                       + String.length k
                                                       + String.length rest + 4))))).
Proof.
  intros [Hk0 Hk]%plain_name_inv Hrest Hx.
  set (text := pre +:+ k +:+ "=" +:+ dq +:+ String c rest +:+ dq +:+ String x t).
  set (P := String.length pre). set (K := String.length k).
  set (R := String.length rest).
  assert (Hlen : String.length text = P + K + R + 5 + String.length t)
    by (unfold text, P, K, R; text_len).
  unfold ParsePairs_iter. fold text.
  rewrite (scan_at is_eq_or_semi text pre k
             ("=" +:+ dq +:+ String c rest +:+ dq +:+ String x t))
    by (text_eq || done || (right; by eexists _, _)).
  fold P K. rewrite !eqb_false by lia.
  rewrite (index_at text (pre +:+ k) "=" (dq +:+ String c rest +:+ dq +:+ String x t))
    by (unfold text; text_eq || (unfold P, K; text_len)).
  cbn [bind]. change (is_semi "=") with false. cbv iota.
  rewrite (in_range_and_at is_quote text (pre +:+ k +:+ "=") dquote
             (String c rest +:+ dq +:+ String x t))
    by (unfold text; text_eq || (unfold P, K; text_len)).
  cbn [bind]. change (is_quote dquote) with true. cbv iota.
  rewrite (scan_at is_quote text (pre +:+ k +:+ "=" +:+ dq +:+ String c "") rest
             (dq +:+ String x t))
    by (unfold text; text_eq || (unfold P, K; text_len) || done
        || (right; by eexists _, _)).
  replace (String.length (pre +:+ k +:+ "=" +:+ dq +:+ String c "") + String.length rest)
    with (P + K + R + 3) by (unfold P, K, R; text_len).
  rewrite (in_range_and_at _ text
             (pre +:+ k +:+ "=" +:+ dq +:+ String c rest +:+ dq) x t)
    by (unfold text; text_eq || (unfold P, K, R; text_len)).
  cbn [bind]. rewrite Hx. cbn [negb].
  replace (P + K + R + 3 + 1) with (P + K + R + 4) by lia. reflexivity.
Qed.

(** A plain pair is followed by a [';'] that ends the text. *)
Lemma ParsePairs_iter_plain_trailing_semi (k v : string) :
  plain_name k = true -> plain_value v = true ->
  ParsePairs_iter (pre +:+ k +:+ "=" +:+ v +:+ ";") ci (String.length pre) pairs
  = Return (Done (None, Some ("trailing ';' at "
                              +:+ FormatInt (Z.of_nat (String.length
                                  (pre +:+ k +:+ "=" +:+ v +:+ ";")))))).
Proof.
  intros [Hk0 Hk]%plain_name_inv Hv.
  apply andb_true_iff in Hv as [Hv0 Hv].
  destruct v as [|v0 v']; [discriminate|]. apply negb_true_iff in Hv0.
  set (text := pre +:+ k +:+ "=" +:+ String v0 v' +:+ ";").
  set (P := String.length pre). set (K := String.length k).
  set (V := String.length v').
  assert (Hlen : String.length text = P + K + V + 3)
    by (unfold text, P, K, V; text_len).
  unfold ParsePairs_iter.
  rewrite (scan_at is_eq_or_semi text pre k ("=" +:+ String v0 v' +:+ ";"))
    by (reflexivity || done || (right; by eexists _, _)).
  fold P K. rewrite !eqb_false by lia.
  rewrite (index_at text (pre +:+ k) "=" (String v0 v' +:+ ";"))
    by (unfold text; text_eq || (unfold P, K; text_len)).
  cbn [bind]. change (is_semi "=") with false. cbv iota.
  rewrite (in_range_and_at is_quote text (pre +:+ k +:+ "=") v0 (v' +:+ ";"))
    by (unfold text; text_eq || (unfold P, K; text_len)).
  cbn [bind]. rewrite Hv0.
  rewrite (scan_at is_semi text (pre +:+ k +:+ "=") (String v0 v') ";")
    by (unfold text; text_eq || (unfold P, K; text_len) || done
        || (right; by eexists _, _)).
  replace (String.length (pre +:+ k +:+ "=") + String.length (String v0 v'))
    with (P + K + V + 2) by (unfold P, K, V; text_len).
  unfold ParsePairs_store. rewrite eqb_false by lia.
  replace (P + K + V + 2 + 1) with (String.length text) by lia.
  by rewrite Nat.eqb_refl.
Qed.

(** A quoted pair is followed by a [';'] that ends the text. *)
Lemma ParsePairs_iter_quoted_trailing_semi (k : string) (c : ascii)
    (rest : string) :
  plain_name k = true ->
  string_forall (fun c => negb (is_quote c)) rest = true ->
  ParsePairs_iter (pre +:+ k +:+ "=" +:+ dq +:+ String c rest +:+ dq +:+ ";")
    ci (String.length pre) pairs
  = Return (Done (None, Some ("trailing ';' at "
                              +:+ FormatInt (Z.of_nat (String.length
                                  (pre +:+ k +:+ "=" +:+ dq +:+ String c rest
                                   +:+ dq +:+ ";")))))).
Proof.
  intros [Hk0 Hk]%plain_name_inv Hrest.
  set (text := pre +:+ k +:+ "=" +:+ dq +:+ String c rest +:+ dq +:+ ";").
  set (P := String.length pre). set (K := String.length k).
  set (R := String.length rest).
  assert (Hlen : String.length text = P + K + R + 5)
    by (unfold text, P, K, R; text_len).
  unfold ParsePairs_iter.
  rewrite (scan_at is_eq_or_semi text pre k
             ("=" +:+ dq +:+ String c rest +:+ dq +:+ ";"))
    by (text_eq || done || (right; by eexists _, _)).
  fold P K. rewrite !eqb_false by lia.
  rewrite (index_at text (pre +:+ k) "=" (dq +:+ String c rest +:+ dq +:+ ";"))
    by (unfold text; text_eq || (unfold P, K; text_len)).
  cbn [bind]. change (is_semi "=") with false. cbv iota.
  rewrite (in_range_and_at is_quote text (pre +:+ k +:+ "=") dquote
             (String c rest +:+ dq +:+ ";"))
    by (unfold text; text_eq || (unfold P, K; text_len)).
  cbn [bind]. change (is_quote dquote) with true. cbv iota.
  rewrite (scan_at is_quote text (pre +:+ k +:+ "=" +:+ dq +:+ String c "") rest
             (dq +:+ ";"))
    by (unfold text; text_eq || (unfold P, K; text_len) || done
        || (right; by eexists _, _)).
  replace (String.length (pre +:+ k +:+ "=" +:+ dq +:+ String c "") + String.length rest)
    with (P + K + R + 3) by (unfold P, K, R; text_len).
  rewrite (in_range_and_at _ text
             (pre +:+ k +:+ "=" +:+ dq +:+ String c rest +:+ dq) ";" "")
    by (unfold text; text_eq || (unfold P, K, R; text_len)).
  cbn [bind]. change (negb (is_semi ";")) with false. cbv iota.
  unfold ParsePairs_store. rewrite eqb_false by lia.
  replace (P + K + R + 3 + 1 + 1) with (String.length text) by lia.
  by rewrite Nat.eqb_refl.
Qed.

End Iterations.

(** ** ParsePairs: texts of plain and quoted pairs *)

Lemma render_item_length (it : item) :
  item_ok it = true -> 0 < String.length (render_item it).
Proof.
  intros Hit. apply andb_true_iff in Hit as [[Hk _]%plain_name_inv _].
  unfold render_item. rewrite length_app. lia.
Qed.

(** One iteration over a well-formed item. *)
Lemma ParsePairs_iter_item `{GoLib} (pre : string) (it : item) (tail : string)
    (ci : bool) (pairs : pairs_map) :
  item_ok it = true -> more_follows tail ->
  ParsePairs_iter (pre +:+ render_item it +:+ tail) ci (String.length pre) pairs
  = Return (Next (String.length pre + String.length (render_item it) + 1)
              (Some (<[key_of ci (item_name it) := item_value it]>
                       (default ∅ pairs)))).
Proof.
  destruct it as [k v q]. unfold item_ok, render_item. cbn [item_name item_value item_quoted].
  intros [Hk Hv]%andb_true_iff Htail. destruct q.
  - destruct v as [|c rest]; [discriminate|]. cbn [quoted_value] in Hv.
    replace (pre +:+ (k +:+ "=" +:+ dq +:+ String c rest +:+ dq) +:+ tail)
      with (pre +:+ k +:+ "=" +:+ dq +:+ String c rest +:+ dq +:+ tail)
      by (symmetry; text_eq).
    rewrite ParsePairs_iter_quoted by done. do 2 f_equal. text_len.
  - replace (pre +:+ (k +:+ "=" +:+ v) +:+ tail)
      with (pre +:+ k +:+ "=" +:+ v +:+ tail) by (symmetry; text_eq).
    rewrite ParsePairs_iter_plain by done. do 2 f_equal. text_len.
Qed.

(** The loop runs through a prefix of well-formed items, whatever
    follows. *)
Lemma ParsePairs_loop_items `{GoLib} (ci : bool) (its : list item) :
  forall pre tail pairs fuel,
    forallb item_ok its = true -> tail <> "" ->
    String.length (render_items its +:+ tail) <= fuel ->
    ParsePairs_loop fuel (pre +:+ render_items its +:+ tail) ci
      (String.length pre) pairs
    = ParsePairs_loop (String.length tail)
        (pre +:+ render_items its +:+ tail) ci
        (String.length pre + String.length (render_items its))
        (store_items_prefix ci pairs its).
Proof.
  induction its as [|it rest IH]; intros pre tail pairs fuel Hall Htail Hfuel.
  - cbn [render_items store_items_prefix] in *.
    change ("" +:+ tail) with tail in *. rewrite Nat.add_0_r.
    apply ParsePairs_loop_fuel; rewrite length_app; lia.
  - cbn [forallb] in Hall. apply andb_true_iff in Hall as [Hit Hrest].
    pose proof (render_item_length _ Hit) as Hpos.
    cbn [render_items] in *.
    set (P := render_items rest) in *. set (I := render_item it) in *.
    assert (HPt : P +:+ tail <> "").
    { apply nonempty_of_length. apply length_pos in Htail.
      rewrite length_app. lia. }
    replace (pre +:+ (I +:+ ";" +:+ P) +:+ tail)
      with (pre +:+ I +:+ String ";" (P +:+ tail)) by (symmetry; text_eq).
    rewrite !length_app in Hfuel. change (String.length ";") with 1 in Hfuel.
    destruct fuel as [|fuel]; [lia|].
    rewrite ParsePairs_loop_S.
    destruct (Nat.ltb_spec (String.length pre)
                (String.length (pre +:+ I +:+ String ";" (P +:+ tail))))
      as [_|Hge]; [|rewrite !length_app in Hge; lia].
    unfold I at 1. rewrite ParsePairs_iter_item by (done || (right; by eexists)).
    cbn [bind]. fold I.
    replace (pre +:+ I +:+ String ";" (P +:+ tail))
      with ((pre +:+ I +:+ ";") +:+ P +:+ tail) by text_eq.
    replace (String.length pre + String.length I + 1)
      with (String.length (pre +:+ I +:+ ";")) by text_len.
    unfold P. rewrite (IH _ tail _ fuel);
      [| done | done | fold P; rewrite length_app; lia].
    fold P. f_equal; [text_len|].
    destruct rest; reflexivity.
Qed.

Lemma store_items_prefix_None `{GoLib} (ci : bool) (its : list item) :
  default ∅ (store_items_prefix ci None its) = store_items ci ∅ its.
Proof. destruct its; reflexivity. Qed.

Lemma store_items_snoc `{GoLib} (ci : bool) (m : gmap string string)
    (its : list item) (it : item) :
  store_items ci m (its ++ [it])%list
  = <[key_of ci (item_name it) := item_value it]> (store_items ci m its).
Proof. unfold store_items. by rewrite foldl_app. Qed.

Lemma Join_render_snoc (its : list item) (it : item) :
  Join (map render_item (its ++ [it])%list) ";"
  = render_items its +:+ render_item it.
Proof.
  induction its as [|x its IH]; [reflexivity|].
  cbn [app map render_items].
  destruct (map render_item (its ++ [it])%list) as [|y l] eqn:E.
  { destruct its; discriminate. }
  rewrite Join_cons_cons, IH. symmetry. text_eq.
Qed.

(** The state of the loop after the items of a prefix, for a text that goes
    on with [tail]. *)
Lemma ParsePairs_after_items `{GoLib} (ci : bool) (its : list item)
    (tail : string) :
  forallb item_ok its = true -> tail <> "" ->
  ParsePairs (render_items its +:+ tail) ci
  = do it <- ParsePairs_iter (render_items its +:+ tail) ci
               (String.length (render_items its))
               (store_items_prefix ci None its);
    match it with
    | Done ret => Return ret
    | Next s' pairs' =>
        ParsePairs_loop (String.length tail) (render_items its +:+ tail) ci
          s' pairs'
    end.
Proof.
  intros Hall Htail. unfold ParsePairs.
  rewrite (ParsePairs_loop_items ci its "" tail None) by (done || lia).
  change ("" +:+ render_items its +:+ tail) with (render_items its +:+ tail).
  change (String.length "" + String.length (render_items its))
    with (String.length (render_items its)).
  pose proof (length_pos _ Htail) as Hpos.
  rewrite (ParsePairs_loop_fuel _ _ (String.length tail) (S (String.length tail)))
    by (rewrite length_app; lia).
  rewrite ParsePairs_loop_S.
  destruct (Nat.ltb_spec (String.length (render_items its))
              (String.length (render_items its +:+ tail))) as [_|Hge];
    [reflexivity | rewrite length_app in Hge; lia].
Qed.

(** X6: on every text made of well-formed pairs separated by [';'], plain or
    quoted, [ParsePairs] returns the map that stores them in order, the
    value of a quoted pair being the text between its quotes, which may
    hold [';'] and ['=']. *)
Theorem ParsePairs_well_formed `{GoLib} (ci : bool) (its : list item) :
  its <> [] -> forallb item_ok its = true ->
  ParsePairs (Join (map render_item its) ";") ci
  = Return (Some (store_items ci ∅ its), None).
Proof.
  intros Hne Hall.
  destruct (exists_last Hne) as (init & it & ->).
  rewrite forallb_app in Hall. apply andb_true_iff in Hall as [Hinit Hit].
  cbn [forallb] in Hit. rewrite andb_true_r in Hit.
  rewrite Join_render_snoc.
  pose proof (render_item_length _ Hit) as Hpos.
  rewrite ParsePairs_after_items by (done || by apply nonempty_of_length).
  rewrite <- (app_empty_r (render_item it)) at 1.
  rewrite ParsePairs_iter_item by (done || by left). cbn [bind].
  rewrite ParsePairs_loop_end by (rewrite length_app; lia).
  by rewrite store_items_prefix_None, store_items_snoc.
Qed.

(** ** ParsePairs: the error of each malformed continuation *)

(** X7: after any well-formed pairs, a text that goes on with ['='] or [';']
    is an empty-name error at that position; a name that runs to the end of
    the text is the no-['='] error; a name followed by [';'] is the
    unexpected-[';'] error at the position of the [';'].  No map is
    returned. *)
Theorem ParsePairs_name_errors `{GoLib} (ci : bool) (its : list item) :
  forallb item_ok its = true ->
  (forall c t,
     is_eq_or_semi c = true ->
     ParsePairs (render_items its +:+ String c t) ci
     = Return (None, Some ("empty attribute name at "
                           +:+ FormatInt (Z.of_nat (String.length (render_items its))))))
  /\ (forall k,
        plain_name k = true ->
        ParsePairs (render_items its +:+ k) ci
        = Return (None, Some "no '=' before end of string"))
  /\ (forall k t,
        plain_name k = true ->
        ParsePairs (render_items its +:+ k +:+ String ";" t) ci
        = Return (None, Some ("found unexpected ';' at "
                              +:+ FormatInt (Z.of_nat (String.length (render_items its)
                                                       + String.length k))))).
Proof.
  intros Hall. split; [|split].
  - intros c t Hc. rewrite ParsePairs_after_items by done.
    by rewrite ParsePairs_iter_empty_name.
  - intros k Hk. pose proof (plain_name_inv _ Hk) as [Hk0 _].
    rewrite ParsePairs_after_items by (done || by apply nonempty_of_length).
    by rewrite ParsePairs_iter_no_equals.
  - intros k t Hk. pose proof (plain_name_inv _ Hk) as [Hk0 _].
    rewrite ParsePairs_after_items
      by (done || (apply nonempty_of_length; rewrite length_app; lia)).
    by rewrite ParsePairs_iter_unexpected_semi.
Qed.

Lemma ParsePairs_name_errors_witness :
  ParsePairs (H := example_lib) "a=1;=2" false
  = Return (None, Some "empty attribute name at 4")
  /\ ParsePairs (H := example_lib) "a=1;bc" false
     = Return (None, Some "no '=' before end of string")
  /\ ParsePairs (H := example_lib) "a=1;bc;d=2" false
     = Return (None, Some "found unexpected ';' at 6").
Proof.
  destruct (ParsePairs_name_errors (H := example_lib) false
              [{| item_name := "a"; item_value := "1"; item_quoted := false |}]
              eq_refl) as (H1 & H2 & H3).
  split; [|split].
  - apply (H1 "="%char "2"). reflexivity.
  - apply (H2 "bc"). reflexivity.
  - apply (H3 "bc" "d=2"). reflexivity.
Defined.

(** X8: after any well-formed pairs, a name and ['='] followed by the end of
    the text or by [';'] is an empty-value error at the position after the
    ['=']; a closed quoted value followed by anything but [';'] is a
    trailing-data error at the position after the closing quote. *)
Theorem ParsePairs_value_errors `{GoLib} (ci : bool) (its : list item) :
  forallb item_ok its = true ->
  (forall k tail,
     plain_name k = true ->
     (tail = "" \/ exists t, tail = String ";" t) ->
     ParsePairs (render_items its +:+ k +:+ "=" +:+ tail) ci
     = Return (None, Some ("empty attribute value at "
                           +:+ FormatInt (Z.of_nat (String.length (render_items its)
                                                    + String.length k + 1)))))
  /\ (forall k c rest x t,
        plain_name k = true ->
        string_forall (fun c => negb (is_quote c)) rest = true ->
        is_semi x = false ->
        ParsePairs (render_items its +:+ k +:+ "=" +:+ dq +:+ String c rest
                    +:+ dq +:+ String x t) ci
        = Return (None, Some ("trailing data after quoted string at "
                              +:+ FormatInt (Z.of_nat (String.length (render_items its)
                                                       + String.length k
                                                       + String.length rest + 4))))).
Proof.
  intros Hall. split.
  - intros k tail Hk Htail. pose proof (plain_name_inv _ Hk) as [Hk0 _].
    rewrite ParsePairs_after_items
      by (done || (apply nonempty_of_length; rewrite length_app; lia)).
    by rewrite ParsePairs_iter_empty_value.
  - intros k c rest x t Hk Hrest Hx. pose proof (plain_name_inv _ Hk) as [Hk0 _].
    rewrite ParsePairs_after_items
      by (done || (apply nonempty_of_length; rewrite length_app; lia)).
    by rewrite ParsePairs_iter_trailing_data.
Qed.

Lemma ParsePairs_value_errors_witness :
  ParsePairs (H := example_lib) "a=1;b=;c=3" false
  = Return (None, Some "empty attribute value at 6")
  /\ ParsePairs (H := example_lib) ("a=" +:+ dq +:+ "x" +:+ dq +:+ "y") false
     = Return (None, Some "trailing data after quoted string at 5").
Proof.
  split.
  - apply (proj1 (ParsePairs_value_errors (H := example_lib) false
                    [{| item_name := "a"; item_value := "1"; item_quoted := false |}]
                    eq_refl) "b" ";c=3"); [reflexivity | right; by eexists].
  - apply (proj2 (ParsePairs_value_errors (H := example_lib) false [] eq_refl)
             "a" "x"%char "" "y"%char ""); reflexivity.
Defined.

Lemma render_items_snoc (its : list item) (it : item) :
  render_items (its ++ [it])%list = render_items its +:+ render_item it +:+ ";".
Proof.
  induction its as [|x its IH]; cbn [app render_items].
  - by rewrite app_empty_r.
  - rewrite IH. symmetry. text_eq.
Qed.

(** X9: a text of well-formed pairs that ends with [';'] is a
    trailing-[';'] error at the length of the text. *)
Theorem ParsePairs_trailing_semi_error `{GoLib} (ci : bool) (its : list item) :
  its <> [] -> forallb item_ok its = true ->
  ParsePairs (render_items its) ci
  = Return (None, Some ("trailing ';' at "
                        +:+ FormatInt (Z.of_nat (String.length (render_items its))))).
Proof.
  intros Hne Hall.
  destruct (exists_last Hne) as (init & it & ->).
  rewrite forallb_app in Hall. apply andb_true_iff in Hall as [Hinit Hit].
  cbn [forallb] in Hit. rewrite andb_true_r in Hit.
  rewrite render_items_snoc.
  pose proof (render_item_length _ Hit) as Hpos.
  rewrite ParsePairs_after_items
    by (done || (apply nonempty_of_length; rewrite length_app; lia)).
  destruct it as [k v q]. unfold item_ok, render_item in *.
  cbn [item_name item_value item_quoted] in *.
  apply andb_true_iff in Hit as [Hk Hv]. destruct q.
  - destruct v as [|c rest]; [discriminate|]. cbn [quoted_value] in Hv.
    replace (render_items init +:+ (k +:+ "=" +:+ dq +:+ String c rest +:+ dq) +:+ ";")
      with (render_items init +:+ k +:+ "=" +:+ dq +:+ String c rest +:+ dq +:+ ";")
      by (symmetry; text_eq).
    by rewrite ParsePairs_iter_quoted_trailing_semi.
  - replace (render_items init +:+ (k +:+ "=" +:+ v) +:+ ";")
      with (render_items init +:+ k +:+ "=" +:+ v +:+ ";")
      by (symmetry; text_eq).
    by rewrite ParsePairs_iter_plain_trailing_semi.
Qed.

Lemma ParsePairs_trailing_semi_error_witness :
  ParsePairs (H := example_lib) "a=1;b=2;" true
  = Return (None, Some "trailing ';' at 8").
Proof.
  apply (ParsePairs_trailing_semi_error (H := example_lib) true
           [{| item_name := "a"; item_value := "1"; item_quoted := false |};
            {| item_name := "b"; item_value := "2"; item_quoted := false |}]);
    [discriminate | reflexivity].
Defined.

(** ** ParsePairs: what every returned map satisfies *)

Lemma scan_loop_between (stop : ascii -> bool) (text : string) :
  forall fuel i k,
    i <= k < scan_loop stop text fuel i ->
    exists c, String.get k text = Some c /\ stop c = false.
Proof.
  induction fuel as [|fuel IH]; intros i k Hk; cbn [scan_loop] in Hk; [lia|].
  destruct (String.get i text) as [c|] eqn:Hget; [|lia].
  destruct (stop c) eqn:Hc; [lia|].
  destruct (decide (k = i)) as [->|Hne]; [by exists c|].
  apply (IH (S i)). lia.
Qed.

Lemma scan_between (stop : ascii -> bool) (text : string) (i k : nat) :
  i <= k < scan stop text i ->
  exists c, String.get k text = Some c /\ stop c = false.
Proof. apply scan_loop_between. Qed.

Lemma string_forall_intro (p : ascii -> bool) (t : string) :
  (forall j c, String.get j t = Some c -> p c = true) ->
  string_forall p t = true.
Proof.
  induction t as [|x t IH]; intros Hall; [reflexivity|].
  cbn [string_forall]. apply andb_true_iff. split.
  - by apply (Hall 0).
  - apply IH. intros j c Hj. by apply (Hall (S j)).
Qed.

Lemma slice_get (text : string) (lo hi : nat) (t : string) (j : nat) :
  slice text lo hi = Return t -> j < hi - lo ->
  String.get j t = String.get (lo + j) text.
Proof.
  unfold slice. destruct (_ && _); [|discriminate]. intros [= <-] Hj.
  rewrite (Nat.add_comm lo j). by apply substring_correct1.
Qed.

Lemma slice_get_beyond (text : string) (lo hi : nat) (t : string) (j : nat) :
  slice text lo hi = Return t -> hi - lo <= j -> String.get j t = None.
Proof.
  unfold slice. destruct (_ && _); [|discriminate]. intros [= <-] Hj.
  by apply substring_correct2.
Qed.

Lemma slice_bounds (text : string) (lo hi : nat) (t : string) :
  slice text lo hi = Return t -> lo <= hi <= String.length text.
Proof.
  unfold slice.
  destruct (Nat.leb_spec lo hi), (Nat.leb_spec hi (String.length text));
    cbn [andb]; (discriminate || lia).
Qed.

Lemma slice_nonempty (text : string) (lo hi : nat) (t : string) :
  slice text lo hi = Return t -> lo <> hi -> t <> "".
Proof.
  intros Hs Hne. pose proof (slice_bounds _ _ _ _ Hs) as Hb.
  intros ->. pose proof (slice_get _ _ _ _ 0 Hs) as Hg.
  rewrite Nat.add_0_r in Hg.
  assert (is_Some (String.get lo text)) as [c Hc]
    by (apply get_lt_length; lia).
  rewrite Hc in Hg. by specialize (Hg ltac:(lia)).
Qed.

(** What an iteration that goes on has stored. *)
Lemma ParsePairs_iter_Next `{GoLib} (text : string) (ci : bool) (s s' : nat)
    (pairs pairs' : pairs_map) :
  ParsePairs_iter text ci s pairs = Return (Next s' pairs') ->
  exists name value,
    plain_name name = true /\ value <> ""
    /\ pairs' = Some (<[key_of ci name := value]> (default ∅ pairs)).
Proof.
  unfold ParsePairs_iter, ParsePairs_store, bind.
  set (ne := scan is_eq_or_semi text s).
  destruct (Nat.eqb_spec ne s) as [|Hne]; [discriminate|].
  destruct (ne =? String.length text)%nat; [discriminate|].
  destruct (index text ne) as [c|]; [|discriminate].
  destruct (is_semi c); [discriminate|].
  assert (Hname : forall name, slice text s ne = Return name ->
                               plain_name name = true).
  { intros name Hs. pose proof (slice_bounds _ _ _ _ Hs) as Hb.
    unfold plain_name. apply andb_true_iff. split.
    - apply negb_true_iff, String.eqb_neq. by eapply slice_nonempty.
    - apply string_forall_intro. intros j x Hj.
      destruct (Nat.lt_ge_cases j (ne - s)) as [Hlt|Hge].
      + rewrite (slice_get _ _ _ _ _ Hs Hlt) in Hj.
        destruct (scan_between is_eq_or_semi text s (s + j)) as (y & Hy & Hstop);
          [fold ne; lia|].
        rewrite Hy in Hj. inversion Hj; subst. by rewrite Hstop.
      + rewrite (slice_get_beyond _ _ _ _ _ Hs Hge) in Hj. discriminate. }
  destruct (in_range_and is_quote text (ne + 1)) as [[]|]; [| |discriminate].
  - destruct (in_range_and _ text _) as [[]|]; [discriminate| |discriminate].
    destruct (Nat.eqb_spec (ne + 1 + 1) (scan is_quote text (ne + 1 + 2)));
      [discriminate|].
    destruct (_ =? String.length text)%nat; [discriminate|].
    destruct (slice text s ne) as [name|] eqn:Hs; [|discriminate].
    destruct (slice text (ne + 1 + 1) _) as [value|] eqn:Hv; [|discriminate].
    intros Hret. exists name, value. split; [by apply Hname|].
    split; [by eapply slice_nonempty|].
    unfold key_of. destruct ci, pairs; by inversion Hret.
  - destruct (Nat.eqb_spec (ne + 1) (scan is_semi text (ne + 1)));
      [discriminate|].
    destruct (_ =? String.length text)%nat; [discriminate|].
    destruct (slice text s ne) as [name|] eqn:Hs; [|discriminate].
    destruct (slice text (ne + 1) _) as [value|] eqn:Hv; [|discriminate].
    intros Hret. exists name, value. split; [by apply Hname|].
    split; [by eapply slice_nonempty|].
    unfold key_of. destruct ci, pairs; by inversion Hret.
Qed.

Lemma ParsePairs_loop_entries `{GoLib} (text : string) (ci : bool) :
  forall fuel s pairs m err,
    entries_ok ci pairs ->
    ParsePairs_loop fuel text ci s pairs = Return (m, err) ->
    entries_ok ci m.
Proof.
  induction fuel as [|fuel IH]; intros s pairs m err Hok Hl.
  - by inversion Hl; subst.
  - rewrite ParsePairs_loop_S in Hl.
    destruct (s <? String.length text)%nat; [|by inversion Hl; subst].
    destruct (ParsePairs_iter text ci s pairs) as [[s' pairs'|ret]|] eqn:Hit;
      cbn [bind] in Hl; [| |discriminate].
    + refine (IH _ _ _ _ _ Hl).
      apply ParsePairs_iter_Next in Hit as (name & value & Hn & Hv & ->).
      intros g k v [= <-] Hlook.
      destruct (decide (key_of ci name = k)) as [<-|Hk].
      * rewrite lookup_insert_eq in Hlook. inversion Hlook; subst.
        split; [done|]. by intros ->.
      * rewrite lookup_insert_ne in Hlook by done.
        destruct pairs as [g0|]; cbn [default from_option id] in Hlook;
          [by apply (Hok g0)|].
        by rewrite lookup_empty in Hlook.
    + apply ParsePairs_iter_errors in Hit as (n & e & -> & _).
      inversion Hl; subst. by intros g k v.
Qed.

(** X10: in every map [ParsePairs] returns no value is the empty string, and
    without case folding every key is a non-empty name free of ['='] and
    [';'].  So looking a name up gives the empty string exactly when the
    name is absent. *)
Theorem ParsePairs_entries `{GoLib} (text : string) (ci : bool)
    (g : gmap string string) (err : option error) (k v : string) :
  ParsePairs text ci = Return (Some g, err) ->
  g !! k = Some v ->
  v <> "" /\ (ci = false -> plain_name k = true).
Proof.
  intros Hp Hl.
  apply (ParsePairs_loop_entries text ci _ _ None (Some g) err
           ltac:(by intros ? ? ? ?) Hp g k v eq_refl Hl).
Qed.

Lemma ParsePairs_entries_witness :
  "1" <> "" /\ (false = false -> plain_name "a" = true).
Proof.
  apply (ParsePairs_entries (H := example_lib) "a=1;b=2" false
           (<[ "b" := "2" ]> (<[ "a" := "1" ]> ∅)) None "a" "1");
    reflexivity.
Defined.

(** ** ParsePairs: nil map and empty map *)

Lemma ParsePairs_loop_nonempty `{GoLib} (text : string) (ci : bool) :
  forall fuel s pairs m,
    ParsePairs_loop fuel text ci s pairs = Return (m, None) ->
    nonempty_map pairs \/ (0 < fuel /\ s < String.length text) ->
    nonempty_map m.
Proof.
  induction fuel as [|fuel IH]; intros s pairs m Hl Hcase.
  - inversion Hl; subst. destruct Hcase as [|[? _]]; [done | lia].
  - rewrite ParsePairs_loop_S in Hl.
    destruct (Nat.ltb_spec s (String.length text)).
    + destruct (ParsePairs_iter text ci s pairs) as [[s' pairs'|ret]|] eqn:Hit;
        cbn [bind] in Hl; [| |discriminate].
      * apply (IH _ _ _ Hl). left.
        apply ParsePairs_iter_Next in Hit as (name & value & _ & _ & ->).
        eexists. split; [reflexivity|]. apply insert_non_empty.
      * apply ParsePairs_iter_errors in Hit as (n & e & -> & _). discriminate.
    + inversion Hl; subst. destruct Hcase as [|[_ ?]]; [done | lia].
Qed.

(** X11: a successful parse returns the nil map for the empty text and a
    map with at least one entry for every other text; it never returns an
    empty non-nil map. *)
Theorem ParsePairs_nil_iff_empty `{GoLib} (text : string) (ci : bool)
    (m : pairs_map) :
  ParsePairs text ci = Return (m, None) ->
  (text = "" /\ m = None) \/ (text <> "" /\ exists g, m = Some g /\ g <> ∅).
Proof.
  intros Hp. destruct text as [|c t].
  - left. split; [done|]. by inversion Hp.
  - right. split; [done|].
    apply (ParsePairs_loop_nonempty _ _ _ _ _ _ Hp). right.
    rewrite length_cons. lia.
Qed.

Lemma ParsePairs_nil_iff_empty_witness :
  ("a=1" = "" /\ Some (<[ "a" := "1" ]> (∅ : gmap string string)) = None)
  \/ ("a=1" <> ""
      /\ exists g, Some (<[ "a" := "1" ]> (∅ : gmap string string)) = Some g
                   /\ g <> ∅).
Proof.
  apply (ParsePairs_nil_iff_empty (H := example_lib) "a=1" true).
  reflexivity.
Defined.

(** ** ParsePairs: what the case flag changes *)

Lemma keys_of_insert (p : pairs_map) (k v : string) :
  keys_of (Some (<[k := v]> (default ∅ p))) = {[k]} ∪ keys_of p.
Proof.
  destruct p as [g|]; cbn [keys_of default from_option id];
    rewrite dom_insert_L; [reflexivity|]. by rewrite dom_empty_L.
Qed.

Lemma ParsePairs_iter_ci `{GoLib} (text : string) (s : nat) (p1 p2 : pairs_map) :
  keys_of p1 = set_map ToLower (keys_of p2) ->
  same_step (ParsePairs_iter text true s p1) (ParsePairs_iter text false s p2).
Proof.
  intros Hkeys. unfold ParsePairs_iter, ParsePairs_store, bind, same_step.
  assert (Hins : forall name value,
            keys_of (Some (<[ToLower name := value]>
                             match p1 with Some g => g | None => ∅ end))
            = set_map ToLower
                (keys_of (Some (<[name := value]>
                                  match p2 with Some g => g | None => ∅ end)))).
  { intros name value.
    change (match p1 with Some g => g | None => ∅ end) with (default ∅ p1).
    change (match p2 with Some g => g | None => ∅ end) with (default ∅ p2).
    rewrite !keys_of_insert, Hkeys.
    by rewrite set_map_union_L, set_map_singleton_L. }
  repeat match goal with
         | |- context [match ?x with _ => _ end] =>
             lazymatch x with
             | context [p1] => fail
             | context [p2] => fail
             | _ => destruct x eqn:?
             end
         end; try done; by split.
Qed.

Lemma ParsePairs_loop_ci `{GoLib} (text : string) :
  forall fuel s p1 p2,
    keys_of p1 = set_map ToLower (keys_of p2) ->
    same_result (ParsePairs_loop fuel text true s p1)
      (ParsePairs_loop fuel text false s p2).
Proof.
  induction fuel as [|fuel IH]; intros s p1 p2 Hkeys.
  - by split.
  - rewrite !ParsePairs_loop_S.
    destruct (s <? String.length text)%nat; [|by split].
    pose proof (ParsePairs_iter_ci text s p1 p2 Hkeys) as Hstep.
    unfold same_step in Hstep.
    destruct (ParsePairs_iter text true s p1) as [[s1 q1|r1]|],
      (ParsePairs_iter text false s p2) as [[s2 q2|r2]|];
      cbn [bind]; try done.
    + destruct Hstep as [<- Hq]. by apply IH.
    + destruct Hstep as [<- Hnone]. destruct r1 as [m e]. cbn [fst] in Hnone.
      subst m. by split.
Qed.

(** X12: the case flag changes the keys and nothing else.  With and without
    case folding [ParsePairs] panics on the same texts and returns the same
    error on the same texts, and on success the keys of the case-folded map
    are the [ToLower] images of the keys of the other. *)
Theorem ParsePairs_case_flag `{GoLib} (text : string) :
  error_of (ParsePairs text true) = error_of (ParsePairs text false)
  /\ forall m1 m2,
       ParsePairs text true = Return (m1, None) ->
       ParsePairs text false = Return (m2, None) ->
       keys_of m1 = set_map ToLower (keys_of m2).
Proof.
  pose proof (ParsePairs_loop_ci text (String.length text) 0 None None
                ltac:(cbn [keys_of]; by rewrite set_map_empty)) as Hsame.
  unfold ParsePairs, same_result in *.
  destruct (ParsePairs_loop _ text true 0 None) as [[m1 e1]|],
    (ParsePairs_loop _ text false 0 None) as [[m2 e2]|]; try done.
  destruct Hsame as [<- Hkeys]. split; [reflexivity|].
  intros ? ? [= <- ->] [= <-]. by apply Hkeys.
Qed.

Lemma ParsePairs_case_flag_witness :
  keys_of (Some (<[ "for" := "1" ]> (∅ : gmap string string)))
  = set_map (ToLower (GoLib := example_lib))
      (keys_of (Some (<[ "For" := "1" ]> (∅ : gmap string string)))).
Proof.
  apply (proj2 (ParsePairs_case_flag (H := example_lib) "For=1")); reflexivity.
Defined.

Lemma ParsePairs_well_formed_witness :
  ParsePairs (H := example_lib)
    ("a=1;q=" +:+ dq +:+ "x;y=z" +:+ dq +:+ ";b=2") false
  = Return (Some (<[ "b" := "2" ]> (<[ "q" := "x;y=z" ]> (<[ "a" := "1" ]> ∅))),
            None).
Proof.
  apply (ParsePairs_well_formed (H := example_lib) false
           [{| item_name := "a"; item_value := "1"; item_quoted := false |};
            {| item_name := "q"; item_value := "x;y=z"; item_quoted := true |};
            {| item_name := "b"; item_value := "2"; item_quoted := false |}]);
    [discriminate | reflexivity].
Defined.

(** ** Go strings: a text behind a prefix *)

Lemma index_shift (pre s : string) (i : nat) :
  index (pre +:+ s) (String.length pre + i) = index s i.
Proof. unfold index. by rewrite get_app_r. Qed.

Lemma scan_loop_shift (stop : ascii -> bool) (pre s : string) :
  forall fuel i,
    scan_loop stop (pre +:+ s) fuel (String.length pre + i)
    = String.length pre + scan_loop stop s fuel i.
Proof.
  induction fuel as [|fuel IH]; intros i; cbn [scan_loop]; [reflexivity|].
  rewrite get_app_r. destruct (String.get i s) as [c|]; [|reflexivity].
  destruct (stop c); [reflexivity|]. by rewrite <- Nat.add_succ_r, IH.
Qed.

Lemma scan_shift (stop : ascii -> bool) (pre s : string) (i : nat) :
  scan stop (pre +:+ s) (String.length pre + i)
  = String.length pre + scan stop s i.
Proof.
  unfold scan. rewrite length_app.
  replace (String.length pre + String.length s - (String.length pre + i))
    with (String.length s - i) by lia.
  apply scan_loop_shift.
Qed.

Lemma substring_shift (pre s : string) (a n : nat) :
  String.substring (String.length pre + a) n (pre +:+ s) = String.substring a n s.
Proof. induction pre as [|c pre IH]; [reflexivity | exact IH]. Qed.

Lemma slice_shift (pre s : string) (a b : nat) :
  slice (pre +:+ s) (String.length pre + a) (String.length pre + b)
  = slice s a b.
Proof.
  unfold slice. rewrite length_app.
  replace (String.length pre + b - (String.length pre + a)) with (b - a) by lia.
  rewrite substring_shift.
  destruct (Nat.leb_spec a b), (Nat.leb_spec b (String.length s)),
    (Nat.leb_spec (String.length pre + a) (String.length pre + b)),
    (Nat.leb_spec (String.length pre + b)
       (String.length pre + String.length s)); (reflexivity || lia).
Qed.

Lemma eqb_add_l (n a b : nat) : (n + a =? n + b)%nat = (a =? b)%nat.
Proof.
  destruct (Nat.eqb_spec a b), (Nat.eqb_spec (n + a) (n + b));
    (reflexivity || lia).
Qed.

Lemma ltb_add_l (n a b : nat) : (n + a <? n + b)%nat = (a <? b)%nat.
Proof.
  destruct (Nat.ltb_spec a b), (Nat.ltb_spec (n + a) (n + b));
    (reflexivity || lia).
Qed.

(** ** Format: a template behind a prefix, a builder that is not empty *)

Ltac shift_norm :=
  repeat (progress (rewrite ?length_app, <- ?Nat.add_assoc, ?scan_shift,
                      ?eqb_add_l, ?ltb_add_l, ?slice_shift, ?index_shift)).

Lemma Format_brace_shift `{GoLib} (r : LogRecord) (pre s : string) (i : nat)
    (b : string) :
  Format_brace r (pre +:+ s) (String.length pre + i) b
  = do st <- Format_brace r s i b; Return (step_shift (String.length pre) st).
Proof.
  unfold Format_brace, slice_from. cbv zeta. shift_norm. unfold bind.
  case_split; reflexivity.
Qed.

Lemma Format_iter_shift `{GoLib} (r : LogRecord) (pre s : string) (i : nat)
    (b : string) :
  Format_iter r (pre +:+ s) (String.length pre + i) b
  = do st <- Format_iter r s i b; Return (step_shift (String.length pre) st).
Proof.
  unfold Format_iter. cbv zeta. shift_norm. rewrite Format_brace_shift.
  unfold bind, deref_URL. case_split; reflexivity.
Qed.

Lemma Format_brace_prepend `{GoLib} (r : LogRecord) (s : string) (i : nat)
    (b0 b : string) :
  Format_brace r s i (b0 +:+ b)
  = do st <- Format_brace r s i b; Return (step_prepend b0 st).
Proof.
  unfold Format_brace, slice_from, bind. cbv zeta.
  case_split; cbn [step_prepend]; by rewrite ?app_assoc_s.
Qed.

Lemma Format_iter_prepend `{GoLib} (r : LogRecord) (s : string) (i : nat)
    (b0 b : string) :
  Format_iter r s i (b0 +:+ b)
  = do st <- Format_iter r s i b; Return (step_prepend b0 st).
Proof.
  unfold Format_iter. cbv zeta. rewrite Format_brace_prepend.
  unfold bind, deref_URL.
  case_split; cbn [step_prepend]; by rewrite ?app_assoc_s.
Qed.

(** The loop on a template behind a prefix, with a builder that holds [b0]
    in front, is the loop on the template itself with [b0] put in front of
    its result. *)
Lemma Format_loop_shift `{GoLib} (r : LogRecord) (pre s b0 : string) :
  forall fuel i b,
    Format_loop fuel r (pre +:+ s) (String.length pre + i) (b0 +:+ b)
    = do x <- Format_loop fuel r s i b; Return (b0 +:+ x).
Proof.
  induction fuel as [|fuel IH]; intros i b; [reflexivity|].
  rewrite !Format_loop_S. rewrite length_app, ltb_add_l.
  destruct (i <? String.length s)%nat; [|reflexivity].
  rewrite Format_iter_shift, Format_iter_prepend.
  destruct (Format_iter r s i b) as [[i' b'|x]|]; cbn [bind step_prepend step_shift];
    [|reflexivity|reflexivity].
  rewrite <- Nat.add_assoc. apply IH.
Qed.

(** ** Format: a template with more text behind it *)

Lemma index_extend (a s : string) (i : nat) :
  i < String.length a -> index (a +:+ s) i = index a i.
Proof. intros Hi. unfold index. by rewrite get_app_l. Qed.

Lemma scan_extend (stop : ascii -> bool) (a s : string) (i : nat) :
  scan stop a i < String.length a ->
  scan stop (a +:+ s) i = scan stop a i.
Proof.
  intros Hj. pose proof (scan_ge stop a i) as Hge.
  unfold scan at 1. apply scan_loop_spec.
  - done.
  - rewrite length_app. lia.
  - intros k c Hk Hget. rewrite get_app_l in Hget by lia.
    destruct (scan_between stop a i k Hk) as (c' & Hc' & Hstop). congruence.
  - rewrite length_app. lia.
  - right. destruct (scan_exit stop a i) as [Hend | (c & Hc & Hstop)]; [lia|].
    exists c. by rewrite get_app_l.
Qed.

Lemma substring_extend (a s : string) (lo n : nat) :
  lo + n <= String.length a ->
  String.substring lo n (a +:+ s) = String.substring lo n a.
Proof.
  revert lo n. induction a as [|c a IH]; intros lo n Hlen.
  - cbn in Hlen. assert (lo = 0) as -> by lia. assert (n = 0) as -> by lia.
    by destruct s.
  - rewrite app_cons. rewrite length_cons in Hlen.
    destruct lo as [|lo].
    + destruct n as [|n]; [reflexivity|].
      change (String c (String.substring 0 n (a +:+ s))
              = String c (String.substring 0 n a)).
      f_equal. apply IH. lia.
    + change (String.substring lo n (a +:+ s) = String.substring lo n a).
      apply IH. lia.
Qed.

Lemma slice_extend (a s : string) (lo hi : nat) :
  hi <= String.length a -> slice (a +:+ s) lo hi = slice a lo hi.
Proof.
  intros Hhi. unfold slice. rewrite length_app.
  destruct (Nat.leb_spec lo hi); cbn [andb]; [|reflexivity].
  rewrite substring_extend by lia.
  destruct (Nat.leb_spec hi (String.length a)),
    (Nat.leb_spec hi (String.length a + String.length s));
    (reflexivity || lia).
Qed.

Lemma Format_brace_extend `{GoLib} (r : LogRecord) (a s : string) (i : nat)
    (b : string) (st : outcome format_step) :
  Format_brace r a i b = st -> i < String.length a ->
  (forall x, st <> Return (Finished x)) ->
  Format_brace r (a +:+ s) i b = st.
Proof.
  unfold Format_brace, slice_from. cbv zeta. intros Hst Hi Hfin.
  pose proof (scan_ge is_close_brace a (i + 1)) as Hge.
  pose proof (scan_le is_close_brace a (i + 1) ltac:(lia)) as Hle.
  destruct (slice_in_range a i (String.length a)) as [rest Hrest]; [lia|lia|].
  rewrite Hrest in Hst. cbn [bind] in Hst.
  destruct (Nat.eqb_spec (scan is_close_brace a (i + 1)) (String.length a))
    as [|Hj]; [by subst st; edestruct Hfin|].
  rewrite scan_extend by lia. rewrite length_app.
  rewrite eqb_false by lia. rewrite slice_extend by lia.
  destruct (slice a (i + 1) (scan is_close_brace a (i + 1))) as [key|];
    cbn [bind] in *; [|done].
  destruct (Nat.eqb_spec (scan is_close_brace a (i + 1) + 1) (String.length a))
    as [|Hj1]; [by subst st; edestruct Hfin|].
  rewrite eqb_false by lia. by rewrite index_extend by lia.
Qed.

(** An iteration that does not end the rendering reads nothing behind the
    directive it renders: more text behind the template does not change
    it. *)
Lemma Format_iter_extend `{GoLib} (r : LogRecord) (a s : string) (i : nat)
    (b : string) (st : outcome format_step) :
  Format_iter r a i b = st -> i < String.length a ->
  (forall x, st <> Return (Finished x)) ->
  Format_iter r (a +:+ s) i b = st.
Proof.
  unfold Format_iter. cbv zeta. intros Hst Hi Hfin.
  rewrite index_extend by done.
  destruct (index a i) as [c|]; cbn [bind] in *; [|done].
  destruct c as [[] [] [] [] [] [] [] []]; try exact Hst.
  destruct (Nat.eqb_spec (i + 1) (String.length a)) as [|Hi1];
    [by subst st; edestruct Hfin|].
  rewrite length_app, eqb_false by lia. rewrite index_extend by lia.
  destruct (index a (i + 1)) as [d|]; cbn [bind] in *; [|done].
  destruct d as [[] [] [] [] [] [] [] []]; try exact Hst.
  apply Format_brace_extend; (done || lia).
Qed.

Lemma Format_empty `{GoLib} (r : LogRecord) : Format r "" = Return "".
Proof. reflexivity. Qed.

(** A template whose first iteration consumes it whole, followed by more
    text. *)
Lemma Format_token `{GoLib} (r : LogRecord) (a s : string)
    (st : outcome format_step) :
  Format_iter r a 0 "" = st -> 0 < String.length a ->
  (st = Panics
   \/ exists i' x, st = Return (Continue i' x) /\ i' + 1 = String.length a) ->
  Format r (a +:+ s) = render_then (Format r a) (Format r s).
Proof.
  intros Hst Ha Hcases. unfold Format at 1 2. rewrite length_app.
  destruct (String.length a) as [|n] eqn:Hlen; [lia|].
  cbn [Nat.add]. rewrite !Format_loop_S. rewrite length_app, Hlen.
  cbn [Nat.add Nat.ltb Nat.leb].
  rewrite (Format_iter_extend r a s 0 "" st) by
    (done || lia || (destruct Hcases as [-> | (? & ? & -> & _)]; done)).
  rewrite Hst. destruct Hcases as [-> | (i' & x & -> & Hi')]; [reflexivity|].
  cbn [bind]. rewrite (Format_loop_end n r a) by lia.
  unfold render_then. cbn [bind].
  replace (i' + 1) with (String.length a + 0) by lia.
  rewrite <- (app_empty_r x) at 1. rewrite Format_loop_shift.
  rewrite (Format_loop_fuel r s (n + String.length s) (String.length s)) by lia.
  reflexivity.
Qed.

Lemma Format_iter_literal `{GoLib} (r : LogRecord) (c : ascii) :
  c <> "%"%char ->
  Format_iter r (String c "") 0 "" = Return (Continue 0 (String c "")).
Proof.
  intros Hc. unfold Format_iter. cbn [index String.get bind].
  destruct c as [[] [] [] [] [] [] [] []]; (reflexivity || done).
Qed.

Ltac step_cases :=
  repeat match goal with
         | |- context [bind ?o _] => destruct o; cbn [bind]
         | |- context [if ?c then _ else _] => destruct c
         end;
  first [by left | right; eexists; reflexivity].

Lemma Format_iter_directive `{GoLib} (r : LogRecord) (d : ascii) :
  d <> "{"%char ->
  Format_iter r ("%" +:+ String d "") 0 "" = Panics
  \/ exists x, Format_iter r ("%" +:+ String d "") 0 "" = Return (Continue 1 x).
Proof.
  intros Hd. unfold Format_iter.
  change (index ("%" +:+ String d "") 0) with (Return "%"%char).
  change (String.length ("%" +:+ String d "")) with 2.
  change (index ("%" +:+ String d "") (0 + 1)) with (Return d).
  cbn [bind Nat.add Nat.eqb].
  destruct d as [[] [] [] [] [] [] [] []];
    first [right; eexists; reflexivity | congruence | step_cases].
Qed.

Lemma Format_iter_braces `{GoLib} (r : LogRecord) (key : string) (d : ascii) :
  string_forall (fun c => negb (is_close_brace c)) key = true ->
  let format := "%{" +:+ key +:+ "}" +:+ String d "" in
  Format_iter r format 0 "" = Panics
  \/ exists x, Format_iter r format 0 ""
               = Return (Continue (String.length key + 3) x).
Proof.
  intros Hkey format.
  assert (Hlen : String.length format = String.length key + 4)
    by (unfold format; text_len).
  unfold Format_iter. change (index format 0) with (Return "%"%char).
  cbn [bind Nat.add]. rewrite eqb_false by lia.
  change (index format 1) with (Return "{"%char). cbn [bind].
  unfold Format_brace. cbn [Nat.add].
  rewrite (scan_at is_close_brace format "%{" key ("}" +:+ String d ""))
    by (reflexivity || done || (right; by eexists _, _)).
  change (String.length "%{") with 2. rewrite eqb_false by lia.
  rewrite (slice_at format "%{" key ("}" +:+ String d "")) by reflexivity.
  cbn [bind]. rewrite eqb_false by lia.
  rewrite (index_at format ("%{" +:+ key +:+ "}") d "")
    by (unfold format; text_eq || text_len).
  cbn [bind]. replace (2 + String.length key + 1) with (String.length key + 3) by lia.
  destruct d as [[] [] [] [] [] [] [] []];
    first [right; eexists; reflexivity | step_cases].
Qed.

Lemma render_then_assoc (o1 o2 o3 : outcome string) :
  render_then o1 (render_then o2 o3) = render_then (render_then o1 o2) o3.
Proof.
  destruct o1 as [x|], o2 as [y|], o3 as [z|]; cbn; try reflexivity.
  by rewrite app_assoc_s.
Qed.

Lemma render_then_empty_l (o : outcome string) : render_then (Return "") o = o.
Proof. by destruct o. Qed.

(** Rendering is compositional: behind a template made of whole tokens the
    loop starts afresh, with the rendering of the tokens in the builder. *)
Lemma Format_complete_app `{GoLib} (r : LogRecord) (a s : string) :
  complete a ->
  Format r (a +:+ s) = render_then (Format r a) (Format r s).
Proof.
  intros Ha. revert s. induction Ha as [|c a Hc Ha IH|d a Hd Ha IH|key d a Hkey Ha IH];
    intros s.
  - by rewrite Format_empty, render_then_empty_l.
  - change (String c a +:+ s) with (String c "" +:+ a +:+ s).
    change (String c a) with (String c "" +:+ a).
    rewrite !(Format_token r (String c "") _ _ (Format_iter_literal r c Hc))
      by (cbn; lia || (right; by eexists _, _)).
    by rewrite IH, render_then_assoc.
  - change (("%" +:+ String d a) +:+ s) with (("%" +:+ String d "") +:+ a +:+ s).
    change ("%" +:+ String d a) with (("%" +:+ String d "") +:+ a).
    assert (Htok : forall t, Format r (("%" +:+ String d "") +:+ t)
                             = render_then (Format r ("%" +:+ String d ""))
                                 (Format r t)).
    { intros t. apply (Format_token r _ _ _ eq_refl);
        [cbv [String.length String.append]; lia|].
      destruct (Format_iter_directive r d Hd) as [-> | [x ->]];
        [by left | right; by eexists _, _]. }
    by rewrite !Htok, IH, render_then_assoc.
  - replace (("%{" +:+ key +:+ "}" +:+ String d a) +:+ s)
      with (("%{" +:+ key +:+ "}" +:+ String d "") +:+ a +:+ s)
      by (rewrite !app_assoc_s; reflexivity).
    replace ("%{" +:+ key +:+ "}" +:+ String d a)
      with (("%{" +:+ key +:+ "}" +:+ String d "") +:+ a)
      by (rewrite !app_assoc_s; reflexivity).
    assert (Htok : forall t, Format r (("%{" +:+ key +:+ "}" +:+ String d "") +:+ t)
                             = render_then
                                 (Format r ("%{" +:+ key +:+ "}" +:+ String d ""))
                                 (Format r t)).
    { intros t. apply (Format_token r _ _ _ eq_refl); [text_len|].
      destruct (Format_iter_braces r key d Hkey) as [-> | [x ->]];
        [by left | right; eexists _, _; split; [reflexivity | text_len]]. }
    by rewrite !Htok, IH, render_then_assoc.
Qed.

(** ** Format: templates made of whole tokens *)

Lemma template_run_key (s : string) :
  template_run InKey s = InText ->
  exists key d s',
    s = key +:+ "}" +:+ String d s' /\ brace_free key = true
    /\ template_run InText s' = InText.
Proof.
  induction s as [|c s IH]; [discriminate|]. cbn [template_run template_next].
  destruct (is_close_brace c) eqn:Hc.
  - destruct s as [|d s']; [discriminate|]. cbn [template_run template_next].
    intros Hrun. exists "", d, s'. repeat split; [|done].
    unfold is_close_brace in Hc. apply Ascii.eqb_eq in Hc. by subst c.
  - intros (key & d & s' & -> & Hkey & Hrun)%IH.
    exists (String c key), d, s'. repeat split; [|done].
    unfold brace_free. cbn [string_forall]. by rewrite Hc.
Qed.

Lemma whole_tokens_complete (s : string) : whole_tokens s = true -> complete s.
Proof.
  assert (Hrun : forall n s, String.length s <= n ->
                             template_run InText s = InText -> complete s).
  { clear s. induction n as [|n IH]; intros s Hn.
    - destruct s; [constructor | cbn [String.length] in Hn; lia].
    - destruct s as [|c s]; [constructor|]. cbn [String.length] in Hn.
      cbn [template_run template_next].
      destruct (Ascii.eqb_spec c "%") as [->|Hc].
      + destruct s as [|d s]; [discriminate|]. cbn [String.length] in Hn.
        cbn [template_run template_next].
        destruct (Ascii.eqb_spec d "{") as [->|Hd].
        * intros (key & e & s' & -> & Hkey & Hrun)%template_run_key.
          apply (complete_braces key e s' Hkey), IH; [|done].
          revert Hn. string_lengths. cbn [String.length]. lia.
        * intros Hrun. apply (complete_directive d s Hd), IH; [lia | done].
      + intros Hrun. apply (complete_literal c s Hc), IH; [lia | done]. }
  unfold whole_tokens. intros Hs. apply (Hrun (String.length s)); [lia|].
  by destruct (template_run InText s).
Qed.

(** X16: rendering is compositional.  Behind a template made of whole tokens,
    more template text is rendered as it is on its own: the result is the
    two renderings one after the other, and a panic when one of them
    panics. *)
Theorem Format_app `{GoLib} (r : LogRecord) (a s : string) :
  whole_tokens a = true ->
  Format r (a +:+ s) = render_then (Format r a) (Format r s).
Proof. intros Ha. by apply Format_complete_app, whole_tokens_complete. Qed.

Lemma Format_app_witness :
  Format (example_record ∅) ("%m %{x}T " +:+ "%s%")
  = render_then (Format (example_record ∅) "%m %{x}T ")
      (Format (example_record ∅) "%s%")
  /\ Format (example_record ∅) ("%m %{x}T " +:+ "%s%")
     = Return "GET %{x}T 200%".
Proof.
  split; [|reflexivity].
  apply (Format_app (H := example_lib) (example_record ∅)). reflexivity.
Defined.

(** ** Format: literal text *)

Lemma Format_one_step `{GoLib} (r : LogRecord) (a : string) :
  0 < String.length a ->
  Format r a
  = match Format_iter r a 0 "" with
    | Return (Continue i x) => Format_loop (String.length a - 1) r a (i + 1) x
    | Return (Finished x) => Return x
    | Panics => Panics
    end.
Proof.
  intros Ha. unfold Format.
  destruct (String.length a) as [|n] eqn:Hlen; [lia|].
  rewrite Format_loop_S, Hlen. cbn [Nat.ltb Nat.leb].
  replace (S n - 1) with n by lia.
  by destruct (Format_iter r a 0 "") as [[]|].
Qed.

Lemma Format_percent_percent `{GoLib} (r : LogRecord) :
  Format r "%%" = Return "%".
Proof. reflexivity. Qed.

Lemma Format_literal_char `{GoLib} (r : LogRecord) (c : ascii) :
  c <> "%"%char -> Format r (String c "") = Return (String c "").
Proof.
  intros Hc. rewrite Format_one_step by (cbn [String.length]; lia).
  rewrite Format_iter_literal by done.
  by rewrite Format_loop_end by (cbn [String.length]; lia).
Qed.

Lemma whole_tokens_escape (t : string) : complete (escape t).
Proof.
  induction t as [|c t IH]; [constructor|]. cbn [escape].
  destruct (Ascii.eqb_spec c "%") as [->|Hc].
  - by apply (complete_directive "%" (escape t)).
  - by apply complete_literal.
Qed.

(** X17: a ['%'] is written by doubling it.  The template that is a text with
    every ['%'] doubled renders as that text, on every record; so a text
    without ['%'] renders as itself. *)
Theorem Format_escape `{GoLib} (r : LogRecord) (t : string) :
  Format r (escape t) = Return t.
Proof.
  induction t as [|c t IH]; [reflexivity|]. cbn [escape].
  destruct (Ascii.eqb_spec c "%") as [->|Hc].
  - change (String "%" (String "%" (escape t))) with ("%%" +:+ escape t).
    rewrite (Format_complete_app r "%%")
      by (apply (complete_directive "%" ""); [done | constructor]).
    by rewrite Format_percent_percent, IH.
  - change (String c (escape t)) with (String c "" +:+ escape t).
    rewrite (Format_complete_app r (String c ""))
      by (apply complete_literal; [done | constructor]).
    by rewrite Format_literal_char, IH.
Qed.

(** X18: text without ['%'] renders as itself, on every record. *)
Theorem Format_literal `{GoLib} (r : LogRecord) (t : string) :
  string_forall (fun c => negb (c =? "%")%char) t = true ->
  Format r t = Return t.
Proof.
  induction t as [|c t IH]; [reflexivity|]. cbn [string_forall].
  intros [Hc Ht]%andb_true_iff. apply negb_true_iff, Ascii.eqb_neq in Hc.
  change (String c t) with (String c "" +:+ t).
  rewrite (Format_complete_app r (String c ""))
    by (apply complete_literal; [done | constructor]).
  by rewrite Format_literal_char, IH.
Qed.

Lemma Format_literal_witness :
  Format (example_record ∅) "GET /index.html" = Return "GET /index.html".
Proof.
  apply (Format_literal (H := example_lib) (example_record ∅)). reflexivity.
Defined.

(** ** Format: directives with a key in braces *)

(** What the loop reads in a template that is one directive with a key. *)
Lemma key_template_probes (key : string) (d : ascii) :
  brace_free key = true ->
  let format := "%{" +:+ key +:+ "}" +:+ String d "" in
  String.length format = String.length key + 4
  /\ scan is_close_brace format 2 = String.length key + 2
  /\ slice format 2 (String.length key + 2) = Return key
  /\ index format (String.length key + 2 + 1) = Return d.
Proof.
  intros Hkey format. repeat split.
  - unfold format. text_len.
  - rewrite (scan_at is_close_brace format "%{" key ("}" +:+ String d ""))
      by (reflexivity || done || (right; by eexists _, _)).
    change (String.length "%{") with 2. lia.
  - by rewrite (slice_at format "%{" key ("}" +:+ String d ""))
      by (reflexivity || (change (String.length "%{") with 2; lia)).
  - by rewrite (index_at format ("%{" +:+ key +:+ "}") d "")
      by (unfold format; text_eq || text_len).
Qed.

Ltac key_directive Hkey d :=
  match goal with
  | |- context [Format ?r ("%{" +:+ ?key +:+ ?tail)] =>
      change tail with ("}" +:+ String d "");
      let Hlen := fresh "Hlen" in
      let Hscan := fresh "Hscan" in
      let Hslice := fresh "Hslice" in
      let Hidx := fresh "Hidx" in
      destruct (key_template_probes key d Hkey) as (Hlen & Hscan & Hslice & Hidx);
      rewrite (Format_one_step r ("%{" +:+ key +:+ "}" +:+ String d "")) by lia;
      unfold Format_iter, Format_brace;
      change (index ("%{" +:+ key +:+ "}" +:+ String d "") 0)
        with (Return "%"%char);
      cbn [bind Nat.add];
      change (index ("%{" +:+ key +:+ "}" +:+ String d "") 1)
        with (Return "{"%char);
      rewrite Hscan, Hlen, Hslice, Hidx;
      rewrite !eqb_false by lia;
      cbn [bind]
  end.

(** X19: the directives with a key.  For every key without a closing brace,
    [%{key}i] and [%{key}o] render the values of the request and of the
    response header under the canonical form of the key, joined by commas;
    [%{key}t] renders the end time when the key starts with [end:] and the
    start time otherwise, in the layout that is the key without its prefix
    [end:] or [begin:]; [%{key}T] renders the duration in the unit [ms],
    [us] or [s] and is written as it stands for another key; [%{key}C]
    renders what the map of [ParsePairs] on the Cookie header holds under
    the key, and panics when [ParsePairs] does. *)
Theorem Format_key_directives `{GoLib} (r : LogRecord) (key : string) :
  brace_free key = true ->
  Format r ("%{" +:+ key +:+ "}i")
  = Return (Join (header_values (Request_Header (Record_Request r))
                    (CanonicalHeaderKey key)) ",")
  /\ Format r ("%{" +:+ key +:+ "}o")
     = Return (Join (header_values (Response_Header (Record_Response r))
                       (CanonicalHeaderKey key)) ",")
  /\ Format r ("%{" +:+ key +:+ "}t")
     = Return (if HasPrefix key "end:"
               then Time_Format (EndTime r) (TrimPrefix key "end:")
               else Time_Format (StartTime r) (TrimPrefix key "begin:"))
  /\ Format r ("%{" +:+ key +:+ "}T")
     = Return (if key =? "ms" then FormatFloat_ratio (Duration r) Millisecond
               else if key =? "us" then FormatFloat_ratio (Duration r) Microsecond
               else if key =? "s" then FormatFloat_Seconds (Duration r)
               else "%{" +:+ key +:+ "}T")
  /\ Format r ("%{" +:+ key +:+ "}C")
     = do ret <- ParsePairs
                   (Header_Get (Request_Header (Record_Request r)) "Cookie")
                   false;
       Return (map_get (fst ret) key).
Proof.
  intros Hkey. repeat split.
  - key_directive Hkey "i"%char. by rewrite Format_loop_end by lia.
  - key_directive Hkey "o"%char. by rewrite Format_loop_end by lia.
  - key_directive Hkey "t"%char. destruct (HasPrefix key "end:");
      by rewrite Format_loop_end by lia.
  - key_directive Hkey "T"%char.
    destruct (key =? "ms"); [|destruct (key =? "us"); [|destruct (key =? "s")]];
      by rewrite Format_loop_end by lia.
  - key_directive Hkey "C"%char. destruct (ParsePairs _ false) as [ret|]; [|done].
    cbn [bind]. by rewrite Format_loop_end by lia.
Qed.

Lemma Format_key_directives_witness :
  let r := example_record {[ "Accept" := ["text/html"; "*/*"];
                             "Cookie" := ["a=1; b=2"] ]} in
  Format r "%{Accept}i" = Return "text/html,*/*"
  /\ Format r "%{Accept}o" = Return ""
  /\ Format r "%{end:2006}t" = Return "1@2006"
  /\ Format r "%{ms}T" = Return "1000"
  /\ Format r "%{ b}C" = Return "2".
Proof.
  intros r.
  destruct (Format_key_directives (H := example_lib) r "Accept" eq_refl)
    as (Hi & Ho & _).
  destruct (Format_key_directives (H := example_lib) r "end:2006" eq_refl)
    as (_ & _ & Ht & _).
  destruct (Format_key_directives (H := example_lib) r "ms" eq_refl)
    as (_ & _ & _ & HT & _).
  destruct (Format_key_directives (H := example_lib) r " b" eq_refl)
    as (_ & _ & _ & _ & HC).
  exact (conj Hi (conj Ho (conj Ht (conj HT HC)))).
Defined.

(** ** Format: what is passed through *)

Lemma Format_lone_brace `{GoLib} (r : LogRecord) (key t : string) :
  brace_free key = true -> t = "" \/ t = "}" ->
  Format r ("%{" +:+ key +:+ t) = Return ("%{" +:+ key +:+ t).
Proof.
  intros Hkey Ht. set (format := "%{" +:+ key +:+ t).
  assert (Hscan : scan is_close_brace format 2 = String.length key + 2).
  { rewrite (scan_at is_close_brace format "%{" key t);
      [change (String.length "%{") with 2; lia | reflexivity | reflexivity
       | done | ].
    destruct Ht as [-> | ->]; [by left | right; by eexists _, _]. }
  assert (Hlen : String.length format
                 = String.length key + 2 + String.length t)
    by (unfold format; text_len).
  rewrite Format_one_step by lia.
  destruct (Format_iter_unterminated_brace r format 0 "") as (rest & Hrest & ->);
    [reflexivity | reflexivity | |].
  - cbn [Nat.add]. rewrite Hscan, Hlen.
    destruct Ht as [-> | ->]; cbn [String.length]; [left | right]; lia.
  - unfold slice_from in Hrest.
    rewrite (slice_at format "%" ("{" +:+ key +:+ t) "") in Hrest;
      [by inversion Hrest | by rewrite app_empty_r | reflexivity | ].
    rewrite Hlen. text_len.
Qed.

(** X20: what is not a directive is passed through.  A ['%'] at the end of
    the template, a ['%'] before a character that is no directive, a brace
    that is not closed or has nothing behind its closing brace, a duration
    with an unknown unit and a key before a character that is no directive
    are each rendered as they stand, on every record. *)
Theorem Format_passthrough `{GoLib} (r : LogRecord) (key : string) (d : ascii) :
  brace_free key = true ->
  Format r "%" = Return "%"
  /\ (known_directive d = false ->
      Format r ("%" +:+ String d "") = Return ("%" +:+ String d ""))
  /\ Format r ("%{" +:+ key) = Return ("%{" +:+ key)
  /\ Format r ("%{" +:+ key +:+ "}") = Return ("%{" +:+ key +:+ "}")
  /\ (known_unit key = false ->
      Format r ("%{" +:+ key +:+ "}T") = Return ("%{" +:+ key +:+ "}T"))
  /\ (known_key_directive d = false ->
      Format r ("%{" +:+ key +:+ "}" +:+ String d "")
      = Return ("%{" +:+ key +:+ "}" +:+ String d "")).
Proof.
  intros Hkey. repeat split.
  - intros Hd. rewrite Format_one_step by (cbv [String.length String.append]; lia).
    rewrite (Format_iter_unknown_directive r _ 0 "" d) by done.
    by rewrite Format_loop_end by (cbv [String.length String.append]; lia).
  - rewrite <- (app_empty_r key) at 1 2. by apply Format_lone_brace; [|left].
  - by apply Format_lone_brace; [|right].
  - intros Hu. apply orb_false_iff in Hu as [Hu Hs].
    apply orb_false_iff in Hu as [Hms Hus].
    key_directive Hkey "T"%char. rewrite Hms, Hus, Hs.
    by rewrite Format_loop_end by lia.
  - intros Hd. key_directive Hkey d.
    destruct d as [[] [] [] [] [] [] [] []]; try discriminate Hd;
      by rewrite Format_loop_end by lia.
Qed.

Lemma Format_passthrough_witness :
  let r := example_record ∅ in
  Format r "%" = Return "%"
  /\ Format r "%Z" = Return "%Z"
  /\ Format r "%{bad" = Return "%{bad"
  /\ Format r "%{bad}" = Return "%{bad}"
  /\ Format r "%{bad}T" = Return "%{bad}T"
  /\ Format r "%{bad}Z" = Return "%{bad}Z".
Proof.
  intros r.
  destruct (Format_passthrough (H := example_lib) r "bad" "Z" eq_refl)
    as (H1 & H2 & H3 & H4 & H5 & H6).
  exact (conj H1 (conj (H2 eq_refl) (conj H3 (conj H4
           (conj (H5 eq_refl) (H6 eq_refl)))))).
Defined.

(** ** Format: a record without URL *)

Lemma Format_URL_directive_panics `{GoLib} (r : LogRecord) (d : ascii) :
  Request_URL (Record_Request r) = None ->
  In d ["U"; "q"; "r"]%char ->
  Format r ("%" +:+ String d "") = Panics.
Proof.
  intros Hu Hd.
  rewrite Format_one_step by (cbv [String.length String.append]; lia).
  unfold Format_iter, deref_URL. rewrite Hu.
  destruct Hd as [<- | [<- | [<- | []]]]; reflexivity.
Qed.

Lemma render_then_Panics_r (o : outcome string) : render_then o Panics = Panics.
Proof. by destruct o. Qed.

Lemma render_then_Panics_l (o : outcome string) : render_then Panics o = Panics.
Proof. reflexivity. Qed.

(** X21: [Format] on a record whose URL is nil.  A template with [%U],
    [%q] or [%r] behind whole tokens panics, whatever follows; so do the
    four log formats of the package. *)
Theorem Format_nil_URL_panics `{GoLib} (r : LogRecord) :
  Request_URL (Record_Request r) = None ->
  (forall (a s : string) (d : ascii),
      whole_tokens a = true -> In d ["U"; "q"; "r"]%char ->
      Format r (a +:+ "%" +:+ String d s) = Panics)
  /\ Forall (fun format => Format r format = Panics)
       [SimpleLogFormat; BasicLogFormat; CommonLogFormat; NCSALogFormat].
Proof.
  intros Hu.
  assert (Hgen : forall (a s : string) (d : ascii),
             whole_tokens a = true -> In d ["U"; "q"; "r"]%char ->
             Format r (a +:+ "%" +:+ String d s) = Panics).
  { intros a s d Ha Hd.
    rewrite (Format_complete_app r a) by by apply whole_tokens_complete.
    change ("%" +:+ String d s) with (("%" +:+ String d "") +:+ s).
    rewrite (Format_complete_app r ("%" +:+ String d "")).
    - rewrite Format_URL_directive_panics by done.
      by rewrite render_then_Panics_l, render_then_Panics_r.
    - apply complete_directive; [|constructor].
      destruct Hd as [<- | [<- | [<- | []]]]; discriminate. }
  split; [exact Hgen|].
  assert (Hr : In "r"%char ["U"; "q"; "r"]%char) by (cbn [In]; tauto).
  apply List.Forall_cons; [|apply List.Forall_cons; [|apply List.Forall_cons;
    [|apply List.Forall_cons; [|apply List.Forall_nil]]]].
  - by apply (Hgen ("%a " +:+ dq) _ "r"%char).
  - by apply (Hgen ("%a %v %u " +:+ dq) _ "r"%char).
  - by apply (Hgen ("%a - %u %t " +:+ dq) _ "r"%char).
  - by apply (Hgen ("%a - %u %t " +:+ dq) _ "r"%char).
Qed.

Lemma Format_nil_URL_panics_witness :
  let _ : GoLib := example_lib in
  let r := {| Record_Request :=
                {| Method := ""; URI := ""; Request_URL := None; Proto := "";
                   Request_Header := ∅; ContentLength := 0; Host := "";
                   RemoteAddr := ""; User := "" |};
              Record_Response :=
                {| Response_Status := 0; Response_Size := 0;
                   Response_Hijacked := false; Response_Header := ∅ |};
              StartTime := 0%Z; EndTime := 0%Z; Duration := 0 |} in
  Format r "%s %U" = Panics /\ Format r CommonLogFormat = Panics.
Proof.
  intros lib r.
  destruct (Format_nil_URL_panics (H := example_lib) r eq_refl) as [Hgen Hall].
  split.
  - apply (Hgen "%s " "" "U"%char); [reflexivity | cbn [In]; tauto].
  - exact (Forall_inv (Forall_inv_tail (Forall_inv_tail Hall))).
Defined.

(** ** Examples of the properties of [ParsePairs], [ClientAddr] and [Format]
       proved in the first part *)

Lemma Format_total_witness :
  exists s, Format (example_record ∅) NCSALogFormat = Return s.
Proof.
  apply (Format_total (H := example_lib) (example_record ∅)).
  repeat split; by eexists.
Defined.

Lemma ClientAddr_priority_witness :
  ClientAddr (example_request {[ "Forwarded" := ["by=203.0.113.43"; "for=192.0.2.60;proto=http"];
                                 "X-Forwarded-For" := ["198.51.100.7, 203.0.113.43"] ]})
  = Return "192.0.2.60"
  /\ ClientAddr (example_request {[ "Forwarded" := ["for"];
                                    "X-Forwarded-For" := ["198.51.100.7, 203.0.113.43"] ]})
     = Return "198.51.100.7"
  /\ ClientAddr (example_request ∅) = Return "192.0.2.1:4711".
Proof.
  repeat apply conj.
  - apply (ClientAddr_priority (H := example_lib)).
    apply List.Forall_cons; [discriminate|].
    apply List.Forall_cons; [discriminate | apply List.Forall_nil].
  - apply (ClientAddr_priority (H := example_lib)).
    apply List.Forall_cons; [discriminate | apply List.Forall_nil].
  - apply (ClientAddr_priority (H := example_lib)). apply List.Forall_nil.
Defined.

Lemma ParsePairs_unterminated_quote_accepted_witness :
  ParsePairs (H := example_lib) ("a=1;B=" +:+ dq +:+ dq) true
  = Return (Some {[ "a" := "1"; "b" := dq ]}, None).
Proof.
  apply (ParsePairs_unterminated_quote_accepted (H := example_lib) true
           [("a", "1")] "B" dquote ""); reflexivity.
Defined.
